(** * Conversation synchronisation and delivery engine: a shallow embedding

    The development follows the two React components that carry the logic of
    the application:

    - [src/src/AIChat.jsx]: [generateImageURL], [formatHistoryForAPI],
      [fetchWithRetries], [handleSendMessage] and the message subscription;
    - [src/src/ChatHistory.jsx]: [handleDeleteChat], [handleClearAllChats],
      [filteredChats] and [sortedChats];
    - the other functions of the two files: [createNewChat],
      [handleSelectChat], [regenerateResponse], [handleExportChat], the
      keyboard shortcuts and the bold markup of a turn in [AIChat.jsx]; the
      chat subscription, [handlePinChat], [handleSetCategory] and
      [formatDate] in [ChatHistory.jsx].

    Conventions of the model.

    - A JavaScript string is a [string] whose characters are its UTF-16 code
      units; the model covers the code units below 256 (Latin-1), on which
      [trim], [toLowerCase], [includes], [substring], the regular expression
      classes and [encodeURIComponent] are written out exactly.
      [encodeURIComponent] is also written out on all sequences of 16-bit
      code units ([JS.encodeURIComponent_utf16]), where it can throw.
    - Asynchronous code is run to completion in program order; every [await]
      is a call into the environment, whose answers are given by an
      [environment] record (network replies, store failures, the user's
      answers to [window.confirm]).
    - A thrown exception is the [Throw] result of the monad [M]; [try]/[catch]
      and [finally] are the combinators [try_catch] and [finally].
    - A [while (true)] loop runs with an iteration bound taken from the
      store; running into the bound is the result [OutOfFuel], which no
      [catch] handles and which is shown never to occur.
    - [console.log]/[console.error] and [alert] have no effect on the model,
      and the browser is taken to offer speech synthesis.

    Main results, in the second half of the file.

    - [BackoffClient.persistent_failure_three_attempts] and
      [BackoffClient.client_error_is_retried]: what [fetchWithRetries] does
      against a backend that keeps failing, with status 5xx and with status
      404 (where the code retries, against its comments).
    - [DirectiveParser.directive_parser]: the image directive.
    - [RegistryView.derived_view_filter_and_sort]: the sidebar view.
    - [SingleDeletion.delete_chat_450_turns] and
      [CascadingDeletion.clear_all_drains_before_deleting]: deletion of one
      chat and of all chats.
    - [Engine.user_turn_write_failure_aborts],
      [Engine.completion_error_becomes_error_turn] and
      [Engine.welcome_turn_is_sent_as_history]: the submission handler.
    - [Engine.title_is_rewritten_after_select]: a run in which the title of
      a chat is written a second time.

    Further results, after these.

    - [BackoffSchedule]: the calls and waits of [fetchWithRetries] for any
      number of retries.
    - [Submission], [AppendOnly] and [ViewOrder]: the paths of
      [handleSendMessage] (no current chat, answered submission, image
      submission, failures of the metadata writes), what every submission
      leaves in place, and the view after an answered submission.
    - [Actions], [ViewActions] and [BoldMarkup]: [regenerateResponse],
      [handleSelectChat], the export, the keyboard shortcuts and the markup
      of a displayed turn.
    - [SidebarView] and [DeletionScope]: the chat list, [formatDate], pins
      and categories, and the scope, the confirmations and the number of
      requests of the two deletions.
    - [Texts]: the generated image address, the bounds of titles and
      previews, and the content of the message view. *)

From Stdlib Require Import Ascii String ZArith Lia.
From stdpp Require Import gmap strings list fin_maps pretty sorting.


(* ===================================================================== *)
(** * JavaScript string primitives                                        *)
(* ===================================================================== *)

Module JS.

(** Code unit of a character. *)
Definition code (c : ascii) : nat := nat_of_ascii c.

(** [WhiteSpace] and [LineTerminator] code units below 256: TAB, LF, VT, FF,
    CR, SP and NBSP.  This is the class of [\s] and what [trim] strips. *)
Definition is_space (c : ascii) : bool :=
  let n := code c in
  (n =? 9) || (n =? 10) || (n =? 11) || (n =? 12) || (n =? 13)
  || (n =? 32) || (n =? 160).

(** Line terminators, which [.] does not match: LF and CR. *)
Definition is_line_terminator (c : ascii) : bool :=
  let n := code c in (n =? 10) || (n =? 13).

Fixpoint trimStart (s : string) : string :=
  match s with
  | String c s' => if is_space c then trimStart s' else s
  | EmptyString => EmptyString
  end.

Fixpoint trimEnd (s : string) : string :=
  match s with
  | String c s' =>
      match trimEnd s' with
      | EmptyString => if is_space c then EmptyString else String c EmptyString
      | t => String c t
      end
  | EmptyString => EmptyString
  end.

(** [String.prototype.trim]. *)
Definition trim (s : string) : string := trimEnd (trimStart s).

(** Truthiness of a string: the empty string is falsy. *)
Definition truthy (s : string) : bool :=
  match s with EmptyString => false | _ => true end.

(** [a || b] on strings. *)
Definition or_else (a b : string) : string := if truthy a then a else b.

(** [s.substring(0, n)]. *)
Fixpoint substring_to (n : nat) (s : string) : string :=
  match n, s with
  | S n', String c s' => String c (substring_to n' s')
  | _, _ => EmptyString
  end.

(** [s.substring(n)]. *)
Fixpoint substring_from (n : nat) (s : string) : string :=
  match n, s with
  | S n', String _ s' => substring_from n' s'
  | _, _ => s
  end.

(** [s.startsWith(p)]. *)
Fixpoint startsWith (p s : string) : bool :=
  match p, s with
  | EmptyString, _ => true
  | String a p', String b s' => if Ascii.eqb a b then startsWith p' s' else false
  | String _ _, EmptyString => false
  end.

(** [s.includes(p)]. *)
Fixpoint includes (s p : string) : bool :=
  startsWith p s ||
  match s with
  | String _ s' => includes s' p
  | EmptyString => false
  end.

(** [toLowerCase] on one code unit: A-Z, and U+00C0..U+00DE except U+00D7. *)
Definition lower_char (c : ascii) : ascii :=
  let n := code c in
  if ((65 <=? n) && (n <=? 90))
     || ((192 <=? n) && (n <=? 222) && negb (n =? 215))
  then ascii_of_nat (n + 32) else c.

Fixpoint toLowerCase (s : string) : string :=
  match s with
  | String c s' => String (lower_char c) (toLowerCase s')
  | EmptyString => EmptyString
  end.

(** Upper-case hexadecimal digit. *)
Definition hex_digit (n : nat) : ascii :=
  if n <? 10 then ascii_of_nat (48 + n) else ascii_of_nat (55 + n).

(** [%XX] escape of one byte. *)
Definition percent (b : nat) : string :=
  String "%"%char (String (hex_digit (b / 16)) (String (hex_digit (b mod 16)) EmptyString)).

(** Characters that [encodeURIComponent] leaves alone:
    [A-Z a-z 0-9 - _ . ! ~ * ' ( )]. *)
Definition uri_unreserved (c : ascii) : bool :=
  let n := code c in
  ((65 <=? n) && (n <=? 90)) || ((97 <=? n) && (n <=? 122))
  || ((48 <=? n) && (n <=? 57))
  || (n =? 45) || (n =? 95) || (n =? 46) || (n =? 33) || (n =? 126)
  || (n =? 42) || (n =? 39) || (n =? 40) || (n =? 41).

(** One code unit: kept, or the escapes of its UTF-8 bytes (one byte below
    128, two bytes from 128 to 255). *)
Definition encode_char (c : ascii) : string :=
  let n := code c in
  if uri_unreserved c then String c EmptyString
  else if n <? 128 then percent n
  else percent (192 + n / 64) +:+ percent (128 + n mod 64).

(** [encodeURIComponent] on the strings of the model, whose code units are
    below 256: there it never throws. *)
Fixpoint encodeURIComponent (s : string) : string :=
  match s with
  | String c s' => encode_char c +:+ encodeURIComponent s'
  | EmptyString => EmptyString
  end.

(** ** [encodeURIComponent] on every string

    The function as the language defines it, on any sequence of 16-bit code
    units: a surrogate pair stands for one code point, a surrogate without
    its partner makes the function throw [URIError] (the result [None]),
    and every code point is kept when it is unreserved and replaced by the
    escapes of its UTF-8 bytes otherwise.  The function above is its
    restriction to the strings of the model
    ([Texts.encodeURIComponent_restricts]). *)

Definition is_high_surrogate (u : N) : bool :=
  ((55296 <=? u) && (u <=? 56319))%N.        (* U+D800..U+DBFF *)

Definition is_low_surrogate (u : N) : bool :=
  ((56320 <=? u) && (u <=? 57343))%N.        (* U+DC00..U+DFFF *)

(** The code point of a surrogate pair. *)
Definition pair_code_point (high low : N) : N :=
  (65536 + (high - 55296) * 1024 + (low - 56320))%N.

(** The UTF-8 bytes of a code point. *)
Definition utf8 (cp : N) : list N :=
  if (cp <? 128)%N then [cp]
  else if (cp <? 2048)%N
  then [192 + cp / 64; 128 + cp mod 64]%N
  else if (cp <? 65536)%N
  then [224 + cp / 4096; 128 + (cp / 64) mod 64; 128 + cp mod 64]%N
  else [240 + cp / 262144; 128 + (cp / 4096) mod 64;
        128 + (cp / 64) mod 64; 128 + cp mod 64]%N.

Fixpoint escapes (bytes : list N) : string :=
  match bytes with
  | [] => EmptyString
  | b :: bytes' => percent (N.to_nat b) +:+ escapes bytes'
  end.

Definition encode_code_point (cp : N) : string :=
  if (cp <? 128)%N && uri_unreserved (ascii_of_N cp)
  then String (ascii_of_N cp) EmptyString
  else escapes (utf8 cp).

Fixpoint encodeURIComponent_utf16 (units : list N) : option string :=
  match units with
  | [] => Some EmptyString
  | u :: rest =>
      if is_low_surrogate u then None
      else if is_high_surrogate u
      then match rest with
           | v :: rest' =>
               if is_low_surrogate v
               then match encodeURIComponent_utf16 rest' with
                    | Some s => Some (encode_code_point (pair_code_point u v) +:+ s)
                    | None => None
                    end
               else None
           | [] => None
           end
      else match encodeURIComponent_utf16 rest with
           | Some s => Some (encode_code_point u +:+ s)
           | None => None
           end
  end.

(** The code units of a string of the model. *)
Fixpoint code_units (s : string) : list N :=
  match s with
  | String c s' => N_of_ascii c :: code_units s'
  | EmptyString => []
  end.

End JS.

(* ===================================================================== *)
(** * Exceptions                                                          *)
(* ===================================================================== *)

(** A JavaScript [Error] value: [error.name] and [error.message]. *)
Record js_error := JsError { err_name : string; err_message : string }.

(** [new Error(msg)]. *)
Definition Error (msg : string) : js_error := JsError "Error" msg.

(** Outcome of running a piece of code: a value, a thrown exception, or
    [OutOfFuel] when a [while (true)] loop was cut off by its iteration
    bound (shown below never to happen). *)
Inductive result (A : Type) : Type :=
| Ok (a : A)
| Throw (e : js_error)
| OutOfFuel.
Arguments Ok {A} a.
Arguments Throw {A} e.
Arguments OutOfFuel {A}.

(* ===================================================================== *)
(** * Data: turns, conversations, requests                                *)
(* ===================================================================== *)

(** [sender: 'user' | 'ai']. *)
Inductive author := from_user | from_ai.

Global Instance author_eq_dec : EqDecision author.
Proof. solve_decision. Defined.

(** A document of the collection ["messages"], with the fields the
    application writes.  Fields a writer leaves out are [None] (or [false]
    for the flags, which are only tested for truthiness). *)
Record message_doc := {
  sender : author;
  text : string;
  createdAt : nat;
  chatId : string;
  userId : option string;
  userName : option string;
  hasImage : bool;
  imageData : option string;
  imageUrl : option string;
  isError : bool;
}.

(** An element of the React state [messages]: either a persisted turn
    [{ id: doc.id, ...doc.data() }] or an object literal built by the client
    ([{ sender, text, isWelcome: true }] and [{ sender: 'user', text }]). *)
Inductive message :=
| Stored (id : string) (d : message_doc)
| Literal (s : author) (t : string) (welcome : bool).

Definition msg_sender (m : message) : author :=
  match m with Stored _ d => sender d | Literal s _ _ => s end.
Definition msg_text (m : message) : string :=
  match m with Stored _ d => text d | Literal _ t _ => t end.
Definition msg_hasImage (m : message) : bool :=
  match m with Stored _ d => hasImage d | Literal _ _ _ => false end.
Definition msg_isWelcome (m : message) : bool :=
  match m with Stored _ _ => false | Literal _ _ w => w end.

(** A document of the collection ["chats"].  [title] is optional because the
    sidebar reads it with [chat.title?.]; [lastSender] is [None] for the empty
    string written by [createNewChat]. *)
Record chat_doc := {
  owner : string;                 (* the field userId *)
  title : option string;
  chat_createdAt : nat;           (* the field createdAt *)
  updatedAt : nat;
  lastMessage : string;
  lastSender : option author;
  pinned : bool;
  category : string;
}.

(** An element of the sidebar state [chats]: [{ id: doc.id, ...doc.data() }]. *)
Record chat := { chat_id : string; chat_data : chat_doc }.

(** The object given to [updateDoc]: the fields present in the patch.  Every
    patch of the application also carries [updatedAt: serverTimestamp()]. *)
Record chat_patch := {
  p_title : option string;
  p_lastMessage : option string;
  p_lastSender : option author;
  p_pinned : option bool;
  p_category : option string;
}.

Definition apply_patch (stamp : nat) (p : chat_patch) (c : chat_doc) : chat_doc :=
  {| owner := owner c;
     title := match p_title p with Some t => Some t | None => title c end;
     chat_createdAt := chat_createdAt c;
     updatedAt := stamp;
     lastMessage := default (lastMessage c) (p_lastMessage p);
     lastSender := match p_lastSender p with Some s => Some s | None => lastSender c end;
     pinned := default (pinned c) (p_pinned p);
     category := default (category c) (p_category p) |}.

(** Body of a completion request. *)
Inductive part :=
| TextPart (t : string)
| InlineData (mime_type : string) (data : option string).

Record content := { role : option string; parts : list part }.

Record payload := { contents : list content; systemInstruction : string }.

(** The body of a response, as its readers see it.  [Unreadable e]: the
    body cannot be read, and both [response.text()] and [response.json()]
    reject with [e].  Otherwise [response.text()] resolves, and
    [response.json()] either throws ([BadBody e]: a body that is not the
    expected JSON object) or yields an object whose
    [candidates?.[0]?.content?.parts?.[0]?.text] is the given optional
    string. *)
Inductive body :=
| BadBody (e : js_error)
| Candidates (first_text : option string)
| Unreadable (e : js_error).

Record response := { status : nat; resp_body : body }.

(** [response.ok]: a status in the range 200-299. *)
Definition ok (r : response) : bool := (200 <=? status r) && (status r <=? 299).

(** Outcome of one [fetch]: the promise rejects (transport failure) or
    resolves to a response. *)
Inductive fetch_outcome :=
| Rejected (e : js_error)
| Resolved (r : response).

(** Requests sent to the document store. *)
Inductive request :=
| AddMessage (d : message_doc)
| AddChat (d : chat_doc)
| UpdateChat (id : string) (p : chat_patch)
| DeleteChat (id : string)
| QueryMessages (chat : string) (lim : nat)
| DeleteMessages (ids : list string)      (* one write batch *)
| DeleteChats (ids : list string).        (* one write batch *)

(** Calls into the environment, in the order they are issued.  A store
    request is logged with its success. *)
Inductive event :=
| Store (r : request) (succeeded : bool)
| Fetch (url : string) (p : payload)
| Sleep (ms : nat)
| Confirm (question : string) (answer : bool)
| Speak (t : string)
| OnNewChat.

(** The environment: the answer to the [n]-th store request (an error when it
    fails), to the [n]-th [fetch], and to a [window.confirm] question. *)
Record environment := {
  store_failure : nat -> option js_error;
  fetch_reply : nat -> fetch_outcome;
  confirm_answer : string -> bool;
}.

(** The authenticated user handed to both components ([user?.uid],
    [user?.name]). *)
Record user_info := { uid : option string; name : option string }.

(** The [useState] variables of the chat component that the handlers read or
    write. *)
Record app_state := {
  messages : list message;
  input : string;
  isLoading : bool;
  userMessageCount : nat;
  currentChatId : option string;
  selectedImage : option string;
  speechEnabled : bool;
}.

(** The [useState] variables of the sidebar. *)
Record sidebar_state := {
  chats : list chat;
  searchQuery : string;
  selectedCategory : string;
  isClearing : bool;
}.

(** One line of the store's journal: a request, whether it succeeded, and the
    content of the collection ["messages"] when it was served. *)
Record journal_entry := {
  j_request : request;
  j_succeeded : bool;
  j_messages : gmap string message_doc;
}.

(** The world: the two collections, the server clock behind
    [serverTimestamp()], the number of store requests and fetches made so far,
    the trace of calls, the journal of the store (a history variable: no code
    reads it), and the React state of the two components. *)
Record world := {
  db_messages : gmap string message_doc;
  db_chats : gmap string chat_doc;
  now : nat;
  store_calls : nat;
  fetch_calls : nat;
  trace : list event;
  journal : list journal_entry;
  app : app_state;
  sidebar : sidebar_state;
}.

(* ===================================================================== *)
(** * The effect monad                                                    *)
(* ===================================================================== *)

Definition M (A : Type) : Type := world -> result A * world.

Definition ret {A} (a : A) : M A := fun w => (Ok a, w).

Definition throw {A} (e : js_error) : M A := fun w => (Throw e, w).

Definition bind {A B} (m : M A) (k : A -> M B) : M B :=
  fun w => match m w with
           | (Ok a, w') => k a w'
           | (Throw e, w') => (Throw e, w')
           | (OutOfFuel, w') => (OutOfFuel, w')
           end.

(** [try { m } catch (e) { h e }]. *)
Definition try_catch {A} (m : M A) (h : js_error -> M A) : M A :=
  fun w => match m w with
           | (Throw e, w') => h e w'
           | other => other
           end.

(** [try { m } finally { f }], for a [finally] block that cannot throw. *)
Definition finally {A} (m : M A) (f : world -> world) : M A :=
  fun w => let '(r, w') := m w in (r, f w').

Declare Scope js_scope.
Delimit Scope js_scope with js.
Notation "x <- m ;; k" := (bind m (fun x => k))
  (at level 100, m at next level, right associativity) : js_scope.
Notation "m ;;; k" := (bind m (fun _ => k))
  (at level 100, right associativity) : js_scope.

(** Field updates of the world. *)
Definition with_db_messages (f : gmap string message_doc -> gmap string message_doc)
  (w : world) : world :=
  {| db_messages := f (db_messages w); db_chats := db_chats w; now := now w;
     store_calls := store_calls w; fetch_calls := fetch_calls w;
     trace := trace w; journal := journal w; app := app w;
     sidebar := sidebar w |}.

Definition with_db_chats (f : gmap string chat_doc -> gmap string chat_doc)
  (w : world) : world :=
  {| db_messages := db_messages w; db_chats := f (db_chats w); now := now w;
     store_calls := store_calls w; fetch_calls := fetch_calls w;
     trace := trace w; journal := journal w; app := app w;
     sidebar := sidebar w |}.

Definition tick (w : world) : world :=
  {| db_messages := db_messages w; db_chats := db_chats w; now := S (now w);
     store_calls := store_calls w; fetch_calls := fetch_calls w;
     trace := trace w; journal := journal w; app := app w;
     sidebar := sidebar w |}.

Definition count_store_call (w : world) : world :=
  {| db_messages := db_messages w; db_chats := db_chats w; now := now w;
     store_calls := S (store_calls w); fetch_calls := fetch_calls w;
     trace := trace w; journal := journal w; app := app w;
     sidebar := sidebar w |}.

Definition count_fetch (w : world) : world :=
  {| db_messages := db_messages w; db_chats := db_chats w; now := now w;
     store_calls := store_calls w; fetch_calls := S (fetch_calls w);
     trace := trace w; journal := journal w; app := app w;
     sidebar := sidebar w |}.

Definition log_journal (r : request) (succeeded : bool)
  (served : gmap string message_doc) (w : world) : world :=
  {| db_messages := db_messages w; db_chats := db_chats w; now := now w;
     store_calls := store_calls w; fetch_calls := fetch_calls w;
     trace := trace w;
     journal := journal w ++ [ {| j_request := r; j_succeeded := succeeded;
                                  j_messages := served |} ];
     app := app w; sidebar := sidebar w |}.

Definition log_event (e : event) (w : world) : world :=
  {| db_messages := db_messages w; db_chats := db_chats w; now := now w;
     store_calls := store_calls w; fetch_calls := fetch_calls w;
     trace := trace w ++ [e]; journal := journal w; app := app w;
     sidebar := sidebar w |}.

Definition with_app (f : app_state -> app_state) (w : world) : world :=
  {| db_messages := db_messages w; db_chats := db_chats w; now := now w;
     store_calls := store_calls w; fetch_calls := fetch_calls w;
     trace := trace w; journal := journal w; app := f (app w);
     sidebar := sidebar w |}.

Definition with_sidebar (f : sidebar_state -> sidebar_state) (w : world) : world :=
  {| db_messages := db_messages w; db_chats := db_chats w; now := now w;
     store_calls := store_calls w; fetch_calls := fetch_calls w;
     trace := trace w; journal := journal w; app := app w;
     sidebar := f (sidebar w) |}.

(** An effect that cannot fail. *)
Definition effect (f : world -> world) : M unit := fun w => (Ok tt, f w).

Definition emit (e : event) : M unit := effect (log_event e).

(** [await new Promise(resolve => setTimeout(resolve, ms))]. *)
Definition sleep (ms : nat) : M unit := emit (Sleep ms).

(** [window.confirm(question)]. *)
Definition confirm (env : environment) (question : string) : M bool :=
  fun w => let a := confirm_answer env question in
           (Ok a, log_event (Confirm question a) w).

(** [await fetch(url, { method: 'POST', ..., body: JSON.stringify(p) })]:
    the next reply of the environment. *)
Definition fetch (env : environment) (url : string) (p : payload) : M response :=
  fun w =>
    let w' := count_fetch (log_event (Fetch url p) w) in
    match fetch_reply env (fetch_calls w) with
    | Rejected e => (Throw e, w')
    | Resolved r => (Ok r, w')
    end.

(* ===================================================================== *)
(** * The document store (Firestore client calls)                         *)
(* ===================================================================== *)

Module Firestore.

(** Book-keeping of a served request: the trace, the journal (with the
    messages held when the request arrived) and the call counter. *)
Definition served (r : request) (succeeded : bool)
  (before : gmap string message_doc) (w : world) : world :=
  count_store_call (log_journal r succeeded before (log_event (Store r succeeded) w)).

(** One request to the store: it fails with the error the environment
    gives for this call and changes nothing, or it runs [commit]. *)
Definition call {A} (env : environment) (r : request)
  (commit : world -> result A * world) : M A :=
  fun w =>
    match store_failure env (store_calls w) with
    | Some e => (Throw e, served r false (db_messages w) w)
    | None => match commit w with
              | (Ok a, w') => (Ok a, served r true (db_messages w) w')
              | (other, w') => (other, served r false (db_messages w) w')
              end
    end.

(** [addDoc(collection(db, "messages"), data)], where [data] still waits for
    its [serverTimestamp()]: the document gets a fresh id and the server
    time; the id is returned. *)
Definition addMessage (env : environment) (data : nat -> message_doc) : M string :=
  fun w =>
    let d := data (now w) in
    call env (AddMessage d)
      (fun w => let id := fresh (dom (db_messages w)) in
                (Ok id, tick (with_db_messages (insert id d) w))) w.

(** [addDoc(collection(db, "chats"), data)]. *)
Definition addChat (env : environment) (data : nat -> chat_doc) : M string :=
  fun w =>
    let d := data (now w) in
    call env (AddChat d)
      (fun w => let id := fresh (dom (db_chats w)) in
                (Ok id, tick (with_db_chats (insert id d) w))) w.

(** The error of [updateDoc] on a document that does not exist. *)
Definition not_found : js_error :=
  JsError "FirebaseError" "No document to update".

(** [updateDoc(doc(db, "chats", id), { ...patch, updatedAt: serverTimestamp() })]. *)
Definition updateChat (env : environment) (id : string) (p : chat_patch) : M unit :=
  call env (UpdateChat id p)
    (fun w => match db_chats w !! id with
              | Some c => (Ok tt, tick (with_db_chats (insert id (apply_patch (now w) p c)) w))
              | None => (Throw not_found, w)
              end).

(** [deleteDoc(doc(db, "chats", id))]. *)
Definition deleteChat (env : environment) (id : string) : M unit :=
  call env (DeleteChat id)
    (fun w => (Ok tt, with_db_chats (delete id) w)).

(** The turns of a conversation, as [(id, data)] pairs in the order of the
    store. *)
Definition messages_of (chat : string) (m : gmap string message_doc)
  : list (string * message_doc) :=
  map_to_list (filter (fun kv => chatId kv.2 = chat) m).

(** [getDocs(query(messagesCol, where('chatId', '==', chat), limit(lim)))]:
    the documents of the snapshot. *)
Definition queryMessages (env : environment) (chat : string) (lim : nat)
  : M (list (string * message_doc)) :=
  call env (QueryMessages chat lim)
    (fun w => (Ok (take lim (messages_of chat (db_messages w))), w)).

(** [batch.commit()] for a batch of [batch.delete(doc(db, 'messages', id))]. *)
Definition commitDeleteMessages (env : environment) (ids : list string) : M unit :=
  call env (DeleteMessages ids)
    (fun w => (Ok tt, with_db_messages (fun m => foldr delete m ids) w)).

(** [batch.commit()] for a batch of [batch.delete(doc(db, 'chats', id))]. *)
Definition commitDeleteChats (env : environment) (ids : list string) : M unit :=
  call env (DeleteChats ids)
    (fun w => (Ok tt, with_db_chats (fun m => foldr delete m ids) w)).

End Firestore.

(* ===================================================================== *)
(** * AIChat.jsx: configuration and pure helpers                          *)
(* ===================================================================== *)

Module AIChat.

Open Scope js_scope.

(** [import.meta.env.VITE_API_BASE_URL || 'http://localhost:3001/api'] is fixed
    at build time; the model takes the default. *)
Definition API_BASE_URL : string := "http://localhost:3001/api".
Definition API_URL : string := API_BASE_URL +:+ "/chat".
Definition VISION_API_URL : string := API_BASE_URL +:+ "/vision".
Definition SYSTEM_INSTRUCTION : string :=
  "You are a helpful and friendly AI chat assistant. Keep your responses concise and engaging, and always answer truthfully and ethically. Respond using markdown. If the user asks you to generate, create, or draw an image, respond with '[IMAGE_REQUEST: description]' where description is a detailed prompt for the image they want.".

Definition generateImageURL (prompt : string) : string :=
  let encodedPrompt := JS.encodeURIComponent prompt in
  "https://image.pollinations.ai/prompt/" +:+ encodedPrompt
    +:+ "?width=512&height=512&nologo=true".

(** [generateImageURL] on any sequence of code units: [None] when
    [encodeURIComponent] throws [URIError]. *)
Definition generateImageURL_utf16 (prompt : list N) : option string :=
  match JS.encodeURIComponent_utf16 prompt with
  | Some encodedPrompt =>
      Some ("https://image.pollinations.ai/prompt/" +:+ encodedPrompt
              +:+ "?width=512&height=512&nologo=true")
  | None => None
  end.

Definition formatHistoryForAPI (currentMessages : list message) : list content :=
  map (fun msg =>
         {| role := Some (match msg_sender msg with
                          | from_user => "user"
                          | from_ai => "model"
                          end);
            parts := [TextPart (msg_text msg)] |})
      currentMessages.

(** ** [fetchWithRetries] *)

(** [await response.text()]: the text of the body, which the caller only
    logs; the promise rejects when the body cannot be read. *)
Definition responseBodyText (response : response) : M unit :=
  match resp_body response with
  | Unreadable e => throw e
  | BadBody _ | Candidates _ => ret tt
  end.

(** The body of the [try] block of one iteration. *)
Definition attempt (env : environment) (url : string) (options : payload)
  : M response :=
  response <- fetch env url options ;;
  if ok response then ret response
  else if status response <? 500
       then responseBodyText response ;;;
            throw (Error ("Client Error: " +:+ pretty (status response)))
       else throw (Error ("Server Error: " +:+ pretty (status response))).

(** The [catch] block of iteration [i]: wait and fall out of the [try]
    statement, or re-throw. *)
Definition on_failure (retries i : nat) (error : js_error) : M (option response) :=
  if i <? retries - 1
  then (let delay := 2 ^ i * 1000 in
        sleep delay ;;; ret None)
  else throw error.

(** The [for] loop from iteration [i] with [k] iterations left
    ([k = retries - i]).  [Some response] is the [return response] inside the
    loop; [None] at the end is the function falling off its last line
    (it returns [undefined]). *)
Fixpoint fetch_loop (env : environment) (url : string) (options : payload)
  (retries i k : nat) : M (option response) :=
  match k with
  | 0 => ret None
  | S k' =>
      r <- try_catch
             (response <- attempt env url options ;; ret (Some response))
             (on_failure retries i) ;;
      match r with
      | Some response => ret (Some response)
      | None => fetch_loop env url options retries (S i) k'
      end
  end.

Definition fetchWithRetries (env : environment) (url : string)
  (options : payload) (retries : nat) : M (option response) :=
  fetch_loop env url options retries 0 retries.

(** The default [retries = 3]. *)
Definition default_retries : nat := 3.

(** ** The image directive, [/\[IMAGE_REQUEST:\s*(.+?)\]/]

    The matcher follows the backtracking order of the regular expression:
    leftmost start first, then the greedy [\s*] from its longest run down to
    none, then the lazy [(.+?)] from one character upwards. *)

Definition IMAGE_REQUEST : string := "[IMAGE_REQUEST:".

Definition is_close_bracket (c : ascii) : bool := Ascii.eqb c "]"%char.

(** The rest of [(.+?)\]] once the group holds one character: the group
    grows over characters other than line terminators until the first [\]]. *)
Fixpoint lazy_rest (s : string) : option (string * string) :=
  match s with
  | EmptyString => None
  | String c s' =>
      if is_close_bracket c then Some (EmptyString, s')
      else if JS.is_line_terminator c then None
      else match lazy_rest s' with
           | Some (g, after) => Some (String c g, after)
           | None => None
           end
  end.

(** [(.+?)\]] at the head of [s]: group 1 and the text after the match. *)
Definition lazy_group (s : string) : option (string * string) :=
  match s with
  | EmptyString => None
  | String c s' =>
      if JS.is_line_terminator c then None
      else match lazy_rest s' with
           | Some (g, after) => Some (String c g, after)
           | None => None
           end
  end.

(** [\s*(.+?)\]] at the head of [s]: the greedy [\s*] first tries to take
    the next white space, and gives it back when the rest then fails. *)
Fixpoint spaces_then_group (s : string) : option (string * string) :=
  match s with
  | EmptyString => lazy_group s
  | String c s' =>
      if JS.is_space c
      then match spaces_then_group s' with
           | Some m => Some m
           | None => lazy_group s
           end
      else lazy_group s
  end.

(** The whole expression anchored at the head of [s]. *)
Definition match_here (s : string) : option (string * string) :=
  if JS.startsWith IMAGE_REQUEST s
  then spaces_then_group (JS.substring_from (String.length IMAGE_REQUEST) s)
  else None.

(** [s.match(/\[IMAGE_REQUEST:\s*(.+?)\]/)]: the text before the first
    match, group 1, and the text after the match. *)
Fixpoint match_image_request (s : string) : option (string * string * string) :=
  match match_here s with
  | Some (g, after) => Some (EmptyString, g, after)
  | None =>
      match s with
      | EmptyString => None
      | String c s' =>
          match match_image_request s' with
          | Some (before, g, after) => Some (String c before, g, after)
          | None => None
          end
      end
  end.

(** The double quote character (code 34). *)
Definition double_quote : string := String (ascii_of_nat 34) EmptyString.

(** Lines 388-406 of [handleSendMessage]: the response text and the image
    URL after the image directive has been looked for.  [replace] with the
    same expression and no [g] flag removes the first match only. *)
Definition extractImageRequest (aiText : string) : string * option string :=
  match match_image_request aiText with
  | Some (before, g, after) =>
      let imagePrompt := JS.trim g in
      let generatedImageUrl := generateImageURL imagePrompt in
      let aiText := JS.trim (before +:+ after) in
      (if JS.truthy aiText then aiText
       else "Here's the image you requested: " +:+ double_quote
              +:+ imagePrompt +:+ double_quote,
       Some generatedImageUrl)
  | None => (aiText, None)
  end.

(** ** React state *)

Definition setInput (v : string) : M unit :=
  effect (with_app (fun s =>
    {| messages := messages s; input := v; isLoading := isLoading s;
       userMessageCount := userMessageCount s;
       currentChatId := currentChatId s; selectedImage := selectedImage s;
       speechEnabled := speechEnabled s |})).

Definition setIsLoading_state (v : bool) (s : app_state) : app_state :=
  {| messages := messages s; input := input s; isLoading := v;
     userMessageCount := userMessageCount s;
     currentChatId := currentChatId s; selectedImage := selectedImage s;
     speechEnabled := speechEnabled s |}.

Definition setIsLoading (v : bool) : M unit :=
  effect (with_app (setIsLoading_state v)).

Definition setUserMessageCount (f : nat -> nat) : M unit :=
  effect (with_app (fun s =>
    {| messages := messages s; input := input s; isLoading := isLoading s;
       userMessageCount := f (userMessageCount s);
       currentChatId := currentChatId s; selectedImage := selectedImage s;
       speechEnabled := speechEnabled s |})).

Definition setCurrentChatId (v : option string) : M unit :=
  effect (with_app (fun s =>
    {| messages := messages s; input := input s; isLoading := isLoading s;
       userMessageCount := userMessageCount s;
       currentChatId := v; selectedImage := selectedImage s;
       speechEnabled := speechEnabled s |})).

Definition setMessages_state (v : list message) (s : app_state) : app_state :=
  {| messages := v; input := input s; isLoading := isLoading s;
     userMessageCount := userMessageCount s;
     currentChatId := currentChatId s; selectedImage := selectedImage s;
     speechEnabled := speechEnabled s |}.

Definition setMessages (v : list message) : M unit :=
  effect (with_app (setMessages_state v)).

Definition setSelectedImage (v : option string) : M unit :=
  effect (with_app (fun s =>
    {| messages := messages s; input := input s; isLoading := isLoading s;
       userMessageCount := userMessageCount s;
       currentChatId := currentChatId s; selectedImage := v;
       speechEnabled := speechEnabled s |})).

(** Truthiness of a value that is [null] or a string. *)
Definition truthy_opt (o : option string) : bool :=
  match o with Some s => JS.truthy s | None => false end.

(** [o || d] for such a value. *)
Definition opt_or (o : option string) (d : string) : string :=
  match o with Some s => JS.or_else s d | None => d end.

(** ** [createNewChat] *)

Definition createNewChat (env : environment) (user : user_info)
  : M (option string) :=
  try_catch
    (chatRef <- Firestore.addChat env (fun stamp =>
       {| owner := opt_or (uid user) EmptyString;
          title := Some "New Chat";
          chat_createdAt := stamp;
          updatedAt := stamp;
          lastMessage := EmptyString;
          lastSender := None;
          pinned := false;
          category := "personal" |}) ;;
     setCurrentChatId (Some chatRef) ;;;
     setMessages [] ;;;
     ret (Some chatRef))
    (fun error => ret None).

(** ** The message subscription ([onSnapshot] of the current chat) *)

Definition welcome (user : user_info) : message :=
  Literal from_ai
    ("Hello " +:+ opt_or (name user) "there"
       +:+ "! I'm your AI assistant. Ask me anything!")
    true.

Definition by_createdAt (a b : string * message_doc) : Prop :=
  createdAt a.2 <= createdAt b.2.

Global Instance by_createdAt_dec a b : Decision (by_createdAt a b).
Proof. unfold by_createdAt. apply _. Defined.

(** The array handed to [setMessages] by the snapshot callback: the turns
    of the chat ordered by [createdAt], or the welcome turn alone when there
    is none. *)
Definition snapshot_messages (user : user_info) (chat : string)
  (db : gmap string message_doc) : list message :=
  let msgs := map (fun kv => Stored kv.1 kv.2)
                  (merge_sort by_createdAt (Firestore.messages_of chat db)) in
  if decide (length msgs = 0) then [welcome user] else msgs.

(** Delivery of the current snapshot to the component. *)
Definition deliver_snapshot (user : user_info) (w : world) : world :=
  match currentChatId (app w) with
  | Some chat =>
      if JS.truthy chat
      then with_app (setMessages_state
                       (snapshot_messages user chat (db_messages w))) w
      else w
  | None => w
  end.

(** ** [handleSendMessage] *)

(** [trimmedInput.length > 40 ? trimmedInput.substring(0, 40) + '...'
                              : trimmedInput || 'Image chat']. *)
Definition chatTitle (trimmedInput : string) : string :=
  if 40 <? String.length trimmedInput
  then JS.substring_to 40 trimmedInput +:+ "..."
  else JS.or_else trimmedInput "Image chat".

(** Step 1, the first [try] block: the user turn and the chat metadata. *)
Definition saveUserMessage (env : environment) (user : user_info)
  (st : app_state) (chat trimmedInput : string) : M unit :=
  let messageData stamp :=
    {| sender := from_user;
       text := JS.or_else trimmedInput "[Image]";
       createdAt := stamp;
       chatId := chat;
       userId := Some (opt_or (uid user) EmptyString);
       userName := Some (opt_or (name user) EmptyString);
       hasImage := truthy_opt (selectedImage st);
       imageData := if truthy_opt (selectedImage st) then selectedImage st else None;
       imageUrl := None;
       isError := false |} in
  userMessageRef <- Firestore.addMessage env messageData ;;
  let nonWelcomeMessages :=
    List.filter (fun m => negb (msg_isWelcome m)) (messages st) in
  if decide (length nonWelcomeMessages = 0)
  then Firestore.updateChat env chat
         {| p_title := Some (chatTitle trimmedInput);
            p_lastMessage := Some (JS.or_else trimmedInput "[Image]");
            p_lastSender := Some from_user;
            p_pinned := None; p_category := None |}
  else Firestore.updateChat env chat
         {| p_title := None;
            p_lastMessage := Some (JS.or_else trimmedInput "[Image]");
            p_lastSender := Some from_user;
            p_pinned := None; p_category := None |}.

(** [selectedImage.split(',')[1]]: the second comma-separated field, when
    there is one. *)
Fixpoint upto_comma (s : string) : string :=
  match s with
  | EmptyString => EmptyString
  | String c s' => if Ascii.eqb c ","%char then EmptyString else String c (upto_comma s')
  end.

Fixpoint split_comma_1 (s : string) : option string :=
  match s with
  | EmptyString => None
  | String c s' => if Ascii.eqb c ","%char then Some (upto_comma s') else split_comma_1 s'
  end.

Definition handleRemoveImage : M unit := setSelectedImage None.

(** The request body for the vision endpoint: one text part and one image
    part. *)
Definition visionPayload (image trimmedInput : string) : payload :=
  let base64Image := split_comma_1 image in
  {| contents :=
       [ {| role := None;
            parts := [ TextPart (JS.or_else trimmedInput "What's in this image?");
                       InlineData "image/jpeg" base64Image ] |} ];
     systemInstruction := SYSTEM_INSTRUCTION |}.

(** The request body for the text endpoint: the turns of the view without
    image, followed by the new user text. *)
Definition textPayload (st : app_state) (trimmedInput : string) : payload :=
  let chatHistory :=
    formatHistoryForAPI
      (List.filter (fun m => negb (msg_hasImage m)) (messages st)
       ++ [Literal from_user trimmedInput false]) in
  {| contents := chatHistory; systemInstruction := SYSTEM_INSTRUCTION |}.

(** Step 2: the endpoint and the request body. *)
Definition preparePayload (st : app_state) (trimmedInput : string)
  : M (string * payload) :=
  if truthy_opt (selectedImage st)
  then
    let payload := visionPayload (default EmptyString (selectedImage st))
                                 trimmedInput in
    handleRemoveImage ;;;
    ret (VISION_API_URL, payload)
  else
    ret (API_URL, textPayload st trimmedInput).

(** Reading a property of [undefined]. *)
Definition type_error : js_error :=
  JsError "TypeError" "Cannot read properties of undefined".

(** [await response.json()] followed by the extraction of the first
    candidate's text (step 4, first half). *)
Definition responseText (response : option response) : M string :=
  match response with
  | None => throw type_error
  | Some r =>
      match resp_body r with
      | Unreadable e | BadBody e => throw e
      | Candidates (Some t) =>
          ret (if JS.truthy t then t else "I'm sorry, I couldn't generate a response.")
      | Candidates None => ret "I'm sorry, I couldn't generate a response."
      end
  end.

(** Steps 2 to 6, the second [try] block. *)
Definition completeTurn (env : environment) (st : app_state)
  (chat trimmedInput : string) : M unit :=
  request <- preparePayload st trimmedInput ;;
  let '(apiUrl, payload) := request in
  response <- fetchWithRetries env apiUrl payload default_retries ;;
  aiText <- responseText response ;;
  let '(aiText, generatedImageUrl) := extractImageRequest aiText in
  let aiMessageData stamp :=
    {| sender := from_ai;
       text := aiText;
       createdAt := stamp;
       chatId := chat;
       userId := None;
       userName := None;
       hasImage := truthy_opt generatedImageUrl;
       imageData := None;
       imageUrl := if truthy_opt generatedImageUrl then generatedImageUrl else None;
       isError := false |} in
  aiMessageRef <- Firestore.addMessage env aiMessageData ;;
  Firestore.updateChat env chat
    {| p_title := None;
       p_lastMessage := Some (if truthy_opt generatedImageUrl
                              then aiText +:+ " [Image]" else aiText);
       p_lastSender := Some from_ai;
       p_pinned := None; p_category := None |} ;;;
  if speechEnabled st then emit (Speak aiText) else ret tt.

(** The [catch] block of the second [try]: the error turn and the chat
    metadata, inside a [try] of their own whose [catch] only logs. *)
Definition saveErrorMessage (env : environment) (chat : string)
  (error : js_error) : M unit :=
  try_catch
    (errorMessageRef <- Firestore.addMessage env (fun stamp =>
       {| sender := from_ai;
          text := "I encountered an error: " +:+ err_message error
                    +:+ ". Please try again or check your connection.";
          createdAt := stamp;
          chatId := chat;
          userId := None;
          userName := None;
          hasImage := false;
          imageData := None;
          imageUrl := None;
          isError := true |}) ;;
     Firestore.updateChat env chat
       {| p_title := None;
          p_lastMessage := Some "Error occurred";
          p_lastSender := Some from_ai;
          p_pinned := None; p_category := None |})
    (fun saveError => ret tt).

(** The handler, run with the state [st] captured by the render that
    created it. *)
Definition handleSendMessage (env : environment) (user : user_info)
  (st : app_state) : M unit :=
  let trimmedInput := JS.trim (input st) in
  if (negb (JS.truthy trimmedInput) && negb (truthy_opt (selectedImage st)))
     || isLoading st
  then ret tt
  else
    setInput EmptyString ;;;
    setIsLoading true ;;;
    setUserMessageCount S ;;;
    if negb (truthy_opt (currentChatId st))
    then
      newChatId <- createNewChat env user ;;
      if negb (truthy_opt newChatId)
      then setIsLoading false
      else setInput trimmedInput ;;; setIsLoading false
    else
      let chat := default EmptyString (currentChatId st) in
      saved <- try_catch
                 (saveUserMessage env user st chat trimmedInput ;;; ret true)
                 (fun error => setIsLoading false ;;; ret false) ;;
      if negb saved then ret tt
      else
        finally
          (try_catch (completeTurn env st chat trimmedInput)
                     (saveErrorMessage env chat))
          (with_app (setIsLoading_state false)).

(** A submit event: the handler of the current render runs on the current
    state. *)
Definition submit (env : environment) (user : user_info) : M unit :=
  fun w => handleSendMessage env user (app w) w.

End AIChat.

(* ===================================================================== *)
(** * ChatHistory.jsx                                                     *)
(* ===================================================================== *)

Module ChatHistory.

Open Scope js_scope.

(** [Array.prototype.sort(cmp)].  The sort is stable, and for a consistent
    comparator every stable sort returns the same array; it is written
    here as an insertion sort.  [cmp a b] is negative, zero or positive. *)
Fixpoint sort_insert {A} (cmp : A -> A -> Z) (x : A) (l : list A) : list A :=
  match l with
  | [] => [x]
  | y :: l' => if (0 <? cmp x y)%Z then y :: sort_insert cmp x l'
               else x :: y :: l'
  end.

Fixpoint sort {A} (cmp : A -> A -> Z) (l : list A) : list A :=
  match l with
  | [] => []
  | x :: l' => sort_insert cmp x (sort cmp l')
  end.

(** The page size of the message deletion and the largest write batch. *)
Definition batchSize : nat := 200.
Definition maxBatchSize : nat := 500.

(** The [while (true)] loop that deletes the turns of [chatId] page by
    page, cut off after [fuel] iterations. *)
Fixpoint deleteMessagesLoop (fuel : nat) (env : environment) (chatId : string)
  : M unit :=
  match fuel with
  | 0 => fun w => (OutOfFuel, w)
  | S fuel' =>
      snapshot <- Firestore.queryMessages env chatId batchSize ;;
      if decide (length snapshot = 0) then ret tt
      else
        Firestore.commitDeleteMessages env (map fst snapshot) ;;;
        if length snapshot <? batchSize then ret tt
        else deleteMessagesLoop fuel' env chatId
  end.

(** The loop with an iteration bound taken from the store: every iteration
    that goes round again has deleted documents, so one iteration more
    than there are documents is never reached. *)
Definition deleteMessages (env : environment) (chatId : string) : M unit :=
  fun w => deleteMessagesLoop (S (size (db_messages w))) env chatId w.

(** The [try] block of [handleDeleteChat]: the turns, then the chat record,
    then [onNewChat()] when the chat was the current one. *)
Definition deleteChatBody (env : environment) (currentChatId : option string)
  (chatId : string) : M unit :=
  deleteMessages env chatId ;;;
  Firestore.deleteChat env chatId ;;;
  if decide (Some chatId = currentChatId) then emit OnNewChat else ret tt.

(** [handleDeleteChat(chatId, e)], with the prop [currentChatId]. *)
Definition handleDeleteChat (env : environment) (currentChatId : option string)
  (chatId : string) : M unit :=
  confirmed <- confirm env "Delete this chat? This cannot be undone." ;;
  if negb confirmed then ret tt
  else
    try_catch (deleteChatBody env currentChatId chatId)
              (fun error => ret tt).

Definition setIsClearing_state (v : bool) (s : sidebar_state) : sidebar_state :=
  {| chats := chats s; searchQuery := searchQuery s;
     selectedCategory := selectedCategory s; isClearing := v |}.

Definition setIsClearing (v : bool) : M unit :=
  effect (with_sidebar (setIsClearing_state v)).

(** [for (const chatId of chatIds)]: the messages of every chat. *)
Fixpoint deleteAllMessages (env : environment) (chatIds : list string) : M unit :=
  match chatIds with
  | [] => ret tt
  | chatId :: rest =>
      deleteMessages env chatId ;;; deleteAllMessages env rest
  end.

(** [for (let i = 0; i < chatIds.length; i += maxBatchSize)], from index [i]
    with at most [fuel] iterations. *)
Fixpoint deleteChatDocs (fuel : nat) (env : environment) (chatIds : list string)
  (i : nat) : M unit :=
  if i <? length chatIds then
    match fuel with
    | 0 => fun w => (OutOfFuel, w)
    | S fuel' =>
        let batchChatIds := take maxBatchSize (drop i chatIds) in
        Firestore.commitDeleteChats env batchChatIds ;;;
        deleteChatDocs fuel' env chatIds (i + maxBatchSize)
    end
  else ret tt.

Definition confirmMessage (n : nat) : string :=
  "Are you sure you want to delete ALL " +:+ pretty n +:+ " chat"
    +:+ (if decide (n = 1) then EmptyString else "s")
    +:+ "? This action cannot be undone and will permanently delete all messages.".

(** The [try] block of [handleClearAllChats] once the ids are taken: all the
    turns of all the chats, then the chat records, then [onNewChat()]. *)
Definition clearAllBody (env : environment) (chatIds : list string) : M unit :=
  deleteAllMessages env chatIds ;;;
  deleteChatDocs (length chatIds) env chatIds 0 ;;;
  emit OnNewChat.

(** [handleClearAllChats], run with the sidebar state [st] of the render
    that created it. *)
Definition handleClearAllChats (env : environment) (st : sidebar_state) : M unit :=
  if isClearing st then ret tt
  else
    first <- confirm env (confirmMessage (length (chats st))) ;;
    if negb first then ret tt
    else
      second <- confirm env "This is your last chance. Really delete ALL chats?" ;;
      if negb second then ret tt
      else
        setIsClearing true ;;;
        finally
          (try_catch
             (let chatIds := map chat_id (chats st) in
              clearAllBody env chatIds)
             (fun error => ret tt))
          (with_sidebar (setIsClearing_state false)).

(** [handlePinChat] and [handleSetCategory]. *)
Definition handlePinChat (env : environment) (st : sidebar_state)
  (chatId : string) : M unit :=
  try_catch
    (let chat := List.find (fun c => String.eqb (chat_id c) chatId) (chats st) in
     Firestore.updateChat env chatId
       {| p_title := None; p_lastMessage := None; p_lastSender := None;
          p_pinned := Some (negb (from_option (fun c => pinned (chat_data c)) false chat));
          p_category := None |})
    (fun error => ret tt).

Definition handleSetCategory (env : environment) (chatId category : string)
  : M unit :=
  try_catch
    (Firestore.updateChat env chatId
       {| p_title := None; p_lastMessage := None; p_lastSender := None;
          p_pinned := None; p_category := Some category |})
    (fun error => ret tt).

(** ** The derived view *)

Definition matchesSearch (searchQuery : string) (c : chat) : bool :=
  match title (chat_data c) with
  | Some t => JS.includes (JS.toLowerCase t) (JS.toLowerCase searchQuery)
  | None => false
  end.

Definition matchesCategory (selectedCategory : string) (c : chat) : bool :=
  String.eqb selectedCategory "all"
  || String.eqb (category (chat_data c)) selectedCategory.

Definition filteredChats (st : sidebar_state) : list chat :=
  List.filter (fun c => matchesSearch (searchQuery st) c
                        && matchesCategory (selectedCategory st) c)
              (chats st).

(** The comparator of [sortedChats]. *)
Definition pinnedFirst (a b : chat) : Z :=
  if pinned (chat_data a) && negb (pinned (chat_data b)) then (-1)%Z
  else if negb (pinned (chat_data a)) && pinned (chat_data b) then 1%Z
  else 0%Z.

Definition sortedChats (st : sidebar_state) : list chat :=
  sort pinnedFirst (filteredChats st).

End ChatHistory.

(* ===================================================================== *)
(** * AIChat.jsx: the other handlers of the chat component               *)
(* ===================================================================== *)

Module ChatActions.
Import AIChat.

Open Scope js_scope.

(** [handleSelectChat(chatId)]. *)
Definition handleSelectChat (chatId : string) : M unit :=
  setCurrentChatId (Some chatId) ;;;
  setMessages [].

(** [messages.filter(m => m.sender === 'user' && !m.isWelcome)]. *)
Definition userMessages (st : app_state) : list message :=
  List.filter (fun m => bool_decide (msg_sender m = from_user)
                        && negb (msg_isWelcome m))
              (messages st).

(** [regenerateResponse].  The result tells whether the timer that
    dispatches the [submit] event of the form has been armed. *)
Definition regenerateResponse (st : app_state) : M bool :=
  if isLoading st then ret false
  else
    match List.last (map Some (userMessages st)) None with
    | None => ret false
    | Some lastUserMessage =>
        setInput (msg_text lastUserMessage) ;;;
        ret true
    end.

(** [regenerateResponse] followed by the [submit] event of its timer, which
    runs the handler of the render that follows [setInput]. *)
Definition regenerateAndSubmit (env : environment) (user : user_info)
  (st : app_state) : M unit :=
  armed <- regenerateResponse st ;;
  if armed then submit env user else ret tt.





(** ** Keyboard shortcuts *)

(** The fields of a [keydown] event that the listener reads. *)
Record key_event := {
  ctrlKey : bool;
  metaKey : bool;
  shiftKey : bool;
  key : string;
}.

(** What the listener does, in the order of its statements. *)
Inductive key_action :=
| PreventDefault
| NewChat                 (* handleNewChat(), which calls createNewChat() *)
| ToggleHistory           (* setShowHistory(prev => !prev) *)
| ToggleDarkMode          (* setDarkMode(prev => !prev) *)
| ToggleSpeech            (* setSpeechEnabled(prev => !prev) *)
| CloseModals             (* setShowProfileModal(false); setShowShortcuts(false) *)
| ToggleShortcuts.        (* setShowShortcuts(prev => !prev) *)

Global Instance key_action_eq_dec : EqDecision key_action.
Proof. solve_decision. Defined.

(** [handleKeyDown(e)]: six [if] statements in a row. *)
Definition handleKeyDown (e : key_event) : list key_action :=
  (if (ctrlKey e || metaKey e) && String.eqb (key e) "k"
   then [PreventDefault; NewChat] else [])
  ++ (if (ctrlKey e || metaKey e) && String.eqb (key e) "/"
      then [PreventDefault; ToggleHistory] else [])
  ++ (if (ctrlKey e || metaKey e) && shiftKey e && String.eqb (key e) "D"
      then [PreventDefault; ToggleDarkMode] else [])
  ++ (if (ctrlKey e || metaKey e) && shiftKey e && String.eqb (key e) "S"
      then [PreventDefault; ToggleSpeech] else [])
  ++ (if String.eqb (key e) "Escape"
      then [CloseModals] else [])
  ++ (if shiftKey e && String.eqb (key e) "?"
      then [PreventDefault; ToggleShortcuts] else []).

(** ** The bold markup of a displayed turn,
       [text.replace(/\*\*(.*?)\*\*/g, '<strong>$1</strong>')] *)

(** [(.*?)\*\*] at the head of [s]: the lazy group grows over characters
    other than line terminators until the first [**]; the result is the
    group and the text after the match. *)
Fixpoint lazy_until_stars (s : string) : option (string * string) :=
  if JS.startsWith "**" s then Some (EmptyString, JS.substring_from 2 s)
  else
    match s with
    | EmptyString => None
    | String c s' =>
        if JS.is_line_terminator c then None
        else match lazy_until_stars s' with
             | Some (g, after) => Some (String c g, after)
             | None => None
             end
    end.

(** The whole expression anchored at the head of [s]. *)
Definition bold_here (s : string) : option (string * string) :=
  if JS.startsWith "**" s then lazy_until_stars (JS.substring_from 2 s)
  else None.

(** The global replacement: matches are taken from left to right, each
    search starting where the previous match ended.  [fuel] bounds the
    number of steps; the length of the text plus one is enough. *)
Fixpoint replaceBold (fuel : nat) (s : string) : string :=
  match fuel with
  | 0 => s
  | S fuel' =>
      match bold_here s with
      | Some (g, after) =>
          "<strong>" +:+ g +:+ "</strong>" +:+ replaceBold fuel' after
      | None =>
          match s with
          | EmptyString => EmptyString
          | String c s' => String c (replaceBold fuel' s')
          end
      end
  end.

(** The markup handed to [dangerouslySetInnerHTML]. *)
Definition messageContent (m : message) : string :=
  replaceBold (S (String.length (msg_text m))) (msg_text m).

End ChatActions.
(* ===================================================================== *)
(** * ChatHistory.jsx: the chat subscription and the display helpers     *)
(* ===================================================================== *)

Module Sidebar.
Import ChatHistory.

Open Scope js_scope.

(** The records of a user, as [(id, data)] pairs in the order of the
    store: [where("userId", "==", user.uid)]. *)
Definition chats_of (u : string) (m : gmap string chat_doc)
  : list (string * chat_doc) :=
  map_to_list (filter (fun kv => owner kv.2 = u) m).

(** [orderBy("updatedAt", "desc")]. *)
Definition by_updatedAt_desc (a b : string * chat_doc) : Prop :=
  updatedAt b.2 <= updatedAt a.2.

Global Instance by_updatedAt_desc_dec a b : Decision (by_updatedAt_desc a b).
Proof. unfold by_updatedAt_desc. apply _. Defined.

(** The array handed to [setChats]: nothing without [user?.uid], otherwise
    the snapshot of the query. *)
Definition snapshot_chats (user : user_info) (db : gmap string chat_doc)
  : list chat :=
  if AIChat.truthy_opt (uid user)
  then map (fun kv => {| chat_id := kv.1; chat_data := kv.2 |})
           (merge_sort by_updatedAt_desc
                       (chats_of (default EmptyString (uid user)) db))
  else [].

Definition setChats_state (v : list chat) (s : sidebar_state) : sidebar_state :=
  {| chats := v; searchQuery := searchQuery s;
     selectedCategory := selectedCategory s; isClearing := isClearing s |}.

(** Delivery of the current snapshot to the sidebar. *)
Definition deliver_chats (user : user_info) (w : world) : world :=
  with_sidebar (setChats_state (snapshot_chats user (db_chats w))) w.

(** [formatDate(timestamp)].  [nowMs] is [new Date()] and the timestamp is
    the time of the record, both in milliseconds; [toLocaleDateString] is
    the browser's rendering of a date. *)
Definition formatDate (nowMs : Z) (toLocaleDateString : Z -> string)
  (timestamp : option Z) : string :=
  match timestamp with
  | None => "Just now"
  | Some date =>
      let diff := (nowMs - date)%Z in
      if (diff <? 60000)%Z then "Just now"
      else if (diff <? 3600000)%Z then pretty (diff / 60000)%Z +:+ "m ago"
      else if (diff <? 86400000)%Z then pretty (diff / 3600000)%Z +:+ "h ago"
      else if (diff <? 604800000)%Z then pretty (diff / 86400000)%Z +:+ "d ago"
      else toLocaleDateString date
  end.

(** The preview of the last message in a sidebar entry:
    [lastMessage.length > 80 ? lastMessage.substring(0, 80) + '...'
                             : lastMessage]. *)
Definition previewText (lastMessage : string) : string :=
  if 80 <? String.length lastMessage
  then JS.substring_to 80 lastMessage +:+ "..."
  else lastMessage.

End Sidebar.
(* ===================================================================== *)
(** * Vocabulary of the specification                                     *)
(* ===================================================================== *)

(** An empty store and freshly mounted components. *)
Definition initial_app : app_state :=
  {| messages := []; input := ""; isLoading := false; userMessageCount := 0;
     currentChatId := None; selectedImage := None; speechEnabled := false |}.

Definition initial_sidebar : sidebar_state :=
  {| chats := []; searchQuery := ""; selectedCategory := "all";
     isClearing := false |}.

Definition initial_world : world :=
  {| db_messages := ∅; db_chats := ∅; now := 0; store_calls := 0;
     fetch_calls := 0; trace := []; journal := []; app := initial_app;
     sidebar := initial_sidebar |}.

(** The [Fetch] calls of a trace. *)
Definition is_fetch (e : event) : bool :=
  match e with Fetch _ _ => true | _ => false end.

Definition fetches (t : list event) : list event := List.filter is_fetch t.

Module BackoffSpec.

(** A transient failure: the transport fails, or the status is at least
    500. *)
Definition transient (o : fetch_outcome) : Prop :=
  match o with
  | Rejected _ => True
  | Resolved r => 500 <= status r
  end.

(** An attempt that does not yield an [ok] response. *)
Definition failing (o : fetch_outcome) : bool :=
  match o with
  | Rejected _ => true
  | Resolved r => negb (ok r)
  end.

(** The error raised inside the [try] block by a failing attempt: the
    rejection of [fetch] itself; for a status below 500, the rejection of
    [response.text()] when the body cannot be read, and the client error
    otherwise; the server error from 500 on. *)
Definition error_of (o : fetch_outcome) : js_error :=
  match o with
  | Rejected e => e
  | Resolved r =>
      if status r <? 500
      then match resp_body r with
           | Unreadable e => e
           | BadBody _ | Candidates _ =>
               Error ("Client Error: " +:+ pretty (status r))
           end
      else Error ("Server Error: " +:+ pretty (status r))
  end.

(** An environment whose backend answers every request with the given
    status. *)
Definition always_status (code : nat) : environment :=
  {| store_failure := fun _ => None;
     fetch_reply := fun _ => Resolved {| status := code; resp_body := Candidates None |};
     confirm_answer := fun _ => true |}.

(** The world after three failed attempts on [url] with body [p]. *)
Definition after_three_failures (url : string) (p : payload) (w : world) : world :=
  count_fetch (log_event (Fetch url p)
    (log_event (Sleep 2000)
      (count_fetch (log_event (Fetch url p)
        (log_event (Sleep 1000)
          (count_fetch (log_event (Fetch url p) w))))))).

Definition empty_request : payload :=
  {| contents := []; systemInstruction := "" |}.

End BackoffSpec.

Module DirectiveSpec.
Import AIChat.

(** Every character of [s] satisfies [P]. *)
Fixpoint all_chars (P : ascii -> bool) (s : string) : bool :=
  match s with
  | EmptyString => true
  | String c s' => P c && all_chars P s'
  end.

Definition no_line_terminator (s : string) : bool :=
  all_chars (fun c => negb (JS.is_line_terminator c)) s.





(** The caption put in place of an empty text. *)
Definition default_caption (description : string) : string :=
  "Here's the image you requested: " +:+ double_quote
    +:+ description +:+ double_quote.

End DirectiveSpec.

Module RegistrySpec.

Definition is_pinned (c : chat) : bool := pinned (chat_data c).
Definition is_unpinned (c : chat) : bool := negb (pinned (chat_data c)).

(** Upper-case letters among the code units below 256: A to Z, and the
    letters from U+00C0 to U+00DE (U+00D7 is the multiplication sign).  The
    lower-case form of each lies 32 code units further. *)
Definition is_upper_case (c : ascii) : bool :=
  let n := nat_of_ascii c in
  ((65 <=? n) && (n <=? 90))
  || ((192 <=? n) && (n <=? 222) && negb (n =? 215)).

(** Two characters that are the same up to the case of a letter. *)
Definition same_letter (c d : ascii) : bool :=
  Ascii.eqb c d
  || (is_upper_case c && (nat_of_ascii d =? nat_of_ascii c + 32))
  || (is_upper_case d && (nat_of_ascii c =? nat_of_ascii d + 32)).

(** Two texts of the same length whose characters are the same up to
    case. *)
Fixpoint same_ignoring_case (s t : string) : bool :=
  match s, t with
  | EmptyString, EmptyString => true
  | String c s', String d t' => same_letter c d && same_ignoring_case s' t'
  | _, _ => false
  end.

(** All the characters of the model. *)
Definition all_ascii : list ascii := map ascii_of_nat (seq 0 256).

(** A registry entry with the given title, pin and category. *)
Definition entry (id name : string) (pin : bool) (cat : string) : chat :=
  {| chat_id := id;
     chat_data :=
       {| owner := "u1"; title := Some name; chat_createdAt := 0;
          updatedAt := 0; lastMessage := EmptyString; lastSender := None;
          pinned := pin; category := cat |} |}.

(** A sidebar with four chats, a query in mixed case and a category
    selected. *)
Definition mixed_registry : sidebar_state :=
  {| chats := [ entry "1" "Notes" false "work";
                entry "2" "Holiday plan" false "work";
                entry "3" "PLANNING" true "work";
                entry "4" "Plan B" true "personal" ];
     searchQuery := "pLaN"; selectedCategory := "work";
     isClearing := false |}.

End RegistrySpec.

Module DeletionSpec.
Import ChatHistory.

(** Number of turns of a conversation held by the store. *)
Definition pending (chat : string) (m : gmap string message_doc) : nat :=
  length (Firestore.messages_of chat m).

(** The requests that drain the collection of turns: page queries and
    write batches that delete turns. *)
Definition is_message_request (r : request) : Prop :=
  match r with
  | QueryMessages _ _ | DeleteMessages _ => True
  | _ => False
  end.

(** A journal entry respects the order of deletion for the chats [ids]: a
    batch of chat records is committed only when it holds at most
    [maxBatchSize] records, all of them among [ids], and the store holds no
    turn of any chat of [ids]; a single chat record is deleted only when the
    store holds none of its turns. *)
Definition record_deletion_safe (ids : list string) (e : journal_entry) : Prop :=
  match j_request e with
  | DeleteChats batch =>
      j_succeeded e = true ->
      length batch <= maxBatchSize
      /\ batch ⊆ ids
      /\ forall id, id ∈ ids -> pending id (j_messages e) = 0
  | DeleteChat id =>
      j_succeeded e = true -> pending id (j_messages e) = 0
  | _ => True
  end.


(** What the draining of turns may do to the world: the chat records and the
    sidebar state stay as they are, turns are only removed, and the journal
    grows by requests on the collection of turns. *)
Definition drain_phase (w w' : world) : Prop :=
  db_chats w' = db_chats w
  /\ db_messages w' ⊆ db_messages w
  /\ exists j, journal w' = journal w ++ j
               /\ Forall (fun e => is_message_request (j_request e)) j.


(** An environment in which no store request fails and the user confirms. *)
Definition reliable (env : environment) : Prop :=
  (forall n, store_failure env n = None)
  /\ (forall q, confirm_answer env q = true).

Definition reliable_env : environment :=
  {| store_failure := fun _ => None;
     fetch_reply := fun _ => Rejected (Error "offline");
     confirm_answer := fun _ => true |}.

(** A turn of the given chat, and a store holding [n] turns of it under
    the ids [0], [1], ... *)
Definition turn_of (chat : string) (stamp : nat) : message_doc :=
  {| sender := from_user; text := "hello"; createdAt := stamp;
     chatId := chat; userId := None; userName := None; hasImage := false;
     imageData := None; imageUrl := None; isError := false |}.

Definition turns (chat : string) (n : nat) : gmap string message_doc :=
  list_to_map (map (fun i => (pretty i, turn_of chat i)) (seq 0 n)).

(** A chat record as [createNewChat] writes it. *)
Definition new_chat : chat_doc :=
  {| owner := "u1"; title := Some "New Chat"; chat_createdAt := 0;
     updatedAt := 0; lastMessage := EmptyString; lastSender := None;
     pinned := false; category := "personal" |}.

Definition world_with (msgs : gmap string message_doc)
  (records : gmap string chat_doc) : world :=
  {| db_messages := msgs; db_chats := records; now := 1000; store_calls := 0;
     fetch_calls := 0; trace := []; journal := []; app := initial_app;
     sidebar := initial_sidebar |}.

(** A store with one chat ["c"] of 450 turns. *)
Definition world_450 : world :=
  world_with (turns "c" 450) {[ "c" := new_chat ]}.

End DeletionSpec.

Module EngineSpec.
Import AIChat.

(** A submission that [handleSendMessage] accepts on the chat [chat]: some
    text or an image, no submission in flight, and a current chat. *)
Definition accepted (st : app_state) (chat : string) : Prop :=
  (JS.truthy (JS.trim (input st)) = true \/ truthy_opt (selectedImage st) = true)
  /\ isLoading st = false
  /\ currentChatId st = Some chat
  /\ JS.truthy chat = true.

(** The user turn written by step 1. *)
Definition user_turn (user : user_info) (st : app_state) (chat : string)
  (stamp : nat) : message_doc :=
  {| sender := from_user;
     text := JS.or_else (JS.trim (input st)) "[Image]";
     createdAt := stamp;
     chatId := chat;
     userId := Some (opt_or (uid user) EmptyString);
     userName := Some (opt_or (name user) EmptyString);
     hasImage := truthy_opt (selectedImage st);
     imageData := if truthy_opt (selectedImage st) then selectedImage st else None;
     imageUrl := None;
     isError := false |}.

(** The assistant turn that reports the failure [error]. *)
Definition error_turn (chat : string) (error : js_error) (stamp : nat)
  : message_doc :=
  {| sender := from_ai;
     text := "I encountered an error: " +:+ err_message error
               +:+ ". Please try again or check your connection.";
     createdAt := stamp;
     chatId := chat;
     userId := None;
     userName := None;
     hasImage := false;
     imageData := None;
     imageUrl := None;
     isError := true |}.

(** The metadata patch of step 1: it carries a title when the view holds no
    turn other than the welcome. *)
Definition user_patch (st : app_state) : chat_patch :=
  {| p_title :=
       if decide (length (List.filter (fun m => negb (msg_isWelcome m))
                                      (messages st)) = 0)
       then Some (chatTitle (JS.trim (input st))) else None;
     p_lastMessage := Some (JS.or_else (JS.trim (input st)) "[Image]");
     p_lastSender := Some from_user;
     p_pinned := None; p_category := None |}.

(** A successful write that sets the title of a chat. *)
Definition sets_title (e : event) : bool :=
  match e with
  | Store (UpdateChat _ p) true =>
      match p_title p with Some _ => true | None => false end
  | _ => false
  end.

(** The titles of all chats. *)
Definition titles (w : world) : gmap string (option string) :=
  title <$> db_chats w.

(** What the assistant half of a submission (steps 2 to 6 and the error
    path) may do to the world: no title changes, turns are only added, and
    the trace grows by calls that set no title. *)
Definition assistant_phase (w w' : world) : Prop :=
  titles w' = titles w
  /\ db_messages w ⊆ db_messages w'
  /\ exists t, trace w' = trace w ++ t
               /\ Forall (fun e => sets_title e = false) t.

(** Every run of [m] ends (with a value or an exception) in a world related
    by [I] to the one it started from. *)
Definition keeps {A} (I : world -> world -> Prop) (m : M A) : Prop :=
  forall w, (m w).1 <> OutOfFuel /\ I w (m w).2.

(** The state of the component when the handler has accepted a submission:
    [setInput(''); setIsLoading(true); setUserMessageCount(prev => prev + 1)]. *)
Definition submitting (w : world) : world :=
  with_app (fun s =>
    {| messages := messages s; input := EmptyString; isLoading := true;
       userMessageCount := S (userMessageCount s);
       currentChatId := currentChatId s; selectedImage := selectedImage s;
       speechEnabled := speechEnabled s |}) w.

(** The completion call that starts with the [f]-th fetch ends with the
    error [e]: its three attempts fail and [e] is the error of the third, or
    one of them is answered by an [ok] response on which [response.json()]
    rejects with [e] (the body cannot be read, or it is not the expected
    JSON object). *)
Inductive completion_fails (env : environment) (f : nat) : js_error -> Prop :=
| retries_exhausted :
    BackoffSpec.failing (fetch_reply env f) = true ->
    BackoffSpec.failing (fetch_reply env (S f)) = true ->
    BackoffSpec.failing (fetch_reply env (S (S f))) = true ->
    completion_fails env f (BackoffSpec.error_of (fetch_reply env (S (S f))))
| unreadable_body k r e :
    k < 3 ->
    (forall i, i < k -> BackoffSpec.failing (fetch_reply env (f + i)) = true) ->
    fetch_reply env (f + k) = Resolved r ->
    ok r = true ->
    resp_body r = BadBody e \/ resp_body r = Unreadable e ->
    completion_fails env f e.

(** The store, the clock and the call counter of the store are the same in
    both worlds. *)
Definition same_store (w w' : world) : Prop :=
  db_messages w' = db_messages w /\ db_chats w' = db_chats w
  /\ store_calls w' = store_calls w /\ now w' = now w.

(** The metadata patch of the error path. *)
Definition error_patch : chat_patch :=
  {| p_title := None;
     p_lastMessage := Some "Error occurred";
     p_lastSender := Some from_ai;
     p_pinned := None; p_category := None |}.

(** A user, the state of a component showing the empty chat ["c"] with the
    text [typed] in the input, and the world that goes with it. *)
Definition demo_user : user_info := {| uid := Some "u1"; name := Some "Ada" |}.

Definition demo_state (typed : string) : app_state :=
  {| messages := [welcome demo_user]; input := typed; isLoading := false;
     userMessageCount := 0; currentChatId := Some "c"; selectedImage := None;
     speechEnabled := false |}.

Definition demo_world : world :=
  DeletionSpec.world_with ∅ {[ "c" := DeletionSpec.new_chat ]}.

(** An environment whose store refuses every request. *)
Definition store_down : environment :=
  {| store_failure := fun _ => Some (Error "unavailable");
     fetch_reply := fun _ => Rejected (Error "offline");
     confirm_answer := fun _ => true |}.

(** A backend that fails once and then answers with an image directive. *)
Definition fox_env : environment :=
  {| store_failure := fun _ => None;
     fetch_reply := fun n =>
       if n =? 0 then Rejected (Error "offline")
       else Resolved {| status := 200;
                        resp_body := Candidates
                          (Some "Sure! [IMAGE_REQUEST: a red fox in snow]") |};
     confirm_answer := fun _ => true |}.

(** Two chats, of three and two turns, and the sidebar that lists them. *)
Definition two_chats : world :=
  DeletionSpec.world_with
    (DeletionSpec.turns "a" 3
       ∪ list_to_map (map (fun i => (pretty i, DeletionSpec.turn_of "b" i))
                          (seq 10 2)))
    (<["a" := DeletionSpec.new_chat]> {[ "b" := DeletionSpec.new_chat ]}).

Definition two_chats_sidebar : sidebar_state :=
  {| chats := [ {| chat_id := "a"; chat_data := DeletionSpec.new_chat |};
                {| chat_id := "b"; chat_data := DeletionSpec.new_chat |} ];
     searchQuery := EmptyString; selectedCategory := "all";
     isClearing := false |}.

End EngineSpec.

(* ===================================================================== *)
(** * Vocabulary of the further properties                                *)
(* ===================================================================== *)

Module ScheduleSpec.

(** The calls and waits of [k] failed attempts in a row, the first of them
    being iteration [i] of the loop of [fetchWithRetries]. *)
Fixpoint failed_attempts (url : string) (p : payload) (i k : nat) : list event :=
  match k with
  | 0 => []
  | S k' => Fetch url p :: Sleep (2 ^ i * 1000) :: failed_attempts url p (S i) k'
  end.

Definition is_sleep (e : event) : bool :=
  match e with Sleep _ => true | _ => false end.

(** A backend that answers every request with the given status and a body
    that cannot be read: [response.text()] rejects with [e]. *)
Definition unreadable_status (code : nat) (e : js_error) : environment :=
  {| store_failure := fun _ => None;
     fetch_reply := fun _ =>
       Resolved {| status := code; resp_body := Unreadable e |};
     confirm_answer := fun _ => true |}.

End ScheduleSpec.

Module TurnSpec.
Import AIChat.

(** The text put in place of a missing or empty candidate. *)
Definition fallback_answer : string :=
  "I'm sorry, I couldn't generate a response.".

(** The answer read from a response body whose first candidate text is
    [first_text]. *)
Definition answer_of (first_text : option string) : string :=
  opt_or first_text fallback_answer.

(** The assistant turn and the metadata patch written for an answer. *)
Definition assistant_turn (chat answer : string) (stamp : nat) : message_doc :=
  {| sender := from_ai;
     text := (extractImageRequest answer).1;
     createdAt := stamp;
     chatId := chat;
     userId := None;
     userName := None;
     hasImage := truthy_opt (extractImageRequest answer).2;
     imageData := None;
     imageUrl := if truthy_opt (extractImageRequest answer).2
                 then (extractImageRequest answer).2 else None;
     isError := false |}.

Definition assistant_patch (answer : string) : chat_patch :=
  {| p_title := None;
     p_lastMessage :=
       Some (if truthy_opt (extractImageRequest answer).2
             then (extractImageRequest answer).1 +:+ " [Image]"
             else (extractImageRequest answer).1);
     p_lastSender := Some from_ai;
     p_pinned := None; p_category := None |}.

(** The endpoint and the body of the completion request of a submission. *)
Definition request_of (st : app_state) : string * payload :=
  if truthy_opt (selectedImage st)
  then (VISION_API_URL,
        visionPayload (default EmptyString (selectedImage st))
                      (JS.trim (input st)))
  else (API_URL, textPayload st (JS.trim (input st))).

(** The chat record written by [createNewChat]. *)
Definition new_chat_doc (user : user_info) (stamp : nat) : chat_doc :=
  {| owner := opt_or (uid user) EmptyString;
     title := Some "New Chat";
     chat_createdAt := stamp;
     updatedAt := stamp;
     lastMessage := EmptyString;
     lastSender := None;
     pinned := false;
     category := "personal" |}.

(** What a submission may do to the store, seen from before ([w]) and after
    ([w']): turns are only added, at most [n] of them and all in the chat
    [chat]; no chat record is removed, no record but the one of [chat]
    changes, and that one keeps its owner, creation time, pin and
    category. *)
Definition grows (chat : option string) (n : nat) (w w' : world) : Prop :=
  db_messages w ⊆ db_messages w'
  /\ size (db_messages w') <= size (db_messages w) + n
  /\ (forall id d, db_messages w' !! id = Some d -> db_messages w !! id = None ->
        chat = Some (chatId d))
  /\ (forall id c, db_chats w !! id = Some c ->
        exists c', db_chats w' !! id = Some c'
                   /\ owner c' = owner c
                   /\ chat_createdAt c' = chat_createdAt c
                   /\ pinned c' = pinned c
                   /\ category c' = category c
                   /\ (chat <> Some id -> c' = c)).

(** Steps 5 and 6 of the handler: the two writes of an answer and the
    speech. *)
Definition answer_writes (env : environment) (st : app_state)
  (chat answer : string) : M unit :=
  bind (Firestore.addMessage env (assistant_turn chat answer))
    (fun _ => bind (Firestore.updateChat env chat (assistant_patch answer))
       (fun _ => if speechEnabled st
                 then emit (Speak (extractImageRequest answer).1)
                 else ret tt)).

(** The answer of the backend [EngineSpec.fox_env]. *)
Definition fox_text : string := "Sure! [IMAGE_REQUEST: a red fox in snow]".

Definition fox_reply : response :=
  {| status := 200; resp_body := Candidates (Some fox_text) |}.

(** A component with a text typed in and no current chat. *)
Definition first_state : app_state :=
  {| messages := []; input := "  hi "; isLoading := false;
     userMessageCount := 0; currentChatId := None; selectedImage := None;
     speechEnabled := false |}.

(** A chat with one user turn, shown by a component that is idle. *)
Definition replay_state : app_state :=
  {| messages := [Stored "0" (DeletionSpec.turn_of "c" 0)];
     input := EmptyString; isLoading := false; userMessageCount := 1;
     currentChatId := Some "c"; selectedImage := None;
     speechEnabled := false |}.

Definition replay_world : world :=
  {| db_messages := DeletionSpec.turns "c" 1;
     db_chats := {[ "c" := DeletionSpec.new_chat ]};
     now := 1000; store_calls := 0; fetch_calls := 0; trace := [];
     journal := []; app := replay_state; sidebar := initial_sidebar |}.


(** A backend that answers every request with the given text. *)
Definition answering (t : string) : environment :=
  {| store_failure := fun _ => None;
     fetch_reply := fun _ =>
       Resolved {| status := 200; resp_body := Candidates (Some t) |};
     confirm_answer := fun _ => true |}.

(** A first question of 54 characters, typed into the component that shows
    the empty chat ["c"]. *)
Definition long_question : string :=
  "Please explain how exponential backoff works in detail".

Definition asking_world : world :=
  with_app (fun _ => EngineSpec.demo_state long_question) EngineSpec.demo_world.

(** A store that fails exactly its [n]-th request. *)
Definition failing_at (n : nat) (t : string) : environment :=
  {| store_failure := fun k => if k =? n then Some (Error "unavailable") else None;
     fetch_reply := fun _ =>
       Resolved {| status := 200; resp_body := Candidates (Some t) |};
     confirm_answer := fun _ => true |}.

End TurnSpec.

Module ExportSpec.


End ExportSpec.

Module SidebarSpec.

(** A record whose only change is the time of its last update, its pin or
    its category. *)
Definition touched (stamp : nat) (c : chat_doc) : chat_doc :=
  {| owner := owner c; title := title c; chat_createdAt := chat_createdAt c;
     updatedAt := stamp; lastMessage := lastMessage c;
     lastSender := lastSender c; pinned := pinned c;
     category := category c |}.

Definition with_pinned (b : bool) (c : chat_doc) : chat_doc :=
  {| owner := owner c; title := title c; chat_createdAt := chat_createdAt c;
     updatedAt := updatedAt c; lastMessage := lastMessage c;
     lastSender := lastSender c; pinned := b;
     category := category c |}.

Definition with_category (cat : string) (c : chat_doc) : chat_doc :=
  {| owner := owner c; title := title c; chat_createdAt := chat_createdAt c;
     updatedAt := updatedAt c; lastMessage := lastMessage c;
     lastSender := lastSender c; pinned := pinned c;
     category := cat |}.

(** The order of the chat subscription: most recently updated first. *)
Definition newer_first (a b : chat) : Prop :=
  updatedAt (chat_data b) <= updatedAt (chat_data a).

(** A sidebar that shows the chats of the store. *)
Definition synced_sidebar (user : user_info) (w : world) : sidebar_state :=
  {| chats := Sidebar.snapshot_chats user (db_chats w);
     searchQuery := EmptyString; selectedCategory := "all";
     isClearing := false |}.

End SidebarSpec.

Module IsolationSpec.

(** What a deletion of the chats [ids] may do to the store: turns of other
    chats and records of other chats stay as they are, and nothing is
    added. *)
Definition spares (ids : list string) (w w' : world) : Prop :=
  (forall id d, db_messages w !! id = Some d -> chatId d ∉ ids ->
                db_messages w' !! id = Some d)
  /\ (forall c, c ∉ ids -> db_chats w' !! c = db_chats w !! c)
  /\ db_messages w' ⊆ db_messages w
  /\ db_chats w' ⊆ db_chats w.

(** The page queries, the batches of turns and the batches of chat records
    of a trace. *)
Definition is_query (e : event) : bool :=
  match e with Store (QueryMessages _ _) _ => true | _ => false end.

Definition is_message_batch (e : event) : bool :=
  match e with Store (DeleteMessages _) _ => true | _ => false end.

Definition record_batch (e : event) : option (list string) :=
  match e with Store (DeleteChats ids) true => Some ids | _ => None end.

Definition record_batches (t : list event) : list (list string) :=
  omap record_batch t.

(** A sidebar that lists [n] chats [0], [1], ... *)
Definition listing (n : nat) : sidebar_state :=
  {| chats := map (fun i => {| chat_id := pretty i;
                               chat_data := DeletionSpec.new_chat |}) (seq 0 n);
     searchQuery := EmptyString; selectedCategory := "all";
     isClearing := false |}.

End IsolationSpec.

Module ViewSpec.

(** The turns of a chat have stamps below [n], and two different turns of
    the chat have different stamps: what the server clock gives to turns
    written one after the other. *)
Definition stamped_before (chat : string) (n : nat)
  (db : gmap string message_doc) : Prop :=
  (forall id d, db !! id = Some d -> chatId d = chat -> createdAt d < n)
  /\ (forall id1 d1 id2 d2,
        db !! id1 = Some d1 -> db !! id2 = Some d2 ->
        chatId d1 = chat -> chatId d2 = chat ->
        createdAt d1 = createdAt d2 -> id1 = id2).

(** The persisted turns of a chat in the order of the subscription. *)
Definition ordered_log (chat : string) (db : gmap string message_doc)
  : list message :=
  map (fun kv => Stored kv.1 kv.2)
      (merge_sort AIChat.by_createdAt (Firestore.messages_of chat db)).

(** The order of the message subscription on persisted turns. *)
Definition older_first (a b : message) : Prop :=
  match a, b with
  | Stored _ d1, Stored _ d2 => createdAt d1 <= createdAt d2
  | _, _ => False
  end.

End ViewSpec.

Module UrlSpec.

(** Characters that can stand in one segment of a URL path without ending
    it: the unreserved characters, and the percent sign of an escape (whose
    two hexadecimal digits are unreserved). *)
Definition segment_safe (c : ascii) : bool :=
  JS.uri_unreserved c || Ascii.eqb c "%"%char.

Definition image_url_prefix : string := "https://image.pollinations.ai/prompt/".
Definition image_url_query : string := "?width=512&height=512&nologo=true".

(** A sequence of code units without lone surrogate: every high surrogate
    (U+D800..U+DBFF) is followed by a low one (U+DC00..U+DFFF), and every low
    surrogate follows a high one. *)
Fixpoint no_lone_surrogate (units : list N) : bool :=
  match units with
  | [] => true
  | u :: rest =>
      if ((56320 <=? u) && (u <=? 57343))%N then false
      else if ((55296 <=? u) && (u <=? 56319))%N
      then match rest with
           | v :: rest' =>
               ((56320 <=? v) && (v <=? 57343))%N && no_lone_surrogate rest'
           | [] => false
           end
      else no_lone_surrogate rest
  end.

(** The code units U+732B (one unit), U+1F600 (a surrogate pair) and a high
    surrogate on its own. *)
Definition cat_sign : list N := [29483%N].
Definition grinning_face : list N := [55357%N; 56832%N].
Definition lone_surrogate : list N := [97%N; 55357%N; 98%N].

End UrlSpec.
(* ===================================================================== *)
(** * Properties                                                          *)
(* ===================================================================== *)

(** ** The backoff HTTP client *)

Module BackoffClient.
Import AIChat BackoffSpec.

Lemma attempt_failing env url p w :
  failing (fetch_reply env (fetch_calls w)) = true ->
  attempt env url p w =
    (Throw (error_of (fetch_reply env (fetch_calls w))),
     count_fetch (log_event (Fetch url p) w)).
Proof.
  unfold attempt, bind, fetch, failing, error_of, responseBodyText.
  destruct (fetch_reply env (fetch_calls w)) as [e|r]; [done|].
  intros Hok. apply negb_true_iff in Hok. rewrite Hok.
  unfold throw, ret. destruct (status r <? 500); [|done].
  by destruct (resp_body r).
Qed.

(** Three attempts that all fail: the calls and waits made, and the error
    raised. *)
Lemma three_failures env url p w :
  failing (fetch_reply env (fetch_calls w)) = true ->
  failing (fetch_reply env (S (fetch_calls w))) = true ->
  failing (fetch_reply env (S (S (fetch_calls w)))) = true ->
  fetchWithRetries env url p 3 w =
    (Throw (error_of (fetch_reply env (S (S (fetch_calls w))))),
     after_three_failures url p w).
Proof.
  intros H0 H1 H2.
  unfold fetchWithRetries, fetch_loop, bind, try_catch.
  rewrite attempt_failing by exact H0. cbn -[attempt].
  rewrite attempt_failing by exact H1. cbn -[attempt].
  rewrite attempt_failing by exact H2. done.
Qed.

Lemma trace_after_three_failures url p w :
  trace (after_three_failures url p w) =
    trace w ++ [Fetch url p; Sleep 1000; Fetch url p; Sleep 2000; Fetch url p].
Proof. cbn. by rewrite <- !app_assoc. Qed.

Lemma transient_failing o : transient o -> failing o = true.
Proof.
  destruct o as [e|r]; [done|]. unfold transient, failing, ok. intros H.
  apply negb_true_iff, andb_false_iff. right. apply Nat.leb_gt. lia.
Qed.

Lemma transient_error_of r :
  500 <= status r ->
  error_of (Resolved r) = Error ("Server Error: " +:+ pretty (status r)).
Proof.
  intros H. unfold error_of.
  by destruct (Nat.ltb_spec (status r) 500); [lia|].
Qed.

(** C3: when every attempt fails transiently (status at least 500, or the
    transport fails), [fetchWithRetries] makes exactly three calls, waits
    1000 ms before the second and 2000 ms before the third, and throws the
    error of the third attempt itself: the rejection of [fetch], or the
    [Server Error] built from the last status. *)
Theorem persistent_failure_three_attempts env url p w :
  (forall n, transient (fetch_reply env n)) ->
  exists w',
    fetchWithRetries env url p default_retries w =
      (Throw (match fetch_reply env (2 + fetch_calls w) with
              | Rejected e => e
              | Resolved r => Error ("Server Error: " +:+ pretty (status r))
              end), w')
    /\ trace w' = trace w ++ [Fetch url p; Sleep 1000; Fetch url p;
                              Sleep 2000; Fetch url p]
    /\ length (fetches (trace w')) = length (fetches (trace w)) + 3.
Proof.
  intros Ht. exists (after_three_failures url p w). split; [|split].
  - unfold default_retries.
    rewrite three_failures by apply transient_failing, Ht.
    f_equal. f_equal.
    change (2 + fetch_calls w) with (S (S (fetch_calls w))).
    specialize (Ht (S (S (fetch_calls w)))).
    destruct (fetch_reply env (S (S (fetch_calls w)))) as [e|r]; [done|].
    by apply transient_error_of.
  - apply trace_after_three_failures.
  - rewrite trace_after_three_failures. unfold fetches.
    rewrite List.filter_app, length_app. done.
Qed.

Lemma persistent_failure_three_attempts_witness :
  exists w',
    fetchWithRetries (always_status 503) API_URL empty_request
      default_retries initial_world =
      (Throw (Error "Server Error: 503"), w')
    /\ trace w' = [Fetch API_URL empty_request; Sleep 1000;
                   Fetch API_URL empty_request; Sleep 2000;
                   Fetch API_URL empty_request]
    /\ length (fetches (trace w')) = 3.
Proof.
  apply (persistent_failure_three_attempts (always_status 503) API_URL
           empty_request initial_world).
  intros n. simpl. lia.
Defined.

(** A response with a status below 500 that is not [ok] is a failing attempt
    like any other: with three of them the client makes its three calls and
    both waits, and throws the client error of the last one. *)
Lemma client_errors_are_retried env url p w :
  (forall n, exists r, fetch_reply env n = Resolved r
                       /\ 300 <= status r < 500
                       /\ forall e, resp_body r <> Unreadable e) ->
  exists r, fetch_reply env (2 + fetch_calls w) = Resolved r
            /\ fetchWithRetries env url p default_retries w =
                 (Throw (Error ("Client Error: " +:+ pretty (status r))),
                  after_three_failures url p w).
Proof.
  intros Hc.
  assert (Hfail : forall n, failing (fetch_reply env n) = true).
  { intros n. destruct (Hc n) as (r & -> & Hr & _). unfold failing, ok.
    apply negb_true_iff, andb_false_iff. right. apply Nat.leb_gt. lia. }
  destruct (Hc (2 + fetch_calls w)) as (r & Hr & Hs & Hb).
  exists r. split; [done|]. unfold default_retries.
  rewrite three_failures by apply Hfail.
  change (S (S (fetch_calls w))) with (2 + fetch_calls w). rewrite Hr.
  unfold error_of. destruct (Nat.ltb_spec (status r) 500); [|lia].
  destruct (resp_body r) as [e|t|e] eqn:Hbody; [done|done|].
  by destruct (Hb e).
Qed.

(** C1 (the code departs from it): against a backend that answers 404 to
    every request, [fetchWithRetries] does not stop after the first call.
    The [throw] of the client error sits inside the [try] block, so the
    [catch] block of the same iteration handles it like any other failure:
    three calls are made, with both waits, before the client error
    reaches the caller. *)
Theorem client_error_is_retried :
  exists w',
    fetchWithRetries (always_status 404) API_URL empty_request
      default_retries initial_world =
      (Throw (Error "Client Error: 404"), w')
    /\ trace w' = [Fetch API_URL empty_request; Sleep 1000;
                   Fetch API_URL empty_request; Sleep 2000;
                   Fetch API_URL empty_request].
Proof.
  exists (after_three_failures API_URL empty_request initial_world).
  split; [|apply trace_after_three_failures].
  by rewrite three_failures.
Qed.

End BackoffClient.
(** ** Strings *)

Module StringFacts.
Import DirectiveSpec.

#[local] Arguments String.append !_ _ / : simpl nomatch.

Lemma app_nil_r (s : string) : s +:+ EmptyString = s.
Proof. induction s as [|c s IH]; simpl; [done | by rewrite IH]. Qed.

Lemma app_assoc (a b c : string) : (a +:+ b) +:+ c = a +:+ (b +:+ c).
Proof. induction a as [|x a IH]; simpl; [done | by rewrite IH]. Qed.

Lemma length_app (a b : string) :
  String.length (a +:+ b) = String.length a + String.length b.
Proof. induction a as [|x a IH]; simpl; [done | by rewrite IH]. Qed.

Lemma startsWith_app (p s : string) : JS.startsWith p (p +:+ s) = true.
Proof.
  induction p as [|c p IH]; simpl; [done|]. by rewrite Ascii.eqb_refl.
Qed.

Lemma startsWith_split (p s : string) :
  JS.startsWith p s = true ->
  s = p +:+ JS.substring_from (String.length p) s.
Proof.
  revert s. induction p as [|c p IH]; intros [|d s]; simpl; try done.
  destruct (Ascii.eqb_spec c d) as [->|]; [|done].
  intros H. by rewrite <- IH.
Qed.


Lemma includes_here (s p : string) :
  JS.startsWith p s = true -> JS.includes s p = true.
Proof. destruct s; simpl; intros ->; done. Qed.

(** [includes] finds exactly the substrings. *)
Lemma includes_spec (s p : string) :
  JS.includes s p = true <-> exists a b, s = a +:+ p +:+ b.
Proof.
  split.
  - induction s as [|c s IH]; simpl.
    + rewrite orb_false_r. intros H. exists EmptyString, EmptyString.
      destruct p; [done | discriminate].
    + intros [H|H]%orb_true_iff.
      * exists EmptyString. eexists. simpl. by apply startsWith_split.
      * destruct (IH H) as (a & b & ->). by exists (String c a), b.
  - intros (a & b & ->). induction a as [|c a IH]; simpl.
    + apply includes_here, startsWith_app.
    + rewrite IH. apply orb_true_r.
Qed.










End StringFacts.

(** ** The directive parser *)

Module DirectiveParser.
Import AIChat DirectiveSpec StringFacts.

#[local] Arguments String.append !_ _ / : simpl nomatch.






















End DirectiveParser.
(** ** The derived view of the conversation registry *)

Module RegistryView.
Import ChatHistory RegistrySpec StringFacts.

#[local] Arguments String.append !_ _ / : simpl nomatch.

Lemma insert_pinned x l :
  is_pinned x = true -> sort_insert pinnedFirst x l = x :: l.
Proof.
  unfold is_pinned. intros Hx. destruct l as [|y l]; [done|].
  simpl. unfold pinnedFirst. rewrite Hx. simpl.
  by destruct (pinned (chat_data y)).
Qed.

Lemma insert_unpinned x P U :
  is_pinned x = false ->
  Forall (fun c => is_pinned c = true) P ->
  Forall (fun c => is_pinned c = false) U ->
  sort_insert pinnedFirst x (P ++ U) = P ++ x :: U.
Proof.
  unfold is_pinned. intros Hx HP HU.
  induction HP as [|y P Hy HP IH]; simpl.
  - destruct HU as [|y U Hy HU]; [done|].
    simpl. unfold pinnedFirst. by rewrite Hx, Hy.
  - unfold pinnedFirst at 1. rewrite Hx, Hy. simpl. by rewrite IH.
Qed.

Lemma Forall_filter_true {A} (f : A -> bool) l :
  Forall (fun c => f c = true) (List.filter f l).
Proof.
  induction l as [|x l IH]; simpl; [constructor|].
  destruct (f x) eqn:E; [by constructor | done].
Qed.

(** Sorting with [pinnedFirst] puts the pinned chats in front and keeps the
    order inside both groups. *)
Lemma sort_pinnedFirst l :
  sort pinnedFirst l = List.filter is_pinned l ++ List.filter is_unpinned l.
Proof.
  induction l as [|x l IH]; [done|].
  cbn [sort List.filter]. rewrite IH.
  change (is_unpinned x) with (negb (is_pinned x)).
  destruct (is_pinned x) eqn:Hx; simpl.
  - by apply insert_pinned.
  - apply insert_unpinned; [done | apply Forall_filter_true |].
    eapply Forall_impl; [apply (Forall_filter_true is_unpinned)|].
    unfold is_unpinned, is_pinned. intros c Hc. by apply negb_true_iff.
Qed.

Lemma filter_sublist {A} (f : A -> bool) l : sublist (List.filter f l) l.
Proof.
  induction l as [|x l IH]; simpl; [constructor|].
  destruct (f x); by constructor.
Qed.

Lemma in_all_ascii c : In c all_ascii.
Proof.
  unfold all_ascii. apply in_map_iff. exists (nat_of_ascii c).
  split; [apply ascii_nat_embedding|]. apply in_seq.
  pose proof (nat_ascii_bounded c). lia.
Qed.

Lemma lower_char_same_letter c d :
  Ascii.eqb (JS.lower_char c) (JS.lower_char d) = same_letter c d.
Proof.
  assert (H : forallb (fun c => forallb (fun d =>
                Bool.eqb (Ascii.eqb (JS.lower_char c) (JS.lower_char d))
                         (same_letter c d)) all_ascii) all_ascii = true)
    by (vm_compute; reflexivity).
  rewrite forallb_forall in H. specialize (H c (in_all_ascii c)).
  rewrite forallb_forall in H. specialize (H d (in_all_ascii d)).
  by apply Bool.eqb_prop in H.
Qed.

Lemma toLowerCase_same s t :
  JS.toLowerCase s = JS.toLowerCase t <-> same_ignoring_case s t = true.
Proof.
  revert t. induction s as [|c s IH]; intros [|d t]; simpl; try done.
  rewrite andb_true_iff, <- IH, <- lower_char_same_letter. split.
  - intros [= Hc Hs]. split; [|done]. rewrite Hc. apply Ascii.eqb_refl.
  - intros [Hc ->]. apply Ascii.eqb_eq in Hc. by rewrite Hc.
Qed.

Lemma toLowerCase_app a b :
  JS.toLowerCase (a +:+ b) = JS.toLowerCase a +:+ JS.toLowerCase b.
Proof. induction a as [|c a IH]; simpl; [done | by rewrite IH]. Qed.

Lemma toLowerCase_split t x y :
  JS.toLowerCase t = x +:+ y ->
  exists t1 t2, t = t1 +:+ t2 /\ JS.toLowerCase t1 = x /\ JS.toLowerCase t2 = y.
Proof.
  revert t. induction x as [|c x IH]; intros t; simpl.
  - intros H. by exists EmptyString, t.
  - destruct t as [|d t]; simpl; [done|]. intros [= Hc H].
    destruct (IH _ H) as (t1 & t2 & -> & H1 & H2).
    exists (String d t1), t2. simpl. by rewrite Hc, H1.
Qed.

(** The test of [matchesSearch] on a title: some part of the title is the
    query up to the case of letters. *)
Lemma includes_ignoring_case t q :
  JS.includes (JS.toLowerCase t) (JS.toLowerCase q) = true <->
  exists a m b, t = a +:+ m +:+ b /\ same_ignoring_case m q = true.
Proof.
  rewrite includes_spec. split.
  - intros (a' & b' & H).
    apply toLowerCase_split in H as (a & r & -> & _ & H).
    apply toLowerCase_split in H as (m & b & -> & H & _).
    exists a, m, b. split; [done|]. by apply toLowerCase_same.
  - intros (a & m & b & -> & H). apply toLowerCase_same in H.
    exists (JS.toLowerCase a), (JS.toLowerCase b).
    by rewrite !toLowerCase_app, H.
Qed.

(** C9: the derived view.  A chat is listed exactly when it is in the
    registry, it has a title of which some part is the query up to the case
    of letters (the same characters, except that a letter may stand for its
    other case), and the selected category is "all" or its own; the listed
    chats keep the order of the registry; the sort puts the pinned ones
    first and keeps the incoming order among the pinned and among the
    unpinned, so that every pinned chat comes before every unpinned one. *)
Theorem derived_view_filter_and_sort (st : sidebar_state) :
  (forall c,
      In c (filteredChats st) <->
      In c (chats st)
      /\ (exists t, title (chat_data c) = Some t
                    /\ exists a m b,
                         t = a +:+ m +:+ b
                         /\ same_ignoring_case m (searchQuery st) = true)
      /\ (selectedCategory st = "all"
          \/ category (chat_data c) = selectedCategory st))
  /\ sublist (filteredChats st) (chats st)
  /\ sortedChats st = List.filter is_pinned (filteredChats st)
                      ++ List.filter is_unpinned (filteredChats st)
  /\ (forall i j a b,
         sortedChats st !! i = Some a -> sortedChats st !! j = Some b ->
         pinned (chat_data a) = true -> pinned (chat_data b) = false ->
         i < j).
Proof.
  split; [|split; [|split]].
  - intros c. unfold filteredChats. rewrite List.filter_In.
    unfold matchesSearch, matchesCategory.
    rewrite andb_true_iff, orb_true_iff, !String.eqb_eq.
    split.
    + intros (Hin & Hs & Hc). split; [done|]. split; [|done].
      destruct (title (chat_data c)) as [t|]; [|done].
      exists t. split; [done|]. by apply includes_ignoring_case.
    + intros (Hin & (t & Ht & Hs) & Hc). split; [done|]. split; [|done].
      rewrite Ht. by apply includes_ignoring_case.
  - apply filter_sublist.
  - apply sort_pinnedFirst.
  - intros i j a b Hi Hj Ha Hb. unfold sortedChats in *.
    rewrite sort_pinnedFirst in Hi, Hj.
    set (P := List.filter is_pinned (filteredChats st)) in *.
    set (U := List.filter is_unpinned (filteredChats st)) in *.
    assert (HP : Forall (fun c => is_pinned c = true) P)
      by apply Forall_filter_true.
    assert (HU : Forall (fun c => is_unpinned c = true) U)
      by apply Forall_filter_true.
    destruct (decide (i < length P)) as [Hlt|Hge].
    + destruct (decide (j < length P)) as [Hjlt|]; [|lia].
      rewrite lookup_app_l in Hj by done.
      rewrite Forall_lookup in HP. specialize (HP _ _ Hj).
      unfold is_pinned in HP. congruence.
    + rewrite lookup_app_r in Hi by lia.
      rewrite Forall_lookup in HU. specialize (HU _ _ Hi).
      unfold is_unpinned in HU. rewrite Ha in HU. done.
Qed.

Lemma derived_view_filter_and_sort_witness :
  map chat_id (chats mixed_registry) = ["1"; "2"; "3"; "4"]
  /\ map chat_id (filteredChats mixed_registry) = ["2"; "3"]
  /\ map chat_id (sortedChats mixed_registry) = ["3"; "2"]
  /\ In (entry "2" "Holiday plan" false "work") (filteredChats mixed_registry)
  /\ ~ In (entry "1" "Notes" false "work") (filteredChats mixed_registry)
  /\ ~ In (entry "4" "Plan B" true "personal") (filteredChats mixed_registry)
  /\ 0 < 1.
Proof.
  destruct (derived_view_filter_and_sort mixed_registry)
    as (Hlisted & _ & _ & Horder).
  split; [reflexivity|]. split; [reflexivity|]. split; [reflexivity|].
  split; [|split; [|split]].
  - apply Hlisted. split; [right; left; reflexivity|]. split.
    + exists "Holiday plan". split; [reflexivity|].
      by exists "Holiday ", "plan", EmptyString.
    + by right.
  - intros [H|[H|[]]]; discriminate.
  - intros H. apply Hlisted in H as (_ & _ & [H|H]); discriminate.
  - apply (Horder 0 1 (entry "3" "PLANNING" true "work")
             (entry "2" "Holiday plan" false "work"));
      reflexivity.
Defined.

End RegistryView.
(** ** The store *)

Module StoreFacts.
Import Firestore DeletionSpec.

Lemma pending_size chat m :
  pending chat m = size (filter (fun kv => chatId kv.2 = chat) m).
Proof. unfold pending, messages_of. apply length_map_to_list. Qed.

Lemma messages_of_nil chat m :
  messages_of chat m = [] <-> filter (fun kv => chatId kv.2 = chat) m = ∅.
Proof. unfold messages_of. apply map_to_list_empty_iff. Qed.

Lemma filter_delete_all {A} (P : string * A -> Prop) `{!forall x, Decision (P x)}
  (m : gmap string A) ids :
  filter P (foldr delete m ids) = foldr delete (filter P m) ids.
Proof.
  induction ids as [|i ids IH]; simpl; [done|].
  by rewrite map_filter_delete, IH.
Qed.

Lemma lookup_delete_all {A} (m : gmap string A) ids i :
  i ∉ ids -> foldr delete m ids !! i = m !! i.
Proof.
  induction ids as [|j ids IH]; simpl; [done|].
  intros [Hne Hin]%not_elem_of_cons.
  rewrite lookup_delete_ne by done. by apply IH.
Qed.

Lemma delete_all_subseteq {A} (m : gmap string A) ids :
  foldr delete m ids ⊆ m.
Proof.
  induction ids as [|j ids IH]; simpl; [done|].
  etrans; [apply delete_subseteq | exact IH].
Qed.

Lemma size_delete_all {A} (m : gmap string A) ids :
  NoDup ids -> (forall i, i ∈ ids -> is_Some (m !! i)) ->
  size (foldr delete m ids) + length ids = size m.
Proof.
  induction 1 as [|i ids Hi Hnd IH]; intros Hin; simpl; [lia|].
  rewrite map_size_delete_Some.
  - specialize (IH (fun j Hj => Hin j (list_elem_of_further _ _ _ Hj))).
    assert (0 < size (foldr delete m ids)).
    { destruct (Hin i) as [x Hx]; [by left|].
      assert (foldr delete m ids !! i = Some x) as Hl
        by by rewrite lookup_delete_all.
      assert (size (foldr delete m ids) ≠ 0); [|lia].
      eapply map_size_ne_0_lookup_2. by eexists. }
    lia.
  - rewrite lookup_delete_all by done. apply Hin. by left.
Qed.

(** A page of a conversation: distinct ids, all of them turns of the
    conversation. *)
Lemma page_ids chat m lim :
  let ids := (take lim (messages_of chat m)).*1 in
  NoDup ids
  /\ forall i, i ∈ ids ->
       is_Some (filter (fun kv => chatId kv.2 = chat) m !! i).
Proof.
  intros ids. split.
  - unfold ids. rewrite fmap_take.
    apply (sublist_NoDup _ (messages_of chat m).*1);
      [apply NoDup_fst_map_to_list | apply sublist_take].
  - intros i [[j x] [-> Hin]]%list_elem_of_fmap.
    apply elem_of_take in Hin as (k & Hk & _).
    apply list_elem_of_lookup_2 in Hk.
    apply elem_of_map_to_list in Hk. by eexists.
Qed.

(** Deleting a page takes exactly its documents out of the conversation. *)
Lemma pending_delete_page chat m lim :
  let page := take lim (messages_of chat m) in
  pending chat (foldr delete m page.*1) + length page = pending chat m.
Proof.
  intros page. rewrite !pending_size, filter_delete_all.
  destruct (page_ids chat m lim) as [Hnd Hin].
  rewrite <- (size_delete_all (filter _ m) page.*1 Hnd Hin).
  by rewrite length_fmap.
Qed.

(** A drained conversation stays drained when documents are deleted. *)
Lemma drained_subseteq chat (m m' : gmap string message_doc) :
  m' ⊆ m -> messages_of chat m = [] -> messages_of chat m' = [].
Proof.
  rewrite !messages_of_nil. intros Hsub Hm.
  apply map_empty. intros i. apply eq_None_not_Some. intros [x Hx].
  apply map_lookup_filter_Some in Hx as [Hx HP].
  assert (filter (fun kv => chatId kv.2 = chat) m !! i = Some x) as Hl.
  { apply map_lookup_filter_Some. split; [|done].
    by eapply lookup_weaken. }
  rewrite Hm in Hl. by rewrite lookup_empty in Hl.
Qed.
End StoreFacts.

(** ** The cascading deletion *)

Module CascadingDeletion.
Import Firestore ChatHistory DeletionSpec StoreFacts.

Lemma queryMessages_run env chat lim w :
  queryMessages env chat lim w =
    match store_failure env (store_calls w) with
    | Some e => (Throw e, served (QueryMessages chat lim) false (db_messages w) w)
    | None => (Ok (take lim (messages_of chat (db_messages w))),
               served (QueryMessages chat lim) true (db_messages w) w)
    end.
Proof. unfold queryMessages, call. by destruct (store_failure _ _). Qed.

Lemma commitDeleteMessages_run env ids w :
  commitDeleteMessages env ids w =
    match store_failure env (store_calls w) with
    | Some e => (Throw e, served (DeleteMessages ids) false (db_messages w) w)
    | None => (Ok tt,
               served (DeleteMessages ids) true (db_messages w)
                 (with_db_messages (fun m => foldr delete m ids) w))
    end.
Proof. unfold commitDeleteMessages, call. by destruct (store_failure _ _). Qed.

Lemma commitDeleteChats_run env ids w :
  commitDeleteChats env ids w =
    match store_failure env (store_calls w) with
    | Some e => (Throw e, served (DeleteChats ids) false (db_messages w) w)
    | None => (Ok tt,
               served (DeleteChats ids) true (db_messages w)
                 (with_db_chats (fun m => foldr delete m ids) w))
    end.
Proof. unfold commitDeleteChats, call. by destruct (store_failure _ _). Qed.

Lemma deleteChat_run env id w :
  deleteChat env id w =
    match store_failure env (store_calls w) with
    | Some e => (Throw e, served (DeleteChat id) false (db_messages w) w)
    | None => (Ok tt,
               served (DeleteChat id) true (db_messages w)
                 (with_db_chats (delete id) w))
    end.
Proof. unfold deleteChat, call. by destruct (store_failure _ _). Qed.

(** One iteration of the page loop. *)
Lemma deleteMessagesLoop_unfold fuel env chat w :
  deleteMessagesLoop (S fuel) env chat w =
    match store_failure env (store_calls w) with
    | Some e => (Throw e, served (QueryMessages chat batchSize) false (db_messages w) w)
    | None =>
        let page := take batchSize (messages_of chat (db_messages w)) in
        let w1 := served (QueryMessages chat batchSize) true (db_messages w) w in
        if decide (length page = 0) then (Ok tt, w1)
        else
          match store_failure env (S (store_calls w)) with
          | Some e => (Throw e, served (DeleteMessages page.*1) false (db_messages w) w1)
          | None =>
              let w2 := served (DeleteMessages page.*1) true (db_messages w)
                          (with_db_messages (fun m => foldr delete m page.*1) w1) in
              if length page <? batchSize then (Ok tt, w2)
              else deleteMessagesLoop fuel env chat w2
          end
    end.
Proof.
  cbn [deleteMessagesLoop]. unfold bind at 1. rewrite queryMessages_run.
  destruct (store_failure env (store_calls w)); [done|]. cbn zeta.
  destruct (decide _); [done|].
  unfold bind. rewrite commitDeleteMessages_run. cbn [store_calls served count_store_call log_journal log_event].
  destruct (store_failure env (S (store_calls w))); [done|].
  by destruct (_ <? _).
Qed.

Lemma drain_phase_refl w : drain_phase w w.
Proof.
  repeat split; try done. exists []. by rewrite app_nil_r.
Qed.

Lemma drain_phase_trans w1 w2 w3 :
  drain_phase w1 w2 -> drain_phase w2 w3 -> drain_phase w1 w3.
Proof.
  intros (Hc1 & Hm1 & j1 & Hj1 & HF1) (Hc2 & Hm2 & j2 & Hj2 & HF2).
  split; [congruence|]. split; [by etrans|].
  exists (j1 ++ j2). split.
  - by rewrite Hj2, Hj1, app_assoc.
  - by apply Forall_app.
Qed.

Lemma drain_phase_query chat lim ok w :
  drain_phase w (served (QueryMessages chat lim) ok (db_messages w) w).
Proof.
  repeat split; try done. eexists. split; [reflexivity|].
  by repeat constructor.
Qed.

Lemma drain_phase_delete ids ok w :
  drain_phase w (served (DeleteMessages ids) ok (db_messages w) w).
Proof.
  repeat split; try done. eexists. split; [reflexivity|].
  by repeat constructor.
Qed.

Lemma drain_phase_deleted ids w0 w :
  db_messages w0 = db_messages w ->
  drain_phase w (served (DeleteMessages ids) true (db_messages w0)
                   (with_db_messages (fun m => foldr delete m ids) w)).
Proof.
  intros _. split; [done|]. split; [apply delete_all_subseteq|].
  eexists. split; [reflexivity|]. by repeat constructor.
Qed.

Lemma take_batch_nil {A} (l : list A) :
  length (take batchSize l) = 0 -> l = [].
Proof. by destruct l. Qed.

Lemma take_batch_short {A} (l : list A) :
  length (take batchSize l) < batchSize -> take batchSize l = l.
Proof. rewrite length_take. intros H. apply take_ge. lia. Qed.

(** The page loop only drains; when it ends normally the conversation has no
    turn left; and it ends within any bound above the number of turns. *)
Lemma deleteMessagesLoop_spec fuel env chat w :
  drain_phase w (deleteMessagesLoop fuel env chat w).2
  /\ ((deleteMessagesLoop fuel env chat w).1 = Ok tt ->
      pending chat (db_messages (deleteMessagesLoop fuel env chat w).2) = 0)
  /\ (pending chat (db_messages w) < fuel ->
      (deleteMessagesLoop fuel env chat w).1 <> OutOfFuel).
Proof.
  revert w. induction fuel as [|fuel IH]; intros w.
  { simpl. split; [apply drain_phase_refl|]. split; [done|lia]. }
  rewrite deleteMessagesLoop_unfold.
  destruct (store_failure env (store_calls w)) as [e|].
  { simpl. split; [apply drain_phase_query|]. done. }
  cbn zeta.
  set (page := take batchSize (messages_of chat (db_messages w))).
  set (w1 := served (QueryMessages chat batchSize) true (db_messages w) w).
  assert (H1 : drain_phase w w1) by apply drain_phase_query.
  destruct (decide (length page = 0)) as [Hnil|Hne].
  { simpl. split; [done|]. split; [|done]. intros _.
    unfold pending. by rewrite (take_batch_nil _ Hnil). }
  destruct (store_failure env (S (store_calls w))) as [e|].
  { simpl. split; [|done].
    eapply drain_phase_trans; [exact H1|]. apply (drain_phase_delete _ _ w1). }
  set (w2 := served _ true _ _).
  assert (H2 : drain_phase w w2).
  { eapply drain_phase_trans; [exact H1|]. by apply drain_phase_deleted. }
  assert (Hp : pending chat (db_messages w2) + length page
               = pending chat (db_messages w)).
  { apply pending_delete_page. }
  destruct (Nat.ltb_spec (length page) batchSize) as [Hlt|Hge].
  { simpl. split; [done|]. split; [|done]. intros _.
    assert (length page = pending chat (db_messages w)); [|simpl in *; lia].
    unfold page, pending. by rewrite take_batch_short. }
  destruct (IH w2) as (H3 & Hdone & Hfuel).
  split; [by eapply drain_phase_trans|]. split; [done|].
  intros Hf. apply Hfuel. unfold batchSize in *. lia.
Qed.

Lemma pending_le_size chat m : pending chat m <= size m.
Proof.
  rewrite pending_size. apply map_subseteq_size, map_filter_subseteq.
Qed.

Lemma deleteMessages_spec env chat w :
  drain_phase w (deleteMessages env chat w).2
  /\ ((deleteMessages env chat w).1 = Ok tt ->
      pending chat (db_messages (deleteMessages env chat w).2) = 0)
  /\ (deleteMessages env chat w).1 <> OutOfFuel.
Proof.
  unfold deleteMessages.
  destruct (deleteMessagesLoop_spec (S (size (db_messages w))) env chat w)
    as (H1 & H2 & H3).
  split; [done|]. split; [done|]. apply H3.
  pose proof (pending_le_size chat (db_messages w)). lia.
Qed.

Lemma drained_after chat w w' :
  drain_phase w w' -> pending chat (db_messages w) = 0 ->
  pending chat (db_messages w') = 0.
Proof.
  intros (_ & Hsub & _) H. unfold pending in *.
  apply length_zero_iff_nil in H. apply length_zero_iff_nil.
  by eapply drained_subseteq.
Qed.

(** Draining a list of chats: only draining happens; on normal completion
    no chat of the list has a turn left. *)
Lemma deleteAllMessages_spec env ids w :
  drain_phase w (deleteAllMessages env ids w).2
  /\ ((deleteAllMessages env ids w).1 = Ok tt ->
      forall id, id ∈ ids ->
        pending id (db_messages (deleteAllMessages env ids w).2) = 0)
  /\ (deleteAllMessages env ids w).1 <> OutOfFuel.
Proof.
  revert w. induction ids as [|id ids IH]; intros w.
  { simpl. split; [apply drain_phase_refl|]. split; [|done].
    intros _ id Hin. by apply elem_of_nil in Hin. }
  cbn [deleteAllMessages]. unfold bind.
  destruct (deleteMessages_spec env id w) as (H1 & Hd & Hf).
  destruct (deleteMessages env id w) as [[[]|e|] w1]; simpl in *; try done.
  destruct (IH w1) as (H2 & Hall & Hf2).
  split; [by eapply drain_phase_trans|]. split; [|done].
  intros Hok id' [->|Hin]%elem_of_cons; [|by apply Hall].
  eapply drained_after; [exact H2|]. by apply Hd.
Qed.






Lemma batch_of_ids (ids : list string) i :
  length (take maxBatchSize (drop i ids)) <= maxBatchSize
  /\ take maxBatchSize (drop i ids) ⊆ ids.
Proof.
  split; [rewrite length_take; lia|].
  intros x Hx. apply elem_of_take in Hx as (k & Hk & _).
  rewrite lookup_drop in Hk. by eapply list_elem_of_lookup_2.
Qed.





Lemma drain_entry_safe ids e :
  is_message_request (j_request e) -> record_deletion_safe ids e.
Proof. unfold record_deletion_safe. by destruct (j_request e). Qed.




(** The handler, step by step. *)
Lemma handleClearAllChats_run env st w :
  handleClearAllChats env st w =
    if isClearing st then (Ok tt, w)
    else
      let q1 := confirmMessage (length (chats st)) in
      let q2 := "This is your last chance. Really delete ALL chats?" in
      let w1 := log_event (Confirm q1 (confirm_answer env q1)) w in
      if negb (confirm_answer env q1) then (Ok tt, w1)
      else
        let w2 := log_event (Confirm q2 (confirm_answer env q2)) w1 in
        if negb (confirm_answer env q2) then (Ok tt, w2)
        else
          let w3 := with_sidebar (setIsClearing_state true) w2 in
          let run := try_catch (clearAllBody env (map chat_id (chats st)))
                               (fun _ => ret tt) w3 in
          (run.1, with_sidebar (setIsClearing_state false) run.2).
Proof.
  unfold handleClearAllChats. destruct (isClearing st); [done|].
  unfold bind at 1. unfold confirm at 1. cbn zeta.
  destruct (confirm_answer env (confirmMessage _)); [|done].
  cbv [negb]. cbv beta iota.
  unfold bind at 1. unfold confirm at 1.
  destruct (confirm_answer env "This is your last chance. Really delete ALL chats?");
    [|done].
  cbv [negb]. cbv beta iota.
  unfold bind at 1, setIsClearing, effect, finally.
  by destruct (try_catch _ _ _).
Qed.



End CascadingDeletion.
(** ** Deleting one conversation *)

Module SingleDeletion.
Import Firestore ChatHistory DeletionSpec StoreFacts CascadingDeletion.

(** An iteration that finds a full page deletes it and goes round again. *)
Lemma full_page fuel env chat w :
  (forall n, store_failure env n = None) ->
  batchSize <= pending chat (db_messages w) ->
  exists ids w2,
    deleteMessagesLoop (S fuel) env chat w = deleteMessagesLoop fuel env chat w2
    /\ length ids = batchSize
    /\ trace w2 = trace w ++ [Store (QueryMessages chat batchSize) true;
                              Store (DeleteMessages ids) true]
    /\ pending chat (db_messages w2) + batchSize = pending chat (db_messages w)
    /\ db_chats w2 = db_chats w.
Proof.
  intros Hok Hp. rewrite deleteMessagesLoop_unfold, !Hok. cbn zeta.
  set (page := take batchSize (messages_of chat (db_messages w))).
  assert (Hlen : length page = batchSize).
  { unfold page. rewrite length_take. unfold pending in Hp. lia. }
  rewrite decide_False by (rewrite Hlen; done).
  rewrite Hlen, Nat.ltb_irrefl.
  eexists page.*1, _. split; [reflexivity|].
  split; [by rewrite length_fmap|]. split; [by simpl; rewrite <- app_assoc|].
  split; [|done]. rewrite <- Hlen. apply pending_delete_page.
Qed.

(** An iteration that finds a partial page deletes it and leaves the loop. *)
Lemma last_page fuel env chat w :
  (forall n, store_failure env n = None) ->
  0 < pending chat (db_messages w) < batchSize ->
  exists ids w2,
    deleteMessagesLoop (S fuel) env chat w = (Ok tt, w2)
    /\ length ids = pending chat (db_messages w)
    /\ trace w2 = trace w ++ [Store (QueryMessages chat batchSize) true;
                              Store (DeleteMessages ids) true]
    /\ pending chat (db_messages w2) = 0
    /\ db_chats w2 = db_chats w.
Proof.
  intros Hok Hp. rewrite deleteMessagesLoop_unfold, !Hok. cbn zeta.
  set (page := take batchSize (messages_of chat (db_messages w))).
  assert (Hlen : length page = pending chat (db_messages w)).
  { unfold page. rewrite length_take. unfold pending in *. lia. }
  rewrite decide_False by lia.
  destruct (Nat.ltb_spec (length page) batchSize); [|lia].
  eexists page.*1, _. split; [reflexivity|].
  split; [by rewrite length_fmap|]. split; [by simpl; rewrite <- app_assoc|].
  split; [|done].
  pose proof (pending_delete_page chat (db_messages w) batchSize) as H'.
  simpl in H'. fold page in H'. simpl. lia.
Qed.

(** The handler, step by step. *)
Lemma handleDeleteChat_run env current chat w :
  handleDeleteChat env current chat w =
    let q := "Delete this chat? This cannot be undone." in
    let w0 := log_event (Confirm q (confirm_answer env q)) w in
    if negb (confirm_answer env q) then (Ok tt, w0)
    else try_catch (deleteChatBody env current chat) (fun _ => ret tt) w0.
Proof.
  unfold handleDeleteChat, bind at 1, confirm. cbn zeta.
  by destruct (confirm_answer env _).
Qed.

(** Whatever the store answers, [handleDeleteChat] ends normally, and it
    deletes the chat record only when the store holds no turn of the chat. *)
Lemma handleDeleteChat_safe env current chat w :
  (handleDeleteChat env current chat w).1 = Ok tt
  /\ exists j, journal (handleDeleteChat env current chat w).2 = journal w ++ j
               /\ Forall (record_deletion_safe [chat]) j.
Proof.
  rewrite handleDeleteChat_run. cbn zeta.
  destruct (confirm_answer env _); cbv [negb]; cbv beta iota.
  2:{ split; [done|]. exists []. by rewrite app_nil_r. }
  set (w0 := log_event _ w).
  unfold try_catch, deleteChatBody, bind.
  destruct (deleteMessages_spec env chat w0)
    as ((_ & _ & j1 & Hj1 & HF1) & Hd & Hf).
  assert (HS1 : Forall (record_deletion_safe [chat]) j1).
  { eapply Forall_impl; [exact HF1|]. apply drain_entry_safe. }
  destruct (deleteMessages env chat w0) as [[[]|e|] w1]; simpl in *;
    [|by eauto|done].
  rewrite deleteChat_run.
  destruct (store_failure env (store_calls w1)) as [e|]; simpl.
  - split; [done|]. eexists. split; [by rewrite Hj1, <- app_assoc|].
    apply Forall_app. split; [done|]. by repeat constructor.
  - assert (HS : Forall (record_deletion_safe [chat])
                   (j1 ++ [ {| j_request := DeleteChat chat; j_succeeded := true;
                               j_messages := db_messages w1 |} ])).
    { apply Forall_app. split; [done|]. repeat constructor.
      unfold record_deletion_safe. simpl. intros _. by apply Hd. }
    destruct (decide (Some chat = current)); simpl;
      (split; [done|]); eexists; (split; [|exact HS]);
      by rewrite Hj1, <- app_assoc.
Qed.

(** C5: deleting a chat that holds 450 turns, when the user confirms and no
    request fails: three page queries of size 200, which delete 200, 200 and
    50 turns; the third page is short, so the loop ends; the chat record is
    deleted after that, served by a store that holds no turn of the chat. *)
Theorem delete_chat_450_turns env current chat w :
  reliable env ->
  pending chat (db_messages w) = 450 ->
  exists p1 p2 p3 w',
    handleDeleteChat env current chat w = (Ok tt, w')
    /\ length p1 = 200 /\ length p2 = 200 /\ length p3 = 50
    /\ trace w' =
         trace w ++
         [Confirm "Delete this chat? This cannot be undone." true;
          Store (QueryMessages chat 200) true; Store (DeleteMessages p1) true;
          Store (QueryMessages chat 200) true; Store (DeleteMessages p2) true;
          Store (QueryMessages chat 200) true; Store (DeleteMessages p3) true;
          Store (DeleteChat chat) true]
         ++ (if decide (Some chat = current) then [OnNewChat] else [])
    /\ pending chat (db_messages w') = 0
    /\ db_chats w' = delete chat (db_chats w).
Proof.
  intros [Hok Hyes] Hp.
  rewrite handleDeleteChat_run. cbn zeta. rewrite Hyes.
  cbv [negb]. cbv beta iota.
  set (w0 := log_event _ w).
  assert (Hsize : 450 <= size (db_messages w0)).
  { rewrite <- Hp. apply pending_le_size. }
  unfold try_catch, deleteChatBody, bind at 1, deleteMessages.
  destruct (size (db_messages w0)) as [|[|f]] eqn:Hf; [lia|lia|].
  destruct (full_page (S (S f)) env chat w0 Hok) as (p1 & w1 & E1 & L1 & T1 & P1 & C1).
  { unfold batchSize. simpl. lia. }
  destruct (full_page (S f) env chat w1 Hok) as (p2 & w2 & E2 & L2 & T2 & P2 & C2).
  { unfold batchSize in *. simpl in *. lia. }
  destruct (last_page f env chat w2 Hok) as (p3 & w3 & E3 & L3 & T3 & P3 & C3).
  { unfold batchSize in *. simpl in *. lia. }
  rewrite E1, E2, E3. unfold bind. rewrite deleteChat_run, Hok.
  exists p1, p2, p3.
  destruct (decide (Some chat = current)); eexists; (split; [reflexivity|]);
    unfold batchSize in *; simpl in *;
    (repeat split; try done; try lia);
    try (rewrite T3, T2, T1; by rewrite <- !app_assoc);
    try congruence.
Qed.

Lemma delete_chat_450_turns_witness :
  exists p1 p2 p3 w',
    handleDeleteChat reliable_env (Some "c") "c" world_450 = (Ok tt, w')
    /\ length p1 = 200 /\ length p2 = 200 /\ length p3 = 50
    /\ trace w' =
         trace world_450 ++
         [Confirm "Delete this chat? This cannot be undone." true;
          Store (QueryMessages "c" 200) true; Store (DeleteMessages p1) true;
          Store (QueryMessages "c" 200) true; Store (DeleteMessages p2) true;
          Store (QueryMessages "c" 200) true; Store (DeleteMessages p3) true;
          Store (DeleteChat "c") true]
         ++ (if decide (Some "c" = Some "c") then [OnNewChat] else [])
    /\ pending "c" (db_messages w') = 0
    /\ db_chats w' = delete "c" (db_chats world_450).
Proof.
  apply (delete_chat_450_turns reliable_env (Some "c") "c" world_450).
  - split; reflexivity.
  - vm_compute. reflexivity.
Defined.

End SingleDeletion.

(** ** The synchronisation engine *)

Module Engine.
Import Firestore AIChat EngineSpec BackoffSpec BackoffClient DeletionSpec StoreFacts.

Lemma addMessage_run env data w :
  addMessage env data w =
    match store_failure env (store_calls w) with
    | Some e => (Throw e, served (AddMessage (data (now w))) false (db_messages w) w)
    | None =>
        (Ok (fresh (dom (db_messages w))),
         served (AddMessage (data (now w))) true (db_messages w)
           (tick (with_db_messages
                    (insert (fresh (dom (db_messages w))) (data (now w))) w)))
    end.
Proof. unfold addMessage, call. by destruct (store_failure _ _). Qed.

Lemma updateChat_run env id p w :
  updateChat env id p w =
    match store_failure env (store_calls w) with
    | Some e => (Throw e, served (UpdateChat id p) false (db_messages w) w)
    | None =>
        match db_chats w !! id with
        | Some c =>
            (Ok tt, served (UpdateChat id p) true (db_messages w)
                      (tick (with_db_chats (insert id (apply_patch (now w) p c)) w)))
        | None => (Throw not_found, served (UpdateChat id p) false (db_messages w) w)
        end
    end.
Proof.
  unfold updateChat, call. destruct (store_failure _ _); [done|].
  by destruct (db_chats w !! id).
Qed.

(** The handler on an accepted submission, step by step. *)
Lemma handleSendMessage_run env user st chat w :
  accepted st chat ->
  handleSendMessage env user st w =
    match saveUserMessage env user st chat (JS.trim (input st)) (submitting w) with
    | (Ok _, w1) =>
        let run := try_catch (completeTurn env st chat (JS.trim (input st)))
                             (saveErrorMessage env chat) w1 in
        (run.1, with_app (setIsLoading_state false) run.2)
    | (Throw _, w1) => (Ok tt, with_app (setIsLoading_state false) w1)
    | (OutOfFuel, w1) => (OutOfFuel, w1)
    end.
Proof.
  intros (Hin & Hload & Hchat & Htruthy). unfold handleSendMessage.
  rewrite Hload, orb_false_r.
  replace (negb (JS.truthy (JS.trim (input st)))
           && negb (truthy_opt (selectedImage st))) with false
    by (destruct Hin as [-> | ->]; by rewrite ?andb_false_r).
  rewrite Hchat. cbn [truthy_opt default]. rewrite Htruthy.
  cbv [negb]. cbv beta iota.
  unfold bind at 1, setInput, effect. cbv beta iota.
  unfold bind at 1, setIsLoading, effect. cbv beta iota.
  unfold bind at 1, setUserMessageCount, effect. cbv beta iota.
  change (with_app _ (with_app _ (with_app _ w))) with (submitting w).
  unfold bind at 1, try_catch at 1, bind at 1.
  destruct (saveUserMessage _ _ _ _ _ _) as [[[]|e|] w1]; try done.
  cbv [ret negb]. cbv beta iota. unfold finally.
  by destruct (try_catch _ _ _).
Qed.


(** Step 1 when the write of the user turn fails. *)
Lemma saveUserMessage_fails env user st chat w e :
  store_failure env (store_calls w) = Some e ->
  saveUserMessage env user st chat (JS.trim (input st)) w =
    (Throw e,
     served (AddMessage (user_turn user st chat (now w))) false (db_messages w) w).
Proof.
  intros Hf. unfold saveUserMessage, bind. rewrite addMessage_run, Hf. done.
Qed.

(** Step 1 when both writes succeed. *)
Lemma saveUserMessage_succeeds env user st chat w c :
  store_failure env (store_calls w) = None ->
  store_failure env (S (store_calls w)) = None ->
  db_chats w !! chat = Some c ->
  exists w1,
    saveUserMessage env user st chat (JS.trim (input st)) w = (Ok tt, w1)
    /\ db_messages w1 = <[fresh (dom (db_messages w)) :=
                           user_turn user st chat (now w)]> (db_messages w)
    /\ db_chats w1 = <[chat := apply_patch (S (now w)) (user_patch st) c]> (db_chats w)
    /\ trace w1 = trace w ++ [Store (AddMessage (user_turn user st chat (now w))) true;
                              Store (UpdateChat chat (user_patch st)) true]
    /\ store_calls w1 = 2 + store_calls w
    /\ fetch_calls w1 = fetch_calls w
    /\ now w1 = 2 + now w
    /\ app w1 = app w.
Proof.
  intros H0 H1 Hc. unfold saveUserMessage, bind. rewrite addMessage_run, H0.
  unfold user_patch.
  destruct (decide _); rewrite updateChat_run; cbn; rewrite H1, Hc;
    (eexists; split; [reflexivity|]); cbn; by rewrite <- app_assoc.
Qed.

(** C7: when the write of the user turn fails, the handler ends normally
    with [isLoading] back to [false]; the only call it has made is the failed
    write: no turn is stored (so no error turn either), no chat record is
    touched, and the completion backend is not called. *)
Theorem user_turn_write_failure_aborts env user st chat w e :
  accepted st chat ->
  store_failure env (store_calls w) = Some e ->
  exists w',
    handleSendMessage env user st w = (Ok tt, w')
    /\ isLoading (app w') = false
    /\ db_messages w' = db_messages w
    /\ db_chats w' = db_chats w
    /\ trace w' = trace w ++ [Store (AddMessage (user_turn user st chat (now w))) false]
    /\ fetches (trace w') = fetches (trace w).
Proof.
  intros Hacc Hf. rewrite (handleSendMessage_run _ _ _ _ _ Hacc).
  rewrite (saveUserMessage_fails _ _ _ _ _ e) by exact Hf.
  eexists. split; [reflexivity|]. cbn. repeat split.
  unfold fetches. rewrite List.filter_app. cbn. by rewrite app_nil_r.
Qed.


(** *** What the assistant half of a submission preserves *)

Lemma assistant_phase_refl w : assistant_phase w w.
Proof. repeat split; try done. exists []. by rewrite app_nil_r. Qed.

Lemma assistant_phase_trans w1 w2 w3 :
  assistant_phase w1 w2 -> assistant_phase w2 w3 -> assistant_phase w1 w3.
Proof.
  intros (Ht1 & Hm1 & t1 & Htr1 & HF1) (Ht2 & Hm2 & t2 & Htr2 & HF2).
  split; [congruence|]. split; [by etrans|].
  exists (t1 ++ t2). split; [by rewrite Htr2, Htr1, app_assoc|].
  by apply Forall_app.
Qed.

Lemma keeps_ret {A} (a : A) : keeps assistant_phase (ret a).
Proof. intros w. split; [done | apply assistant_phase_refl]. Qed.

Lemma keeps_throw {A} e : keeps assistant_phase (@throw A e).
Proof. intros w. split; [done | apply assistant_phase_refl]. Qed.

Lemma keeps_bind {A B} (m : M A) (k : A -> M B) :
  keeps assistant_phase m -> (forall a, keeps assistant_phase (k a)) ->
  keeps assistant_phase (bind m k).
Proof.
  intros Hm Hk w. unfold bind. destruct (Hm w) as [Hf Hp].
  destruct (m w) as [[a|e|] w1]; simpl in *; try done.
  destruct (Hk a w1) as [Hf' Hp']. split; [done|].
  by eapply assistant_phase_trans.
Qed.

Lemma keeps_try_catch {A} (m : M A) (h : js_error -> M A) :
  keeps assistant_phase m -> (forall e, keeps assistant_phase (h e)) ->
  keeps assistant_phase (try_catch m h).
Proof.
  intros Hm Hh w. unfold try_catch. destruct (Hm w) as [Hf Hp].
  destruct (m w) as [[a|e|] w1]; simpl in *; try done.
  destruct (Hh e w1) as [Hf' Hp']. split; [done|].
  by eapply assistant_phase_trans.
Qed.

Lemma keeps_app_effect (f : app_state -> app_state) :
  keeps assistant_phase (effect (with_app f)).
Proof.
  intros w. repeat split; try done. exists []. simpl. by rewrite app_nil_r.
Qed.

Lemma keeps_emit e :
  sets_title e = false -> keeps assistant_phase (emit e).
Proof.
  intros He w. repeat split; try done. exists [e]. split; [done|].
  by constructor.
Qed.

Lemma keeps_fetch env url p : keeps assistant_phase (fetch env url p).
Proof.
  intros w. unfold fetch.
  assert (assistant_phase w (count_fetch (log_event (Fetch url p) w))).
  { repeat split; try done. exists [Fetch url p]. split; [done|].
    by constructor. }
  by destruct (fetch_reply env (fetch_calls w)).
Qed.

Lemma keeps_attempt env url p : keeps assistant_phase (attempt env url p).
Proof.
  apply keeps_bind; [apply keeps_fetch|]. intros r.
  destruct (ok r); [apply keeps_ret|].
  destruct (_ <? _); [|apply keeps_throw].
  apply keeps_bind; [|intros; apply keeps_throw].
  unfold responseBodyText.
  destruct (resp_body r); first [apply keeps_ret | apply keeps_throw].
Qed.

Lemma keeps_fetch_loop env url p retries i k :
  keeps assistant_phase (fetch_loop env url p retries i k).
Proof.
  revert i. induction k as [|k IH]; intros i; [apply keeps_ret|].
  cbn [fetch_loop]. apply keeps_bind.
  - apply keeps_try_catch.
    + apply keeps_bind; [apply keeps_attempt|]. intros. apply keeps_ret.
    + intros e. unfold on_failure. destruct (_ <? _); [|apply keeps_throw].
      apply keeps_bind; [by apply keeps_emit|]. intros. apply keeps_ret.
  - intros [r|]; [apply keeps_ret | apply IH].
Qed.

Lemma keeps_fetchWithRetries env url p retries :
  keeps assistant_phase (fetchWithRetries env url p retries).
Proof. apply keeps_fetch_loop. Qed.

Lemma served_phase r ok m w0 w :
  sets_title (Store r ok) = false ->
  assistant_phase w0 w -> assistant_phase w0 (served r ok m w).
Proof.
  intros Hs H. eapply assistant_phase_trans; [exact H|].
  repeat split; try done. exists [Store r ok]. split; [done|].
  by constructor.
Qed.

Lemma keeps_addMessage env data : keeps assistant_phase (addMessage env data).
Proof.
  intros w. rewrite addMessage_run.
  destruct (store_failure env (store_calls w)); simpl; (split; [done|]).
  - apply served_phase; [done | apply assistant_phase_refl].
  - apply served_phase; [done|]. split; [done|]. split.
    + simpl. apply insert_subseteq, not_elem_of_dom, is_fresh.
    + exists []. by rewrite app_nil_r.
Qed.

Lemma title_apply_patch stamp p c :
  p_title p = None -> title (apply_patch stamp p c) = title c.
Proof. unfold apply_patch. simpl. by intros ->. Qed.

Lemma title_apply_patch_set stamp p c t :
  p_title p = Some t -> title (apply_patch stamp p c) = Some t.
Proof. unfold apply_patch. simpl. by intros ->. Qed.

Lemma keeps_updateChat env id p :
  p_title p = None -> keeps assistant_phase (updateChat env id p).
Proof.
  intros Hp w. rewrite updateChat_run.
  assert (Hs : forall b, sets_title (Store (UpdateChat id p) b) = false).
  { intros []; simpl; by rewrite ?Hp. }
  destruct (store_failure env (store_calls w)); simpl.
  { split; [done|]. apply served_phase; [done | apply assistant_phase_refl]. }
  destruct (db_chats w !! id) as [c|] eqn:Hc; simpl; (split; [done|]).
  2:{ apply served_phase; [done | apply assistant_phase_refl]. }
  apply served_phase; [done|]. split; [|split; [done|]].
  - unfold titles. simpl. rewrite fmap_insert, title_apply_patch by done.
    apply insert_id. by rewrite lookup_fmap, Hc.
  - exists []. by rewrite app_nil_r.
Qed.

Lemma keeps_preparePayload st trimmedInput :
  keeps assistant_phase (preparePayload st trimmedInput).
Proof.
  unfold preparePayload.
  destruct (truthy_opt (selectedImage st)); [|apply keeps_ret].
  apply keeps_bind; [apply keeps_app_effect|]. intros. apply keeps_ret.
Qed.

Lemma keeps_responseText r : keeps assistant_phase (responseText r).
Proof.
  unfold responseText. destruct r as [r|]; [|apply keeps_throw].
  destruct (resp_body r) as [e|[t|]|e];
    [apply keeps_throw | apply keeps_ret | apply keeps_ret | apply keeps_throw].
Qed.

Lemma keeps_completeTurn env st chat trimmedInput :
  keeps assistant_phase (completeTurn env st chat trimmedInput).
Proof.
  unfold completeTurn.
  apply keeps_bind; [apply keeps_preparePayload|]. intros [url p].
  apply keeps_bind; [apply keeps_fetchWithRetries|]. intros r.
  apply keeps_bind; [apply keeps_responseText|]. intros t.
  destruct (extractImageRequest t) as [aiText url'].
  apply keeps_bind; [apply keeps_addMessage|]. intros ref.
  apply keeps_bind; [by apply keeps_updateChat|]. intros _.
  destruct (speechEnabled st); [by apply keeps_emit | apply keeps_ret].
Qed.

Lemma keeps_saveErrorMessage env chat e :
  keeps assistant_phase (saveErrorMessage env chat e).
Proof.
  unfold saveErrorMessage. apply keeps_try_catch.
  - apply keeps_bind; [apply keeps_addMessage|]. intros ref.
    by apply keeps_updateChat.
  - intros. apply keeps_ret.
Qed.

(** The [catch] block swallows its own failures. *)
Lemma saveErrorMessage_ok env chat e w :
  (saveErrorMessage env chat e w).1 = Ok tt.
Proof.
  destruct (keeps_saveErrorMessage env chat e w) as [Hf _].
  unfold saveErrorMessage, try_catch in *.
  by destruct (bind _ _ w) as [[[]|e'|] w'].
Qed.

(** Steps 2 to 6 with their [catch]: always a normal end. *)
Lemma assistant_half env st chat trimmedInput w :
  (try_catch (completeTurn env st chat trimmedInput)
             (saveErrorMessage env chat) w).1 = Ok tt
  /\ assistant_phase w
       (try_catch (completeTurn env st chat trimmedInput)
                  (saveErrorMessage env chat) w).2.
Proof.
  split.
  2:{ apply keeps_try_catch; [apply keeps_completeTurn|].
      intros e. apply keeps_saveErrorMessage. }
  destruct (keeps_completeTurn env st chat trimmedInput w) as [Hf _].
  unfold try_catch.
  destruct (completeTurn env st chat trimmedInput w) as [[[]|e|] w1];
    simpl in *; try done.
  apply saveErrorMessage_ok.
Qed.

(** The handler never throws and never leaves [isLoading] set, on an
    accepted submission. *)
Lemma handleSendMessage_ends env user st chat w :
  accepted st chat ->
  (handleSendMessage env user st w).1 = Ok tt
  /\ isLoading (app (handleSendMessage env user st w).2) = false.
Proof.
  intros Hacc. rewrite (handleSendMessage_run _ _ _ _ _ Hacc).
  assert (Hk : keeps assistant_phase
                 (addMessage env (user_turn user st chat))) by apply keeps_addMessage.
  destruct (saveUserMessage env user st chat (JS.trim (input st)) (submitting w))
    as [[[]|e|] w1] eqn:E.
  - cbn zeta. destruct (assistant_half env st chat (JS.trim (input st)) w1) as [-> _].
    done.
  - done.
  - exfalso. revert E. unfold saveUserMessage, bind.
    rewrite addMessage_run. destruct (store_failure _ _); [done|].
    destruct (decide _); rewrite updateChat_run; cbn;
      destruct (store_failure _ _); try done;
      by destruct (_ !! chat).
Qed.


(** *** The completion call *)

Lemma attempt_ok env url p w r :
  fetch_reply env (fetch_calls w) = Resolved r -> ok r = true ->
  attempt env url p w = (Ok r, count_fetch (log_event (Fetch url p) w)).
Proof.
  intros Hr Hok. unfold attempt, bind, fetch. by rewrite Hr, Hok.
Qed.

(** An [ok] response after fewer than three failures is returned. *)
Lemma fetchWithRetries_ok env url p w k r :
  k < 3 ->
  (forall i, i < k -> failing (fetch_reply env (fetch_calls w + i)) = true) ->
  fetch_reply env (fetch_calls w + k) = Resolved r ->
  ok r = true ->
  exists w', fetchWithRetries env url p 3 w = (Ok (Some r), w')
             /\ same_store w w'.
Proof.
  intros Hk Hfail Hr Hok.
  unfold fetchWithRetries, fetch_loop, bind, try_catch.
  destruct k as [|[|[|k]]]; [| | |lia].
  - rewrite Nat.add_0_r in Hr.
    rewrite (attempt_ok _ _ _ _ r) by done. by eexists.
  - rewrite attempt_failing
      by (rewrite <- (Nat.add_0_r (fetch_calls w)); apply Hfail; lia).
    cbn -[attempt].
    rewrite (attempt_ok _ _ _ _ r); [by eexists | | done].
    cbn. by rewrite <- Nat.add_1_r.
  - rewrite attempt_failing
      by (rewrite <- (Nat.add_0_r (fetch_calls w)); apply Hfail; lia).
    cbn -[attempt].
    rewrite attempt_failing
      by (cbn; rewrite <- Nat.add_1_r; apply Hfail; lia).
    cbn -[attempt].
    rewrite (attempt_ok _ _ _ _ r); [by eexists | | done].
    cbn. rewrite <- Hr. f_equal. lia.
Qed.

(** Steps 2 to 6 when the completion call fails: the error is thrown and
    the store is as it was. *)
Lemma completeTurn_fails env st chat trimmedInput w e :
  completion_fails env (fetch_calls w) e ->
  exists w2, completeTurn env st chat trimmedInput w = (Throw e, w2)
             /\ same_store w w2.
Proof.
  intros Hfail. unfold completeTurn, default_retries. unfold bind at 1.
  assert (exists url p w0,
             preparePayload st trimmedInput w = (Ok (url, p), w0)
             /\ same_store w w0 /\ fetch_calls w0 = fetch_calls w)
    as (url & p & w0 & -> & Hs0 & Hf0).
  { unfold preparePayload. destruct (truthy_opt (selectedImage st));
      by repeat eexists. }
  destruct Hs0 as (Hm0 & Hc0 & Hn0 & Ht0).
  unfold bind at 1. destruct Hfail as [H0 H1 H2 | k r e Hk Hbefore Hr Hok Hbody].
  - rewrite three_failures by (by rewrite Hf0).
    rewrite Hf0. eexists. split; [reflexivity|]. by repeat split.
  - destruct (fetchWithRetries_ok env url p w0 k r) as (w' & -> & Hs');
      [done | by rewrite Hf0 | by rewrite Hf0 | done |].
    unfold bind, responseText.
    destruct Hbody as [Hbody|Hbody]; rewrite Hbody;
      (eexists; split; [reflexivity|]);
      destruct Hs' as (? & ? & ? & ?); repeat split; congruence.
Qed.

(** The [catch] block when both of its writes succeed, and when the first
    one fails. *)
Lemma saveErrorMessage_saved env chat e w c :
  store_failure env (store_calls w) = None ->
  store_failure env (S (store_calls w)) = None ->
  db_chats w !! chat = Some c ->
  exists w3,
    saveErrorMessage env chat e w = (Ok tt, w3)
    /\ db_messages w3 = <[fresh (dom (db_messages w)) := error_turn chat e (now w)]>
                          (db_messages w)
    /\ db_chats w3 = <[chat := apply_patch (S (now w)) error_patch c]> (db_chats w).
Proof.
  intros H0 H1 Hc. unfold saveErrorMessage, try_catch, bind.
  rewrite addMessage_run, H0, updateChat_run. cbn. rewrite H1, Hc.
  by eexists.
Qed.

Lemma saveErrorMessage_turn_only env chat e w :
  store_failure env (store_calls w) = None ->
  exists w3,
    saveErrorMessage env chat e w = (Ok tt, w3)
    /\ db_messages w3 = <[fresh (dom (db_messages w)) := error_turn chat e (now w)]>
                          (db_messages w).
Proof.
  intros H0. unfold saveErrorMessage, try_catch, bind.
  rewrite addMessage_run, H0, updateChat_run. cbn.
  destruct (store_failure env (S (store_calls w))); [by eexists|].
  destruct (db_chats w !! chat); by eexists.
Qed.

Lemma saveErrorMessage_swallowed env chat e w e' :
  store_failure env (store_calls w) = Some e' ->
  exists w3,
    saveErrorMessage env chat e w = (Ok tt, w3)
    /\ db_messages w3 = db_messages w /\ db_chats w3 = db_chats w.
Proof.
  intros H0. unfold saveErrorMessage, try_catch, bind.
  rewrite addMessage_run, H0. by eexists.
Qed.


(** The completion call that starts with the [f]-th fetch either fails in
    the sense of [completion_fails], or one of its three attempts is
    answered by an [ok] response whose body is the expected object. *)
Lemma completion_call_outcomes env f :
  (exists e, completion_fails env f e)
  \/ (exists k r first_text,
         k < 3
         /\ (forall i, i < k -> failing (fetch_reply env (f + i)) = true)
         /\ fetch_reply env (f + k) = Resolved r
         /\ ok r = true
         /\ resp_body r = Candidates first_text).
Proof.
  assert (Hstep : forall k, k < 3 ->
            (forall i, i < k -> failing (fetch_reply env (f + i)) = true) ->
            failing (fetch_reply env (f + k)) = false ->
            (exists e, completion_fails env f e)
            \/ (exists k r first_text,
                   k < 3
                   /\ (forall i, i < k -> failing (fetch_reply env (f + i)) = true)
                   /\ fetch_reply env (f + k) = Resolved r
                   /\ ok r = true
                   /\ resp_body r = Candidates first_text)).
  { intros k Hk Hbefore Hk'. unfold failing in Hk'.
    destruct (fetch_reply env (f + k)) as [e|r] eqn:Hr; [done|].
    apply negb_false_iff in Hk'.
    destruct (resp_body r) as [e|first_text|e] eqn:Hb.
    - left. exists e. apply (unreadable_body env f k r e); auto.
    - right. by exists k, r, first_text.
    - left. exists e. apply (unreadable_body env f k r e); auto. }
  destruct (failing (fetch_reply env (f + 0))) eqn:H0.
  2:{ apply (Hstep 0); [lia | intros; lia | done]. }
  destruct (failing (fetch_reply env (f + 1))) eqn:H1.
  2:{ apply (Hstep 1); [lia | | done].
      intros i Hi. by replace i with 0 by lia. }
  destruct (failing (fetch_reply env (f + 2))) eqn:H2.
  2:{ apply (Hstep 2); [lia | | done].
      intros [|i] Hi; [done|]. by replace i with 0 by lia. }
  left. eexists. rewrite Nat.add_0_r in H0.
  replace (f + 1) with (S f) in H1 by lia.
  replace (f + 2) with (S (S f)) in H2 by lia.
  by apply retries_exhausted.
Qed.

(** C6: on an accepted submission whose user turn is written, when the
    completion call ends with the error [e], the handler ends normally with
    [isLoading] back to [false].  The call ends with [e] when its three
    attempts fail and [e] is what the third one threw (the rejection of
    [fetch]; for a status below 500, the rejection of [response.text()] when
    the body cannot be read and the client error otherwise; the server error
    from status 500 on), or when an attempt is answered by an [ok] response
    on which [response.json()] rejects with [e].  If the store takes the next
    write, the turns are those before the submission, the user turn and the
    assistant turn [error_turn chat e] (flagged [isError], its text built
    around [err_message e]); if it also takes the write after that, the chat
    record has the preview "Error occurred" and the last sender [from_ai].
    If the store refuses the error turn, the handler still ends normally and
    the turns are those before the submission and the user turn.  These are
    all the ways the call can fail: a completion call that does not end with
    an error in this sense is answered by a readable [ok] response. *)
Theorem completion_error_becomes_error_turn env user st chat w c e :
  accepted st chat ->
  db_chats w !! chat = Some c ->
  store_failure env (store_calls w) = None ->
  store_failure env (S (store_calls w)) = None ->
  completion_fails env (fetch_calls w) e ->
  (handleSendMessage env user st w).1 = Ok tt
  /\ isLoading (app (handleSendMessage env user st w).2) = false
  /\ (store_failure env (2 + store_calls w) = None ->
      db_messages (handleSendMessage env user st w).2 =
        <[fresh (dom (<[fresh (dom (db_messages w)) :=
                         user_turn user st chat (now w)]> (db_messages w))) :=
            error_turn chat e (2 + now w)]>
          (<[fresh (dom (db_messages w)) := user_turn user st chat (now w)]>
             (db_messages w))
      /\ (store_failure env (3 + store_calls w) = None ->
          exists c', db_chats (handleSendMessage env user st w).2 !! chat = Some c'
                     /\ lastMessage c' = "Error occurred"
                     /\ lastSender c' = Some from_ai))
  /\ (store_failure env (2 + store_calls w) <> None ->
      db_messages (handleSendMessage env user st w).2 =
        <[fresh (dom (db_messages w)) := user_turn user st chat (now w)]>
          (db_messages w))
  /\ (forall f,
        (exists e', completion_fails env f e')
        \/ (exists k r first_text,
               k < 3
               /\ (forall i, i < k ->
                     BackoffSpec.failing (fetch_reply env (f + i)) = true)
               /\ fetch_reply env (f + k) = Resolved r
               /\ ok r = true
               /\ resp_body r = Candidates first_text)).
Proof.
  intros Hacc Hc H0 H1 Hfail.
  destruct (handleSendMessage_ends env user st chat w Hacc) as [Hok Hidle].
  split; [done|]. split; [done|].
  assert (Hcases := completion_call_outcomes env).
  rewrite (handleSendMessage_run _ _ _ _ _ Hacc).
  destruct (saveUserMessage_succeeds env user st chat (submitting w) c)
    as (w1 & -> & Hm1 & Hc1 & _ & Hs1 & Hf1 & Hn1 & _); try done.
  cbn zeta. unfold try_catch.
  destruct (completeTurn_fails env st chat (JS.trim (input st)) w1 e)
    as (w2 & -> & Hm2 & Hc2 & Hs2 & Hn2); [by rewrite Hf1|].
  cbn in Hm1, Hc1, Hs1, Hn1.
  assert (Hchat : db_chats w2 !! chat
                  = Some (apply_patch (S (now w)) (user_patch st) c)).
  { by rewrite Hc2, Hc1, lookup_insert_eq. }
  split.
  - intros H2. split.
    + destruct (saveErrorMessage_turn_only env chat e w2) as (w3 & -> & Hm3);
        [by rewrite Hs2, Hs1|].
      cbn. by rewrite Hm3, Hm2, Hm1, Hn2, Hn1.
    + intros H3.
      destruct (saveErrorMessage_saved env chat e w2 _
                  ltac:(by rewrite Hs2, Hs1) ltac:(by rewrite Hs2, Hs1) Hchat)
        as (w3 & -> & _ & Hc3).
      cbn. rewrite Hc3, lookup_insert_eq. by eexists.
  - split; [|exact Hcases].
    intros H2. destruct (store_failure env (2 + store_calls w)) as [e'|] eqn:E;
      [|done].
    destruct (saveErrorMessage_swallowed env chat e w2 e') as (w3 & -> & Hm3 & _);
      [by rewrite Hs2, Hs1|].
    cbn. by rewrite Hm3, Hm2, Hm1.
Qed.


(** *** The view and the log *)

Lemma snapshot_of_empty_log user chat db :
  pending chat db = 0 -> snapshot_messages user chat db = [welcome user].
Proof.
  unfold pending. intros H%length_zero_iff_nil.
  unfold snapshot_messages. by rewrite H.
Qed.

Lemma snapshot_of_log user chat db :
  0 < pending chat db ->
  List.filter (fun m => negb (msg_isWelcome m)) (snapshot_messages user chat db)
  = snapshot_messages user chat db
  /\ length (snapshot_messages user chat db) = pending chat db.
Proof.
  unfold pending, snapshot_messages. intros Hp.
  set (sorted := merge_sort by_createdAt (messages_of chat db)).
  assert (Hlen : length sorted = length (messages_of chat db)).
  { apply Permutation_length, merge_sort_Permutation. }
  rewrite length_map, Hlen.
  rewrite decide_False by lia. rewrite length_map. split; [|exact Hlen].
  clear Hlen. induction sorted as [|x l IH]; simpl; [done|]. by rewrite IH.
Qed.

Lemma pending_pos chat (m : gmap string message_doc) i d :
  m !! i = Some d -> chatId d = chat -> 0 < pending chat m.
Proof.
  intros Hl Hc. rewrite pending_size.
  assert (size (filter (fun kv => chatId kv.2 = chat) m) ≠ 0); [|lia].
  apply (map_size_ne_0_lookup_2 _ i). exists d.
  by apply map_lookup_filter_Some.
Qed.

Lemma pending_pos_mono chat (m m' : gmap string message_doc) :
  m ⊆ m' -> 0 < pending chat m -> 0 < pending chat m'.
Proof.
  rewrite pending_size. intros Hsub Hp.
  destruct (map_choose (filter (fun kv => chatId kv.2 = chat) m))
    as (i & d & Hl).
  { intros Hempty. rewrite Hempty, map_size_empty in Hp. lia. }
  apply map_lookup_filter_Some in Hl as [Hl Hc].
  eapply (pending_pos chat m' i d); [|done]. by eapply lookup_weaken.
Qed.

(** The first call of the assistant half on the text endpoint is the fetch
    of the text request. *)
Lemma fetch_loop_first env url p retries i k w :
  assistant_phase (count_fetch (log_event (Fetch url p) w))
    (fetch_loop env url p retries i (S k) w).2.
Proof.
  cbn [fetch_loop]. unfold bind at 1, try_catch, bind at 1, attempt, bind at 1.
  unfold fetch. set (wf := count_fetch _).
  destruct (fetch_reply env (fetch_calls w)) as [e|r].
  - destruct (keeps_bind (on_failure retries i e)
                (fun r => match r with
                          | Some response => ret (Some response)
                          | None => fetch_loop env url p retries (S i) k
                          end)) with (w := wf) as [_ H].
    + unfold on_failure. destruct (_ <? _); [|apply keeps_throw].
      apply keeps_bind; [by apply keeps_emit|]. intros. apply keeps_ret.
    + intros [r|]; [apply keeps_ret | apply keeps_fetch_loop].
    + exact H.
  - destruct (ok r); [apply assistant_phase_refl|].
    assert (forall e,
      assistant_phase wf
        (bind (on_failure retries i e)
           (fun r => match r with
                     | Some response => ret (Some response)
                     | None => fetch_loop env url p retries (S i) k
                     end) wf).2) as H.
    { intros e. apply keeps_bind.
      - unfold on_failure. destruct (_ <? _); [|apply keeps_throw].
        apply keeps_bind; [by apply keeps_emit|]. intros. apply keeps_ret.
      - intros [r'|]; [apply keeps_ret | apply keeps_fetch_loop]. }
    destruct (status r <? 500); [|apply H].
    unfold responseBodyText, bind. destruct (resp_body r); apply H.
Qed.

Lemma fetchWithRetries_first env url p k w :
  assistant_phase (count_fetch (log_event (Fetch url p) w))
    (fetchWithRetries env url p (S k) w).2.
Proof. apply fetch_loop_first. Qed.

Lemma assistant_half_first_fetch env st chat trimmedInput w :
  truthy_opt (selectedImage st) = false ->
  assistant_phase
    (count_fetch (log_event (Fetch API_URL (textPayload st trimmedInput)) w))
    (try_catch (completeTurn env st chat trimmedInput)
               (saveErrorMessage env chat) w).2.
Proof.
  intros Himg. unfold completeTurn, preparePayload. rewrite Himg.
  unfold bind at 1. cbn [ret].
  pose proof (fetchWithRetries_first env API_URL
                (textPayload st trimmedInput) 2 w) as Hfirst.
  unfold default_retries.
  unfold try_catch, bind at 1.
  destruct (fetchWithRetries env API_URL (textPayload st trimmedInput) 3 w)
    as [[r|e|] w1]; cbn [snd] in Hfirst.
  - set (K := bind (responseText r) _).
    assert (HK : keeps assistant_phase K).
    { unfold K. apply keeps_bind; [apply keeps_responseText|]. intros t.
      destruct (extractImageRequest t) as [aiText url'].
      apply keeps_bind; [apply keeps_addMessage|]. intros ref.
      apply keeps_bind; [by apply keeps_updateChat|]. intros _.
      destruct (speechEnabled st); [by apply keeps_emit | apply keeps_ret]. }
    destruct (HK w1) as [_ H1].
    destruct (K w1) as [[[]|e|] w2]; simpl in *.
    + by eapply assistant_phase_trans.
    + eapply assistant_phase_trans; [exact Hfirst|].
      eapply assistant_phase_trans; [exact H1|].
      apply keeps_saveErrorMessage.
    + by eapply assistant_phase_trans.
  - eapply assistant_phase_trans; [exact Hfirst|].
    apply keeps_saveErrorMessage.
  - done.
Qed.

(** C10: a text submission on a chat whose log is empty, made from the view
    of that log.  After the two writes of the user turn, the first call is
    the fetch of the text endpoint, and the history it sends starts with the
    welcome turn of the view, under the role "model", followed by the new
    user text. *)
Theorem welcome_turn_is_sent_as_history env user st chat w c :
  accepted st chat ->
  truthy_opt (selectedImage st) = false ->
  pending chat (db_messages w) = 0 ->
  messages st = snapshot_messages user chat (db_messages w) ->
  db_chats w !! chat = Some c ->
  store_failure env (store_calls w) = None ->
  store_failure env (S (store_calls w)) = None ->
  exists p rest,
    trace (handleSendMessage env user st w).2 =
      trace w ++ [Store (AddMessage (user_turn user st chat (now w))) true;
                  Store (UpdateChat chat (user_patch st)) true;
                  Fetch API_URL p] ++ rest
    /\ contents p =
         [ {| role := Some "model";
              parts := [TextPart ("Hello " +:+ opt_or (name user) "there"
                                    +:+ "! I'm your AI assistant. Ask me anything!")] |};
           {| role := Some "user";
              parts := [TextPart (JS.trim (input st))] |} ].
Proof.
  intros Hacc Himg Hempty Hview Hc H0 H1.
  rewrite (handleSendMessage_run _ _ _ _ _ Hacc).
  destruct (saveUserMessage_succeeds env user st chat (submitting w) c)
    as (w1 & -> & _ & _ & Htr1 & _); try done.
  cbn zeta.
  destruct (assistant_half_first_fetch env st chat (JS.trim (input st)) w1 Himg)
    as (_ & _ & rest & Htr & _).
  exists (textPayload st (JS.trim (input st))), rest. split.
  - cbn [snd trace with_app]. rewrite Htr. cbn. rewrite Htr1. cbn.
    by rewrite <- !app_assoc.
  - unfold textPayload. rewrite Hview, snapshot_of_empty_log by done. done.
Qed.


(** *** The title *)

Lemma keeps_saveUserMessage_later env user st chat :
  length (List.filter (fun m => negb (msg_isWelcome m)) (messages st)) <> 0 ->
  keeps assistant_phase (saveUserMessage env user st chat (JS.trim (input st))).
Proof.
  intros Hview. unfold saveUserMessage.
  apply keeps_bind; [apply keeps_addMessage|]. intros ref.
  rewrite decide_False by done. by apply keeps_updateChat.
Qed.

Lemma no_title_event (t : list event) :
  Forall (fun e => sets_title e = false) t -> List.filter sets_title t = [].
Proof.
  induction 1 as [|e t He _ IH]; simpl; [done|]. by rewrite He.
Qed.

(** Submissions made from the view that the subscription delivers.  (1) The
    first submission of a conversation (empty log, view of that log), when
    its two writes succeed, leaves the chat with the title [chatTitle] of
    the trimmed input, by the one title write of the run, and the log is no
    longer empty.  (2) Any submission made from the view of a log that is
    not empty writes no title and leaves every title as it was, whatever the
    store and the backend answer; the log stays non-empty. *)
Lemma title_from_the_delivered_view env user chat :
  (forall st w c,
      accepted st chat ->
      pending chat (db_messages w) = 0 ->
      messages st = snapshot_messages user chat (db_messages w) ->
      db_chats w !! chat = Some c ->
      store_failure env (store_calls w) = None ->
      store_failure env (S (store_calls w)) = None ->
      title <$> db_chats (handleSendMessage env user st w).2 !! chat
        = Some (Some (chatTitle (JS.trim (input st))))
      /\ 0 < pending chat (db_messages (handleSendMessage env user st w).2)
      /\ exists t, trace (handleSendMessage env user st w).2 = trace w ++ t
                   /\ length (List.filter sets_title t) = 1)
  /\ (forall st w,
         accepted st chat ->
         0 < pending chat (db_messages w) ->
         messages st = snapshot_messages user chat (db_messages w) ->
         titles (handleSendMessage env user st w).2 = titles w
         /\ 0 < pending chat (db_messages (handleSendMessage env user st w).2)
         /\ exists t, trace (handleSendMessage env user st w).2 = trace w ++ t
                      /\ List.filter sets_title t = []).
Proof.
  split.
  - intros st w c Hacc Hempty Hview Hc H0 H1.
    rewrite (handleSendMessage_run _ _ _ _ _ Hacc).
    destruct (saveUserMessage_succeeds env user st chat (submitting w) c)
      as (w1 & -> & Hm1 & Hc1 & Htr1 & _); try done.
    cbn zeta.
    destruct (assistant_half env st chat (JS.trim (input st)) w1)
      as (_ & Ht & Hm & t & Htr & HF).
    set (w2 := (try_catch _ _ w1).2) in *.
    cbn [snd db_chats db_messages trace with_app].
    assert (Hpatch : p_title (user_patch st)
                     = Some (chatTitle (JS.trim (input st)))).
    { unfold user_patch. rewrite Hview, snapshot_of_empty_log by done. done. }
    split; [|split].
    + change (db_chats w2) with (db_chats w2).
      assert (titles w2 !! chat = Some (Some (chatTitle (JS.trim (input st)))))
        as Hl.
      { rewrite Ht. unfold titles. rewrite Hc1, lookup_fmap, lookup_insert_eq.
        cbn [fmap option_fmap option_map].
        by rewrite (title_apply_patch_set _ _ _ _ Hpatch). }
      unfold titles in Hl. by rewrite lookup_fmap in Hl.
    + eapply pending_pos_mono; [exact Hm|].
      eapply (pending_pos chat _ (fresh (dom (db_messages w)))).
      * rewrite Hm1. cbn. apply lookup_insert_eq.
      * done.
    + eexists. split.
      * rewrite Htr, Htr1. cbn. rewrite <- app_assoc. reflexivity.
      * rewrite List.filter_app, (no_title_event t HF).
        cbn [List.filter sets_title app]. by rewrite Hpatch.
  - intros st w Hacc Hp Hview.
    rewrite (handleSendMessage_run _ _ _ _ _ Hacc).
    destruct (snapshot_of_log user chat (db_messages w) Hp) as [Hfilter Hlen].
    assert (Hnw : length (List.filter (fun m => negb (msg_isWelcome m))
                                      (messages st)) <> 0).
    { rewrite Hview, Hfilter, Hlen. lia. }
    destruct (keeps_saveUserMessage_later env user st chat Hnw (submitting w))
      as [Hf1 H1].
    assert (Hfinal : forall w', assistant_phase w w' ->
              titles w' = titles w /\ 0 < pending chat (db_messages w')
              /\ exists t, trace w' = trace w ++ t
                           /\ List.filter sets_title t = []).
    { intros w' (Ht & Hm & t & Htr & HF). split; [done|]. split.
      - by eapply pending_pos_mono.
      - exists t. split; [done|]. by apply no_title_event. }
    destruct (saveUserMessage env user st chat (JS.trim (input st)) (submitting w))
      as [[[]|e|] w1]; [| |done].
    + cbn zeta.
      destruct (assistant_half env st chat (JS.trim (input st)) w1) as [_ H2].
      apply Hfinal. eapply assistant_phase_trans; [exact H1|]. exact H2.
    + apply Hfinal. exact H1.
Qed.



(** C4 (the code departs from it): the handler looks for earlier turns in
    the view of the component, not in the log.  A first question of 54
    characters gives the chat ["c"] its title, the first 40 characters and
    three dots, and the answer arrives; the view then shows both turns.  A
    click on the chat in the sidebar ([handleSelectChat]) empties the view
    while the log keeps its two turns, and no new snapshot follows, the
    chat being the current one already.  The next submission finds no turn
    in its view and writes the title again: the title is set twice, and the
    first title is lost.  The same submission made from the delivered view
    leaves the title as it was. *)
Theorem title_is_rewritten_after_select :
  let env := TurnSpec.answering "Sure." in
  let w1 := deliver_snapshot demo_user (submit env demo_user TurnSpec.asking_world).2 in
  let w2 := (setInput "Second question"
               (ChatActions.handleSelectChat "c" w1).2).2 in
  let w3 := (submit env demo_user w2).2 in
  let unselected := (submit env demo_user (setInput "Second question" w1).2).2 in
  title <$> db_chats w1 !! "c"
    = Some (Some "Please explain how exponential backoff w...")
  /\ map msg_text (messages (app w1)) = [TurnSpec.long_question; "Sure."]
  /\ messages (app w2) = []
  /\ pending "c" (db_messages w2) = 2
  /\ title <$> db_chats w3 !! "c" = Some (Some "Second question")
  /\ pending "c" (db_messages w3) = 4
  /\ length (List.filter sets_title (trace w3)) = 2
  /\ title <$> db_chats unselected !! "c"
     = Some (Some "Please explain how exponential backoff w...")
  /\ length (List.filter sets_title (trace unselected)) = 1.
Proof. vm_compute. repeat split. Qed.

(** *** Concrete runs *)

Lemma user_turn_write_failure_aborts_witness :
  exists w',
    handleSendMessage store_down demo_user (demo_state "hi") demo_world = (Ok tt, w')
    /\ isLoading (app w') = false
    /\ db_messages w' = db_messages demo_world
    /\ db_chats w' = db_chats demo_world
    /\ trace w' = trace demo_world
                  ++ [Store (AddMessage (user_turn demo_user (demo_state "hi") "c"
                                                   (now demo_world))) false]
    /\ fetches (trace w') = fetches (trace demo_world).
Proof.
  apply (user_turn_write_failure_aborts store_down demo_user (demo_state "hi")
           "c" demo_world (Error "unavailable")).
  - repeat split. by left.
  - reflexivity.
Defined.

Lemma completion_error_becomes_error_turn_witness :
  let env := ScheduleSpec.unreadable_status 404 (Error "boom") in
  let run := handleSendMessage env demo_user (demo_state "hi") demo_world in
  run.1 = Ok tt
  /\ isLoading (app run.2) = false
  /\ db_messages run.2 =
       <[ "1" := error_turn "c" (Error "boom") 1002 ]>
         (<[ "0" := user_turn demo_user (demo_state "hi") "c" 1000 ]> ∅)
  /\ text (error_turn "c" (Error "boom") 1002)
     = "I encountered an error: boom. Please try again or check your connection."
  /\ (exists c', db_chats run.2 !! "c" = Some c'
                 /\ lastMessage c' = "Error occurred"
                 /\ lastSender c' = Some from_ai).
Proof.
  intros env run.
  destruct (completion_error_becomes_error_turn env demo_user
              (demo_state "hi") "c" demo_world new_chat (Error "boom"))
    as (Hok & Hidle & Hturn & _).
  - repeat split. by left.
  - reflexivity.
  - reflexivity.
  - reflexivity.
  - apply (retries_exhausted env 0); reflexivity.
  - destruct (Hturn eq_refl) as [Hm Hc].
    split; [exact Hok|]. split; [exact Hidle|].
    split; [exact Hm|]. split; [reflexivity|]. exact (Hc eq_refl).
Defined.

Lemma welcome_turn_is_sent_as_history_witness :
  exists p rest,
    trace (handleSendMessage reliable_env demo_user (demo_state "hi") demo_world).2 =
      trace demo_world
      ++ [Store (AddMessage (user_turn demo_user (demo_state "hi") "c"
                                       (now demo_world))) true;
          Store (UpdateChat "c" (user_patch (demo_state "hi"))) true;
          Fetch API_URL p] ++ rest
    /\ contents p =
         [ {| role := Some "model";
              parts := [TextPart ("Hello " +:+ opt_or (name demo_user) "there"
                                    +:+ "! I'm your AI assistant. Ask me anything!")] |};
           {| role := Some "user";
              parts := [TextPart (JS.trim (input (demo_state "hi")))] |} ].
Proof.
  apply (welcome_turn_is_sent_as_history reliable_env demo_user
           (demo_state "hi") "c" demo_world new_chat).
  - repeat split. by left.
  - reflexivity.
  - reflexivity.
  - reflexivity.
  - reflexivity.
  - reflexivity.
  - reflexivity.
Defined.

End Engine.

(** ** The retry schedule of [fetchWithRetries] *)

Module BackoffSchedule.
Import AIChat BackoffSpec ScheduleSpec EngineSpec TurnSpec BackoffClient Engine.

Lemma same_store_refl w : same_store w w.
Proof. by repeat split. Qed.

Lemma fetches_failed_attempts url p i k :
  length (fetches (failed_attempts url p i k)) = k.
Proof.
  revert i. induction k as [|k IH]; intros i; [done|].
  cbn. f_equal. apply IH.
Qed.

(** One failed iteration that is not the last one. *)
Lemma fetch_loop_retry env url p retries i k w :
  failing (fetch_reply env (fetch_calls w)) = true ->
  i < retries - 1 ->
  fetch_loop env url p retries i (S k) w =
    fetch_loop env url p retries (S i) k
      (log_event (Sleep (2 ^ i * 1000))
         (count_fetch (log_event (Fetch url p) w))).
Proof.
  intros Hfail Hi. cbn [fetch_loop]. unfold bind at 1, try_catch, bind at 1.
  rewrite attempt_failing by exact Hfail.
  unfold on_failure. destruct (Nat.ltb_spec i (retries - 1)); [|lia].
  done.
Qed.

Lemma fetch_loop_last env url p retries i k w :
  failing (fetch_reply env (fetch_calls w)) = true ->
  retries - 1 <= i ->
  fetch_loop env url p retries i (S k) w =
    (Throw (error_of (fetch_reply env (fetch_calls w))),
     count_fetch (log_event (Fetch url p) w)).
Proof.
  intros Hfail Hi. cbn [fetch_loop]. unfold bind at 1, try_catch, bind at 1.
  rewrite attempt_failing by exact Hfail.
  unfold on_failure. destruct (Nat.ltb_spec i (retries - 1)); [lia|].
  done.
Qed.

Lemma fetch_loop_ok env url p retries i k w r :
  fetch_reply env (fetch_calls w) = Resolved r -> ok r = true ->
  fetch_loop env url p retries i (S k) w =
    (Ok (Some r), count_fetch (log_event (Fetch url p) w)).
Proof.
  intros Hr Hok. cbn [fetch_loop]. unfold bind at 1, try_catch, bind at 1.
  by rewrite (attempt_ok _ _ _ _ r).
Qed.

Lemma fetch_loop_schedule env url p retries r k : forall i n w,
  i + k < retries -> k < n ->
  (forall j, j < k -> failing (fetch_reply env (fetch_calls w + j)) = true) ->
  fetch_reply env (fetch_calls w + k) = Resolved r ->
  ok r = true ->
  exists w',
    fetch_loop env url p retries i n w = (Ok (Some r), w')
    /\ trace w' = trace w ++ failed_attempts url p i k ++ [Fetch url p]
    /\ fetch_calls w' = fetch_calls w + S k
    /\ same_store w w'
    /\ app w' = app w.
Proof.
  induction k as [|k IH]; intros i n w Hi Hn Hfail Hr Hok.
  - destruct n as [|n]; [lia|]. rewrite Nat.add_0_r in Hr.
    rewrite (fetch_loop_ok _ _ _ _ _ _ _ r) by done.
    eexists. split; [reflexivity|]. cbn. split; [done|].
    split; [lia|by repeat split].
  - destruct n as [|n]; [lia|].
    rewrite fetch_loop_retry;
      [| rewrite <- (Nat.add_0_r (fetch_calls w)); apply Hfail; lia | lia].
    set (w1 := log_event _ _).
    destruct (IH (S i) n w1) as (w' & -> & Ht & Hc & Hs & Ha);
      try done; try lia.
    + intros j Hj. cbn. rewrite <- Nat.add_succ_r. apply Hfail. lia.
    + cbn. by rewrite <- Nat.add_succ_r.
    + eexists. split; [reflexivity|]. split; [|split; [|split]].
      * rewrite Ht. cbn. by rewrite <- !app_assoc.
      * rewrite Hc. cbn. lia.
      * exact Hs.
      * exact Ha.
Qed.

(** X1: for any number of retries, when the first [k] attempts fail
    ([k] below [retries]) and attempt [k] is answered by an [ok] response,
    [fetchWithRetries] returns that response after exactly [k + 1] calls,
    having waited [2^i * 1000] ms after failed attempt [i] and not after the
    successful one; the store is not touched. *)
Theorem ok_reply_ends_the_retries env url p retries w k r :
  k < retries ->
  (forall j, j < k -> failing (fetch_reply env (fetch_calls w + j)) = true) ->
  fetch_reply env (fetch_calls w + k) = Resolved r ->
  ok r = true ->
  exists w',
    fetchWithRetries env url p retries w = (Ok (Some r), w')
    /\ trace w' = trace w ++ failed_attempts url p 0 k ++ [Fetch url p]
    /\ fetch_calls w' = fetch_calls w + S k
    /\ same_store w w'.
Proof.
  intros Hk Hfail Hr Hok. unfold fetchWithRetries.
  destruct (fetch_loop_schedule env url p retries r k 0 retries w)
    as (w' & Hrun & Ht & Hc & Hs & _); try done.
  by exists w'.
Qed.

Lemma ok_reply_ends_the_retries_witness :
  exists w',
    fetchWithRetries fox_env API_URL empty_request 3 initial_world
      = (Ok (Some fox_reply), w')
    /\ trace w' = trace initial_world
         ++ failed_attempts API_URL empty_request 0 1
         ++ [Fetch API_URL empty_request]
    /\ fetch_calls w' = fetch_calls initial_world + 2
    /\ same_store initial_world w'.
Proof.
  apply (ok_reply_ends_the_retries fox_env API_URL empty_request 3
           initial_world 1 fox_reply).
  - lia.
  - intros [|j] Hj; [reflexivity | lia].
  - reflexivity.
  - reflexivity.
Defined.

Lemma fetch_loop_exhausted env url p retries k : forall i w,
  i + S k = retries ->
  (forall j, j <= k -> failing (fetch_reply env (fetch_calls w + j)) = true) ->
  exists w',
    fetch_loop env url p retries i (S k) w =
      (Throw (error_of (fetch_reply env (fetch_calls w + k))), w')
    /\ trace w' = trace w ++ failed_attempts url p i k ++ [Fetch url p]
    /\ fetch_calls w' = fetch_calls w + S k
    /\ same_store w w'.
Proof.
  induction k as [|k IH]; intros i w Hi Hfail.
  - rewrite fetch_loop_last;
      [| rewrite <- (Nat.add_0_r (fetch_calls w)); apply Hfail; lia | lia].
    rewrite Nat.add_0_r.
    eexists. split; [reflexivity|]. cbn. split; [done|].
    split; [lia|by repeat split].
  - rewrite fetch_loop_retry;
      [| rewrite <- (Nat.add_0_r (fetch_calls w)); apply Hfail; lia | lia].
    set (w1 := log_event _ _).
    destruct (IH (S i) w1) as (w' & -> & Ht & Hc & Hs); try lia.
    + intros j Hj. cbn. rewrite <- Nat.add_succ_r. apply Hfail. lia.
    + eexists. split; [|split; [|split]].
      * cbn. by rewrite <- Nat.add_succ_r.
      * rewrite Ht. cbn. by rewrite <- !app_assoc.
      * rewrite Hc. cbn. lia.
      * exact Hs.
Qed.

(** X2: for any positive number of retries, when every attempt fails (the
    transport fails or the status is not in 200-299, whatever it is),
    [fetchWithRetries] makes exactly [retries] calls, waits [2^i * 1000] ms
    after each of them but the last, and throws what the last attempt
    threw: the rejection of [fetch]; for a status below 500, the rejection
    of [response.text()] when the body cannot be read and the client error
    of that status otherwise; the server error of the status from 500
    on. *)
Theorem all_attempts_fail env url p retries w :
  0 < retries ->
  (forall j, j < retries -> failing (fetch_reply env (fetch_calls w + j)) = true) ->
  exists w',
    fetchWithRetries env url p retries w =
      (Throw (match fetch_reply env (fetch_calls w + (retries - 1)) with
              | Rejected e => e
              | Resolved r =>
                  if status r <? 500
                  then match resp_body r with
                       | Unreadable e => e
                       | BadBody _ | Candidates _ =>
                           Error ("Client Error: " +:+ pretty (status r))
                       end
                  else Error ("Server Error: " +:+ pretty (status r))
              end), w')
    /\ trace w' = trace w ++ failed_attempts url p 0 (retries - 1) ++ [Fetch url p]
    /\ length (fetches (trace w')) = length (fetches (trace w)) + retries
    /\ same_store w w'.
Proof.
  intros Hpos Hfail. unfold fetchWithRetries.
  change (match fetch_reply env (fetch_calls w + (retries - 1)) with
          | Rejected e => e
          | Resolved r => _
          end)
    with (error_of (fetch_reply env (fetch_calls w + (retries - 1)))).
  destruct retries as [|k]; [lia|].
  replace (S k - 1) with k by lia.
  destruct (fetch_loop_exhausted env url p (S k) k 0 w) as (w' & -> & Ht & Hc & Hs);
    [lia | intros j Hj; apply Hfail; lia |].
  eexists. split; [reflexivity|]. split; [done|]. split; [|done].
  rewrite Ht. unfold fetches. rewrite !List.filter_app, !length_app.
  fold (fetches (failed_attempts url p 0 k)).
  rewrite fetches_failed_attempts. cbn. lia.
Qed.

Lemma all_attempts_fail_witness :
  exists w',
    fetchWithRetries (unreadable_status 404 (Error "boom")) API_URL
      empty_request 4 initial_world = (Throw (Error "boom"), w')
    /\ trace w' = [Fetch API_URL empty_request; Sleep 1000;
                   Fetch API_URL empty_request; Sleep 2000;
                   Fetch API_URL empty_request; Sleep 4000;
                   Fetch API_URL empty_request]
    /\ length (fetches (trace w')) = 4
    /\ same_store initial_world w'.
Proof.
  apply (all_attempts_fail (unreadable_status 404 (Error "boom")) API_URL
           empty_request 4 initial_world).
  - lia.
  - intros j Hj. reflexivity.
Defined.

(** The loop from iteration [i] with [k] iterations left, whatever the
    backend answers. *)
Lemma fetch_loop_shape env url p retries k : forall i w,
  i + k = retries ->
  let run := fetch_loop env url p retries i k w in
  same_store w run.2
  /\ (exists n, n <= k /\ (0 < k -> n < k) /\
        trace run.2 = trace w ++ failed_attempts url p i n
                        ++ (if decide (k = 0) then [] else [Fetch url p]))
  /\ (run.1 = Ok None <-> k = 0)
  /\ run.1 <> OutOfFuel.
Proof.
  induction k as [|k IH]; intros i w Hi run.
  - subst run. cbn. split; [by repeat split|].
    split; [|done]. exists 0. cbn. by rewrite app_nil_r.
  - subst run.
    destruct (failing (fetch_reply env (fetch_calls w))) eqn:Hf.
    + destruct (Nat.ltb_spec i (retries - 1)) as [Hlt|Hge].
      * rewrite fetch_loop_retry by done.
        set (w1 := log_event _ _).
        destruct (IH (S i) w1) as (Hs & (n & Hn & Hnk & Ht) & Hnone & Hfuel);
          [lia|].
        assert (k <> 0) by lia.
        split; [exact Hs|]. split.
        { exists (S n). split; [lia|]. split; [lia|].
          rewrite Ht. cbn. rewrite <- !app_assoc. cbn.
          by rewrite !decide_False by done. }
        split; [|done]. rewrite Hnone. lia.
      * rewrite fetch_loop_last by (done || lia).
        cbn. split; [by repeat split|]. split.
        { exists 0. split; [lia|]. split; [lia|]. done. }
        split; [|done]. split; [done|lia].
    + unfold failing in Hf.
      destruct (fetch_reply env (fetch_calls w)) as [e|r] eqn:Hr; [done|].
      apply negb_false_iff in Hf.
      rewrite (fetch_loop_ok _ _ _ _ _ _ _ r) by done.
      cbn. split; [by repeat split|]. split.
      { exists 0. split; [lia|]. split; [lia|]. done. }
      split; [|done]. split; [done|lia].
Qed.

(** X3: whatever the backend answers, [fetchWithRetries] leaves the store
    as it is, makes at most [retries] calls (at least one when [retries] is
    positive), does nothing but these calls and waits, never ends on a wait,
    and returns [undefined] only when [retries] is 0. *)
Theorem retry_budget env url p retries w :
  let run := fetchWithRetries env url p retries w in
  same_store w run.2
  /\ (exists t, trace run.2 = trace w ++ t
                /\ length (fetches t) <= retries
                /\ (0 < retries -> 1 <= length (fetches t))
                /\ (forall e, e ∈ t -> e = Fetch url p \/ is_sleep e = true)
                /\ List.last t (Fetch url p) = Fetch url p)
  /\ (run.1 = Ok None <-> retries = 0).
Proof.
  intros run. subst run. unfold fetchWithRetries.
  destruct (fetch_loop_shape env url p retries retries 0 w eq_refl)
    as (Hs & (n & Hn & Hnk & Ht) & Hnone & _).
  split; [done|]. split; [|done].
  eexists. split; [exact Ht|].
  assert (Hlen : forall l, length (fetches (failed_attempts url p 0 n ++ l))
                   = n + length (fetches l)).
  { intros l. unfold fetches. rewrite List.filter_app, length_app.
    fold (fetches (failed_attempts url p 0 n)).
    by rewrite fetches_failed_attempts. }
  rewrite Hlen.
  assert (Hin : forall i k e, e ∈ failed_attempts url p i k ->
                  e = Fetch url p \/ is_sleep e = true).
  { intros i k. revert i. induction k as [|k IH]; intros i e; cbn.
    - by intros ?%elem_of_nil.
    - intros [->|[->|H]%elem_of_cons]%elem_of_cons; eauto. }
  destruct (decide (retries = 0)) as [->|Hne].
  - cbn. split; [lia|]. split; [lia|]. split.
    + intros e. rewrite app_nil_r. apply Hin.
    + assert (n = 0) as -> by lia. done.
  - cbn. split; [lia|]. split; [lia|]. split.
    + intros e [H|H]%elem_of_app; [by eapply Hin|].
      apply list_elem_of_singleton in H. by left.
    + by rewrite last_last.
Qed.
End BackoffSchedule.

(** ** The paths of [handleSendMessage] *)

Module Submission.
Import Firestore AIChat EngineSpec BackoffSpec BackoffClient DeletionSpec
       StoreFacts Engine ScheduleSpec TurnSpec DirectiveSpec BackoffSchedule.

(** *** Strings *)

Lemma trimStart_spaces s :
  all_chars JS.is_space s = true -> JS.trimStart s = EmptyString.
Proof.
  induction s as [|c s IH]; simpl; [done|].
  intros [Hc Hs]%andb_true_iff. rewrite Hc. by apply IH.
Qed.

Lemma trim_spaces s :
  all_chars JS.is_space s = true -> JS.trim s = EmptyString.
Proof. intros H. unfold JS.trim. by rewrite trimStart_spaces. Qed.

(** *** Fresh identifiers are not empty *)

Lemma pretty_N_go_nonempty (x : N) (s : string) :
  s <> EmptyString \/ (0 < x)%N -> pretty_N_go x s <> EmptyString.
Proof.
  revert s. induction (N.lt_wf_0 x) as [x _ IH]. intros s Hs.
  destruct (decide (x = 0%N)) as [->|Hx].
  - rewrite pretty_N_go_0. destruct Hs; [done|lia].
  - rewrite pretty_N_go_step by lia. apply IH.
    + apply N.div_lt; lia.
    + by left.
Qed.

Lemma pretty_nat_nonempty (n : nat) : pretty n <> EmptyString.
Proof.
  unfold pretty, pretty_nat, pretty, pretty_N.
  destruct (decide (N.of_nat n = 0%N)); [done|].
  apply pretty_N_go_nonempty. right. lia.
Qed.

Lemma search_fresh_is_pretty (xs : list string) n
  (a : Acc (fun n1 n2 => n2 < n1 /\ pretty (n1 - 1) ∈ xs) n) :
  exists m : nat,
    Fix_F (fun _ => string) (search_infinite_go pretty xs) a = pretty m.
Proof.
  induction a as [n Hacc IH] using Acc_inv_dep. simpl.
  unfold search_infinite_go at 1.
  destruct (decide (pretty n ∈ xs)); [apply IH | by exists n].
Qed.

Lemma fresh_truthy (X : gset string) : JS.truthy (fresh X) = true.
Proof.
  unfold fresh, set_fresh, compose, fresh, infinite_fresh, string_infinite,
    search_infinite.
  destruct (search_fresh_is_pretty (elements X) 0
              (wf_guard 32 (search_infinite_R_wf pretty (elements X)) 0))
    as [m ->].
  pose proof (pretty_nat_nonempty m). by destruct (pretty m).
Qed.

(** *** Submissions that are not accepted *)

Lemma handleSendMessage_rejected env user st w :
  (JS.truthy (JS.trim (input st)) = false /\ truthy_opt (selectedImage st) = false)
  \/ isLoading st = true ->
  handleSendMessage env user st w = (Ok tt, w).
Proof.
  intros H. unfold handleSendMessage.
  destruct H as [[-> ->] | ->]; [done|]. by rewrite orb_true_r.
Qed.

Lemma handleSendMessage_blank env user st w :
  (all_chars JS.is_space (input st) = true /\ selectedImage st = None)
  \/ isLoading st = true ->
  handleSendMessage env user st w = (Ok tt, w).
Proof.
  intros [[Hs Hi]|Hl]; apply handleSendMessage_rejected; [left|by right].
  by rewrite trim_spaces, Hi.
Qed.

(** *** A submission without a current chat *)

Lemma addChat_run env data w :
  addChat env data w =
    match store_failure env (store_calls w) with
    | Some e => (Throw e, served (AddChat (data (now w))) false (db_messages w) w)
    | None =>
        (Ok (fresh (dom (db_chats w))),
         served (AddChat (data (now w))) true (db_messages w)
           (tick (with_db_chats
                    (insert (fresh (dom (db_chats w))) (data (now w))) w)))
    end.
Proof. unfold addChat, call. by destruct (store_failure _ _). Qed.

Lemma createNewChat_run env user w :
  createNewChat env user w =
    match store_failure env (store_calls w) with
    | Some e =>
        (Ok None,
         served (AddChat (new_chat_doc user (now w))) false (db_messages w) w)
    | None =>
        let id := fresh (dom (db_chats w)) in
        (Ok (Some id),
         with_app (setMessages_state [])
           (with_app (fun s =>
              {| messages := messages s; input := input s;
                 isLoading := isLoading s;
                 userMessageCount := userMessageCount s;
                 currentChatId := Some id; selectedImage := selectedImage s;
                 speechEnabled := speechEnabled s |})
              (served (AddChat (new_chat_doc user (now w))) true (db_messages w)
                 (tick (with_db_chats (insert id (new_chat_doc user (now w))) w)))))
    end.
Proof.
  unfold createNewChat, try_catch, bind at 1. rewrite addChat_run.
  fold (new_chat_doc user (now w)).
  by destruct (store_failure env (store_calls w)).
Qed.

Lemma handleSendMessage_no_chat env user st w :
  (JS.truthy (JS.trim (input st)) = true \/ truthy_opt (selectedImage st) = true) ->
  isLoading st = false ->
  truthy_opt (currentChatId st) = false ->
  handleSendMessage env user st w =
    match createNewChat env user (submitting w) with
    | (Ok (Some id), w1) =>
        (Ok tt,
         with_app (setIsLoading_state false)
           (with_app (fun s =>
              {| messages := messages s; input := JS.trim (input st);
                 isLoading := isLoading s;
                 userMessageCount := userMessageCount s;
                 currentChatId := currentChatId s;
                 selectedImage := selectedImage s;
                 speechEnabled := speechEnabled s |}) w1))
    | (_, w1) => (Ok tt, with_app (setIsLoading_state false) w1)
    end.
Proof.
  intros Hin Hload Hchat. unfold handleSendMessage.
  rewrite Hload, orb_false_r.
  replace (negb (JS.truthy (JS.trim (input st)))
           && negb (truthy_opt (selectedImage st))) with false
    by (destruct Hin as [-> | ->]; by rewrite ?andb_false_r).
  rewrite Hchat. cbv [negb]. cbv beta iota.
  unfold bind at 1, setInput, effect. cbv beta iota.
  unfold bind at 1, setIsLoading, effect. cbv beta iota.
  unfold bind at 1, setUserMessageCount, effect. cbv beta iota.
  change (with_app _ (with_app _ (with_app _ w))) with (submitting w).
  unfold bind at 1. rewrite createNewChat_run.
  destruct (store_failure env (store_calls (submitting w))); [done|].
  cbn zeta. cbn [truthy_opt]. rewrite fresh_truthy. done.
Qed.

(** X4: an accepted submission made while the component has no current
    chat stores no turn and calls no backend.  If the store takes the
    request, a chat record with the defaults of [createNewChat] appears under
    an id that was free, it becomes the current chat with an empty view, and
    the trimmed text is put back into the input for the user to send again.
    If the store refuses, nothing is stored and the input stays empty.
    In both cases the handler ends normally with [isLoading] false. *)
Theorem submission_without_chat_creates_one env user st w :
  (JS.truthy (JS.trim (input st)) = true \/ truthy_opt (selectedImage st) = true) ->
  isLoading st = false ->
  truthy_opt (currentChatId st) = false ->
  let run := handleSendMessage env user st w in
  let id := fresh (dom (db_chats w)) in
  run.1 = Ok tt
  /\ db_messages run.2 = db_messages w
  /\ fetches (trace run.2) = fetches (trace w)
  /\ isLoading (app run.2) = false
  /\ match store_failure env (store_calls w) with
     | None =>
         db_chats w !! id = None
         /\ db_chats run.2 = <[id := new_chat_doc user (now w)]> (db_chats w)
         /\ currentChatId (app run.2) = Some id
         /\ messages (app run.2) = []
         /\ input (app run.2) = JS.trim (input st)
     | Some _ =>
         db_chats run.2 = db_chats w
         /\ currentChatId (app run.2) = currentChatId (app w)
         /\ messages (app run.2) = messages (app w)
         /\ input (app run.2) = EmptyString
     end.
Proof.
  intros Hin Hload Hchat run id. subst run.
  rewrite handleSendMessage_no_chat by done.
  rewrite createNewChat_run. cbn [store_calls submitting with_app].
  destruct (store_failure env (store_calls w)) as [e|].
  - cbn. repeat split. unfold fetches. rewrite List.filter_app. cbn.
    by rewrite app_nil_r.
  - cbn. repeat split.
    + unfold fetches. rewrite List.filter_app. cbn. by rewrite app_nil_r.
    + apply not_elem_of_dom, is_fresh.
Qed.

Lemma submission_without_chat_creates_one_witness :
  let run := handleSendMessage reliable_env demo_user first_state initial_world in
  let id := fresh (dom (db_chats initial_world)) in
  run.1 = Ok tt
  /\ db_messages run.2 = db_messages initial_world
  /\ fetches (trace run.2) = fetches (trace initial_world)
  /\ isLoading (app run.2) = false
  /\ match store_failure reliable_env (store_calls initial_world) with
     | None =>
         db_chats initial_world !! id = None
         /\ db_chats run.2 = <[id := new_chat_doc demo_user (now initial_world)]>
                               (db_chats initial_world)
         /\ currentChatId (app run.2) = Some id
         /\ messages (app run.2) = []
         /\ input (app run.2) = JS.trim (input first_state)
     | Some _ =>
         db_chats run.2 = db_chats initial_world
         /\ currentChatId (app run.2) = currentChatId (app initial_world)
         /\ messages (app run.2) = messages (app initial_world)
         /\ input (app run.2) = EmptyString
     end.
Proof.
  apply (submission_without_chat_creates_one reliable_env demo_user
           first_state initial_world).
  - left. reflexivity.
  - reflexivity.
  - reflexivity.
Defined.

(** *** The completed turn *)

Lemma preparePayload_run st w :
  preparePayload st (JS.trim (input st)) w =
    (Ok (request_of st),
     if truthy_opt (selectedImage st)
     then with_app (fun s =>
            {| messages := messages s; input := input s;
               isLoading := isLoading s;
               userMessageCount := userMessageCount s;
               currentChatId := currentChatId s; selectedImage := None;
               speechEnabled := speechEnabled s |}) w
     else w).
Proof.
  unfold preparePayload, request_of.
  by destruct (truthy_opt (selectedImage st)).
Qed.

Lemma responseText_answer r first_text w :
  resp_body r = Candidates first_text ->
  responseText (Some r) w = (Ok (answer_of first_text), w).
Proof.
  intros Hb. unfold responseText. rewrite Hb. by destruct first_text.
Qed.

Lemma completeTurn_run env st chat w :
  completeTurn env st chat (JS.trim (input st)) w =
    let w0 := (preparePayload st (JS.trim (input st)) w).2 in
    match fetchWithRetries env (request_of st).1 (request_of st).2
            default_retries w0 with
    | (Ok response, w1) =>
        match responseText response w1 with
        | (Ok answer, w2) => answer_writes env st chat answer w2
        | (Throw e, w2) => (Throw e, w2)
        | (OutOfFuel, w2) => (OutOfFuel, w2)
        end
    | (Throw e, w1) => (Throw e, w1)
    | (OutOfFuel, w1) => (OutOfFuel, w1)
    end.
Proof.
  unfold completeTurn. unfold bind at 1. rewrite preparePayload_run.
  cbn [snd]. destruct (request_of st) as [url p]. cbn [fst snd].
  unfold bind at 1.
  destruct (fetchWithRetries _ _ _ _ _) as [[response|e|] w1]; try done.
  unfold bind at 1.
  destruct (responseText response w1) as [[answer|e|] w2]; try done.
  unfold answer_writes, assistant_turn, assistant_patch.
  by destruct (extractImageRequest answer) as [aiText url'].
Qed.

Lemma answer_writes_succeed env st chat answer w c :
  store_failure env (store_calls w) = None ->
  store_failure env (S (store_calls w)) = None ->
  db_chats w !! chat = Some c ->
  exists w',
    answer_writes env st chat answer w = (Ok tt, w')
    /\ db_messages w' = <[fresh (dom (db_messages w)) :=
                           assistant_turn chat answer (now w)]> (db_messages w)
    /\ db_chats w' = <[chat := apply_patch (S (now w)) (assistant_patch answer) c]>
                       (db_chats w)
    /\ trace w' = trace w
         ++ [Store (AddMessage (assistant_turn chat answer (now w))) true;
             Store (UpdateChat chat (assistant_patch answer)) true]
         ++ (if speechEnabled st
             then [Speak (extractImageRequest answer).1] else [])
    /\ app w' = app w
    /\ now w' = 2 + now w.
Proof.
  intros H0 H1 Hc. unfold answer_writes, bind.
  rewrite addMessage_run, H0, updateChat_run. cbn. rewrite H1, Hc.
  destruct (speechEnabled st); (eexists; split; [reflexivity|]); cbn;
    repeat split; by rewrite <- !app_assoc.
Qed.

(** Steps 2 to 6 when the backend answers within the three attempts and
    the store takes both writes. *)
Lemma completeTurn_succeeds env st chat w c k r first_text :
  store_failure env (store_calls w) = None ->
  store_failure env (S (store_calls w)) = None ->
  db_chats w !! chat = Some c ->
  k < 3 ->
  (forall j, j < k -> failing (fetch_reply env (fetch_calls w + j)) = true) ->
  fetch_reply env (fetch_calls w + k) = Resolved r ->
  ok r = true ->
  resp_body r = Candidates first_text ->
  let answer := answer_of first_text in
  exists w',
    completeTurn env st chat (JS.trim (input st)) w = (Ok tt, w')
    /\ db_messages w' = <[fresh (dom (db_messages w)) :=
                           assistant_turn chat answer (now w)]> (db_messages w)
    /\ db_chats w' = <[chat := apply_patch (S (now w)) (assistant_patch answer) c]>
                       (db_chats w)
    /\ trace w' = trace w
         ++ failed_attempts (request_of st).1 (request_of st).2 0 k
         ++ [Fetch (request_of st).1 (request_of st).2;
             Store (AddMessage (assistant_turn chat answer (now w))) true;
             Store (UpdateChat chat (assistant_patch answer)) true]
         ++ (if speechEnabled st
             then [Speak (extractImageRequest answer).1] else [])
    /\ selectedImage (app w') =
         (if truthy_opt (selectedImage st) then None else selectedImage (app w))
    /\ isLoading (app w') = isLoading (app w)
    /\ input (app w') = input (app w)
    /\ currentChatId (app w') = currentChatId (app w)
    /\ messages (app w') = messages (app w)
    /\ now w' = 2 + now w.
Proof.
  intros H0 H1 Hc Hk Hfail Hr Hok Hbody answer.
  rewrite completeTurn_run, preparePayload_run. cbn [snd].
  set (w0 := if truthy_opt (selectedImage st) then _ else w).
  assert (Hw0 : same_store w w0 /\ fetch_calls w0 = fetch_calls w
                /\ trace w0 = trace w /\ db_chats w0 = db_chats w).
  { unfold w0. by destruct (truthy_opt (selectedImage st)). }
  destruct Hw0 as ((Hm0 & Hc0 & Hs0 & Hn0) & Hf0 & Ht0 & _).
  unfold default_retries, fetchWithRetries.
  destruct (fetch_loop_schedule env (request_of st).1 (request_of st).2 3 r k
              0 3 w0) as (w1 & -> & Ht1 & _ & (Hm1 & Hc1 & Hs1 & Hn1) & Ha1);
    try done; try (by rewrite Hf0).
  rewrite (responseText_answer r first_text) by done.
  destruct (answer_writes_succeed env st chat (answer_of first_text) w1 c)
    as (w2 & -> & Hm2 & Hc2 & Ht2 & Ha2 & Hn2).
  { by rewrite Hs1, Hs0. }
  { by rewrite Hs1, Hs0. }
  { by rewrite Hc1, Hc0. }
  exists w2. split; [done|]. fold answer in Hm2, Hc2, Ht2 |- *.
  split; [by rewrite Hm2, Hm1, Hm0, Hn1, Hn0|].
  split; [by rewrite Hc2, Hc1, Hc0, Hn1, Hn0|].
  split.
  { rewrite Ht2, Ht1, Ht0, Hn1, Hn0. by rewrite <- !app_assoc. }
  rewrite Ha2, Ha1, Hn2, Hn1, Hn0.
  unfold w0. by destruct (truthy_opt (selectedImage st)).
Qed.

(** The whole handler on an accepted submission that is answered. *)
Lemma handleSendMessage_answered env user st chat w c k r first_text :
  accepted st chat ->
  db_chats w !! chat = Some c ->
  (forall i, i < 4 -> store_failure env (store_calls w + i) = None) ->
  k < 3 ->
  (forall j, j < k -> failing (fetch_reply env (fetch_calls w + j)) = true) ->
  fetch_reply env (fetch_calls w + k) = Resolved r ->
  ok r = true ->
  resp_body r = Candidates first_text ->
  let answer := answer_of first_text in
  let id1 := fresh (dom (db_messages w)) in
  let log1 := <[id1 := user_turn user st chat (now w)]> (db_messages w) in
  exists w',
    handleSendMessage env user st w = (Ok tt, w')
    /\ db_messages w' =
         <[fresh (dom log1) := assistant_turn chat answer (2 + now w)]> log1
    /\ db_chats w' =
         <[chat := apply_patch (3 + now w) (assistant_patch answer)
                     (apply_patch (1 + now w) (user_patch st) c)]> (db_chats w)
    /\ trace w' = trace w
         ++ [Store (AddMessage (user_turn user st chat (now w))) true;
             Store (UpdateChat chat (user_patch st)) true]
         ++ failed_attempts (request_of st).1 (request_of st).2 0 k
         ++ [Fetch (request_of st).1 (request_of st).2;
             Store (AddMessage (assistant_turn chat answer (2 + now w))) true;
             Store (UpdateChat chat (assistant_patch answer)) true]
         ++ (if speechEnabled st
             then [Speak (extractImageRequest answer).1] else [])
    /\ isLoading (app w') = false
    /\ input (app w') = EmptyString
    /\ selectedImage (app w') =
         (if truthy_opt (selectedImage st) then None else selectedImage (app w))
    /\ now w' = 4 + now w.
Proof.
  intros Hacc Hc Hstore Hk Hfail Hr Hok Hbody answer id1 log1.
  rewrite (handleSendMessage_run _ _ _ _ _ Hacc).
  pose proof (Hstore 0 ltac:(lia)) as H0. rewrite Nat.add_0_r in H0.
  pose proof (Hstore 1 ltac:(lia)) as H1. rewrite Nat.add_1_r in H1.
  pose proof (Hstore 2 ltac:(lia)) as H2.
  pose proof (Hstore 3 ltac:(lia)) as H3.
  destruct (saveUserMessage_succeeds env user st chat (submitting w) c)
    as (w1 & -> & Hm1 & Hc1 & Ht1 & Hs1 & Hf1 & Hn1 & Ha1); try done.
  cbn in Hm1, Hc1, Ht1, Hs1, Hf1, Hn1, Ha1.
  cbn zeta. unfold try_catch.
  destruct (completeTurn_succeeds env st chat w1
              (apply_patch (S (now w)) (user_patch st) c) k r first_text)
    as (w2 & -> & Hm2 & Hc2 & Ht2 & Hi2 & Hl2 & Hin2 & _ & _ & Hn2).
  { rewrite Hs1. by rewrite Nat.add_comm in H2. }
  { rewrite Hs1. by rewrite Nat.add_comm in H3. }
  { by rewrite Hc1, lookup_insert_eq. }
  { done. }
  { by rewrite Hf1. }
  { by rewrite Hf1. }
  { done. }
  { done. }
  fold answer in Hm2, Hc2, Ht2.
  exists (with_app (setIsLoading_state false) w2). split; [done|].
  cbn [db_messages db_chats trace app with_app setIsLoading_state
       isLoading input selectedImage].
  split; [by rewrite Hm2, Hm1, Hn1|].
  split; [by rewrite Hc2, Hc1, Hn1, insert_insert_eq|].
  split; [rewrite Ht2, Ht1, Hn1; by rewrite <- !app_assoc|].
  split; [done|]. split; [by rewrite Hin2, Ha1|].
  split; [by rewrite Hi2, Ha1|].
  change (now w2 = 4 + now w). by rewrite Hn2, Hn1.
Qed.

(** X5: an accepted submission whose four writes succeed and whose
    completion call is answered by a readable [ok] response within the three
    attempts adds exactly two turns to the log, the user turn stamped before
    the assistant turn; the chat record gets the answer as preview (followed
    by " [Image]" when an image was requested) with the assistant as last
    sender, the title is the one the user step left, no other chat record
    changes, and the component ends idle with an empty input. *)
Theorem answered_submission_stores_two_turns env user st chat w c k r first_text :
  accepted st chat ->
  db_chats w !! chat = Some c ->
  (forall i, i < 4 -> store_failure env (store_calls w + i) = None) ->
  k < 3 ->
  (forall j, j < k -> failing (fetch_reply env (fetch_calls w + j)) = true) ->
  fetch_reply env (fetch_calls w + k) = Resolved r ->
  ok r = true ->
  resp_body r = Candidates first_text ->
  let answer := answer_of first_text in
  let id1 := fresh (dom (db_messages w)) in
  let log1 := <[id1 := user_turn user st chat (now w)]> (db_messages w) in
  exists w',
    handleSendMessage env user st w = (Ok tt, w')
    /\ db_messages w' =
         <[fresh (dom log1) := assistant_turn chat answer (2 + now w)]> log1
    /\ size (db_messages w') = 2 + size (db_messages w)
    /\ (exists c', db_chats w' !! chat = Some c'
          /\ lastMessage c' =
               (if truthy_opt (extractImageRequest answer).2
                then (extractImageRequest answer).1 +:+ " [Image]"
                else (extractImageRequest answer).1)
          /\ lastSender c' = Some from_ai
          /\ title c' = match p_title (user_patch st) with
                        | Some t => Some t
                        | None => title c
                        end)
    /\ (forall id, id <> chat -> db_chats w' !! id = db_chats w !! id)
    /\ isLoading (app w') = false
    /\ input (app w') = EmptyString.
Proof.
  intros Hacc Hc Hstore Hk Hfail Hr Hok Hbody answer id1 log1.
  destruct (handleSendMessage_answered env user st chat w c k r first_text)
    as (w' & Hrun & Hm & Hch & _ & Hl & Hi & _ & _); try done.
  exists w'. split; [done|]. split; [done|].
  split.
  { rewrite Hm. unfold log1, id1.
    rewrite !map_size_insert_None; [done| |]; apply not_elem_of_dom, is_fresh. }
  split.
  { eexists. split; [by rewrite Hch, lookup_insert_eq|]. done. }
  split; [|done].
  intros id Hne. by rewrite Hch, lookup_insert_ne.
Qed.

Lemma answered_submission_stores_two_turns_witness :
  let answer := answer_of (Some fox_text) in
  let id1 := fresh (dom (db_messages demo_world)) in
  let log1 := <[id1 := user_turn demo_user (demo_state "hi") "c" (now demo_world)]>
                (db_messages demo_world) in
  exists w',
    handleSendMessage fox_env demo_user (demo_state "hi") demo_world = (Ok tt, w')
    /\ db_messages w' =
         <[fresh (dom log1) := assistant_turn "c" answer (2 + now demo_world)]> log1
    /\ size (db_messages w') = 2 + size (db_messages demo_world)
    /\ (exists c', db_chats w' !! "c" = Some c'
          /\ lastMessage c' =
               (if truthy_opt (extractImageRequest answer).2
                then (extractImageRequest answer).1 +:+ " [Image]"
                else (extractImageRequest answer).1)
          /\ lastSender c' = Some from_ai
          /\ title c' = match p_title (user_patch (demo_state "hi")) with
                        | Some t => Some t
                        | None => title new_chat
                        end)
    /\ (forall id, id <> "c" -> db_chats w' !! id = db_chats demo_world !! id)
    /\ isLoading (app w') = false
    /\ input (app w') = EmptyString.
Proof.
  apply (answered_submission_stores_two_turns fox_env demo_user
           (demo_state "hi") "c" demo_world new_chat 1 fox_reply (Some fox_text)).
  - repeat split. by left.
  - reflexivity.
  - intros i Hi. reflexivity.
  - lia.
  - intros [|j] Hj; [reflexivity | lia].
  - reflexivity.
  - reflexivity.
  - reflexivity.
Defined.

(** X6: the calls of such a submission, in order: the write of the user
    turn, the write of its metadata, the attempts of the completion call with
    their waits on one endpoint (the vision endpoint exactly when an image is
    selected) and one body, the write of the assistant turn, the write of its
    metadata, and the speech when it is enabled. *)
Theorem answered_submission_calls env user st chat w c k r first_text :
  accepted st chat ->
  db_chats w !! chat = Some c ->
  (forall i, i < 4 -> store_failure env (store_calls w + i) = None) ->
  k < 3 ->
  (forall j, j < k -> failing (fetch_reply env (fetch_calls w + j)) = true) ->
  fetch_reply env (fetch_calls w + k) = Resolved r ->
  ok r = true ->
  resp_body r = Candidates first_text ->
  let answer := answer_of first_text in
  let url := if truthy_opt (selectedImage st) then VISION_API_URL else API_URL in
  exists p,
    trace (handleSendMessage env user st w).2 = trace w
      ++ [Store (AddMessage (user_turn user st chat (now w))) true;
          Store (UpdateChat chat (user_patch st)) true]
      ++ failed_attempts url p 0 k
      ++ [Fetch url p;
          Store (AddMessage (assistant_turn chat answer (2 + now w))) true;
          Store (UpdateChat chat (assistant_patch answer)) true]
      ++ (if speechEnabled st
          then [Speak (extractImageRequest answer).1] else []).
Proof.
  intros Hacc Hc Hstore Hk Hfail Hr Hok Hbody answer url.
  destruct (handleSendMessage_answered env user st chat w c k r first_text)
    as (w' & -> & _ & _ & Ht & _); try done.
  exists (request_of st).2. cbn [snd]. rewrite Ht.
  replace url with (request_of st).1; [done|].
  unfold url, request_of. by destruct (truthy_opt (selectedImage st)).
Qed.

Lemma answered_submission_calls_witness :
  let answer := answer_of (Some fox_text) in
  let url := if truthy_opt (selectedImage (demo_state "hi"))
             then VISION_API_URL else API_URL in
  exists p,
    trace (handleSendMessage fox_env demo_user (demo_state "hi") demo_world).2
    = trace demo_world
      ++ [Store (AddMessage (user_turn demo_user (demo_state "hi") "c"
                                       (now demo_world))) true;
          Store (UpdateChat "c" (user_patch (demo_state "hi"))) true]
      ++ failed_attempts url p 0 1
      ++ [Fetch url p;
          Store (AddMessage (assistant_turn "c" answer (2 + now demo_world))) true;
          Store (UpdateChat "c" (assistant_patch answer)) true]
      ++ (if speechEnabled (demo_state "hi")
          then [Speak (extractImageRequest answer).1] else []).
Proof.
  apply (answered_submission_calls fox_env demo_user
           (demo_state "hi") "c" demo_world new_chat 1 fox_reply (Some fox_text)).
  - repeat split. by left.
  - reflexivity.
  - intros i Hi. reflexivity.
  - lia.
  - intros [|j] Hj; [reflexivity | lia].
  - reflexivity.
  - reflexivity.
  - reflexivity.
Defined.



(** *** Failures of the metadata writes *)

Lemma saveUserMessage_preview_fails env user st chat w :
  store_failure env (store_calls w) = None ->
  store_failure env (S (store_calls w)) <> None \/ db_chats w !! chat = None ->
  exists e w1,
    saveUserMessage env user st chat (JS.trim (input st)) w = (Throw e, w1)
    /\ db_messages w1 = <[fresh (dom (db_messages w)) :=
                           user_turn user st chat (now w)]> (db_messages w)
    /\ db_chats w1 = db_chats w
    /\ trace w1 = trace w
         ++ [Store (AddMessage (user_turn user st chat (now w))) true;
             Store (UpdateChat chat (user_patch st)) false]
    /\ app w1 = app w.
Proof.
  intros H0 H1. unfold saveUserMessage, bind. rewrite addMessage_run, H0.
  unfold user_patch.
  destruct (decide _) as [Hd|Hd]; rewrite updateChat_run; cbn;
    (destruct (store_failure env (S (store_calls w))) as [e|];
     [|destruct H1 as [H1| ->]; [done|]]);
    (eexists _, _; split; [reflexivity|]); cbn; by rewrite <- app_assoc.
Qed.

(** X8: when the user turn is written but the write of the chat
    metadata fails (the store refuses it or the chat record does not exist),
    the handler stops there: the user turn stays in the log without an
    answer and without an error turn, no chat record changes, the backend is
    not called and [isLoading] is false. *)
Theorem preview_write_failure_leaves_turn_unanswered env user st chat w :
  accepted st chat ->
  store_failure env (store_calls w) = None ->
  store_failure env (S (store_calls w)) <> None \/ db_chats w !! chat = None ->
  exists w',
    handleSendMessage env user st w = (Ok tt, w')
    /\ db_messages w' = <[fresh (dom (db_messages w)) :=
                           user_turn user st chat (now w)]> (db_messages w)
    /\ db_chats w' = db_chats w
    /\ trace w' = trace w
         ++ [Store (AddMessage (user_turn user st chat (now w))) true;
             Store (UpdateChat chat (user_patch st)) false]
    /\ isLoading (app w') = false.
Proof.
  intros Hacc H0 H1. rewrite (handleSendMessage_run _ _ _ _ _ Hacc).
  destruct (saveUserMessage_preview_fails env user st chat (submitting w))
    as (e & w1 & -> & Hm & Hc & Ht & Ha); try done.
  eexists. split; [reflexivity|]. cbn. by rewrite Hm, Hc, Ht.
Qed.

Lemma preview_write_failure_leaves_turn_unanswered_witness :
  exists w',
    handleSendMessage (failing_at 1 "Hello") demo_user (demo_state "hi") demo_world
      = (Ok tt, w')
    /\ db_messages w' = <[fresh (dom (db_messages demo_world)) :=
                           user_turn demo_user (demo_state "hi") "c"
                                     (now demo_world)]> (db_messages demo_world)
    /\ db_chats w' = db_chats demo_world
    /\ trace w' = trace demo_world
         ++ [Store (AddMessage (user_turn demo_user (demo_state "hi") "c"
                                          (now demo_world))) true;
             Store (UpdateChat "c" (user_patch (demo_state "hi"))) false]
    /\ isLoading (app w') = false.
Proof.
  apply (preview_write_failure_leaves_turn_unanswered
           (failing_at 1 "Hello") demo_user (demo_state "hi") "c" demo_world).
  - repeat split. by left.
  - reflexivity.
  - left. discriminate.
Defined.

Lemma answer_writes_preview_fails env st chat answer w e :
  store_failure env (store_calls w) = None ->
  store_failure env (S (store_calls w)) = Some e ->
  answer_writes env st chat answer w =
    (Throw e,
     served (UpdateChat chat (assistant_patch answer)) false
       (<[fresh (dom (db_messages w)) := assistant_turn chat answer (now w)]>
          (db_messages w))
       (served (AddMessage (assistant_turn chat answer (now w))) true
          (db_messages w)
          (tick (with_db_messages
                   (insert (fresh (dom (db_messages w)))
                           (assistant_turn chat answer (now w))) w)))).
Proof.
  intros H0 H1. unfold answer_writes, bind.
  rewrite addMessage_run, H0, updateChat_run. cbn. by rewrite H1.
Qed.

(** X9: when the answer has been written and the write of its
    metadata fails, the [catch] block still runs: the log gets the user turn,
    the assistant turn and an error turn built from the error of the store,
    three turns for one submission. *)
Theorem answer_preview_failure_adds_error_turn env user st chat w c r first_text e :
  accepted st chat ->
  db_chats w !! chat = Some c ->
  (forall i, i < 3 -> store_failure env (store_calls w + i) = None) ->
  store_failure env (store_calls w + 3) = Some e ->
  store_failure env (store_calls w + 4) = None ->
  fetch_reply env (fetch_calls w) = Resolved r ->
  ok r = true ->
  resp_body r = Candidates first_text ->
  let answer := answer_of first_text in
  let id1 := fresh (dom (db_messages w)) in
  let log1 := <[id1 := user_turn user st chat (now w)]> (db_messages w) in
  let log2 := <[fresh (dom log1) := assistant_turn chat answer (2 + now w)]> log1 in
  exists w',
    handleSendMessage env user st w = (Ok tt, w')
    /\ db_messages w' = <[fresh (dom log2) := error_turn chat e (3 + now w)]> log2
    /\ size (db_messages w') = 3 + size (db_messages w).
Proof.
  intros Hacc Hc Hstore H3 H4 Hr Hok Hbody answer id1 log1 log2.
  rewrite (handleSendMessage_run _ _ _ _ _ Hacc).
  pose proof (Hstore 0 ltac:(lia)) as H0. rewrite Nat.add_0_r in H0.
  pose proof (Hstore 1 ltac:(lia)) as H1. rewrite Nat.add_1_r in H1.
  pose proof (Hstore 2 ltac:(lia)) as H2.
  destruct (saveUserMessage_succeeds env user st chat (submitting w) c)
    as (w1 & -> & Hm1 & Hc1 & Ht1 & Hs1 & Hf1 & Hn1 & Ha1); try done.
  cbn in Hm1, Hc1, Ht1, Hs1, Hf1, Hn1, Ha1.
  cbn zeta. unfold try_catch.
  rewrite completeTurn_run, preparePayload_run. cbn [snd].
  set (w0 := if truthy_opt (selectedImage st) then _ else w1).
  assert (Hw0 : same_store w1 w0 /\ fetch_calls w0 = fetch_calls w1).
  { unfold w0. by destruct (truthy_opt (selectedImage st)). }
  destruct Hw0 as ((Hm0 & Hc0 & Hs0 & Hn0) & Hf0).
  unfold default_retries, fetchWithRetries.
  destruct (fetch_loop_schedule env (request_of st).1 (request_of st).2 3 r 0
              0 3 w0) as (w2 & -> & _ & _ & (Hm2 & Hc2 & Hs2 & Hn2) & _);
    try done; try lia.
  { by rewrite Nat.add_0_r, Hf0, Hf1. }
  rewrite (responseText_answer r first_text) by done.
  fold answer.
  rewrite (answer_writes_preview_fails _ _ _ _ _ e).
  2:{ rewrite Hs2, Hs0, Hs1. by rewrite Nat.add_comm in H2. }
  2:{ rewrite Hs2, Hs0, Hs1. by rewrite Nat.add_comm in H3. }
  set (w3 := served _ false _ _).
  destruct (saveErrorMessage_turn_only env chat e w3) as (w4 & -> & Hm4).
  { unfold w3. cbn. rewrite Hs2, Hs0, Hs1. rewrite <- H4. f_equal. lia. }
  eexists. split; [reflexivity|].
  assert (Hlog : db_messages w4
                 = <[fresh (dom log2) := error_turn chat e (3 + now w)]> log2).
  { rewrite Hm4. unfold w3. cbn. rewrite Hm2, Hm0, Hm1, Hn2, Hn0, Hn1.
    subst log2 log1 id1. reflexivity. }
  split; [exact Hlog|]. cbn [snd db_messages with_app]. rewrite Hlog.
  unfold log2, log1, id1.
  rewrite !map_size_insert_None; [done| | |]; apply not_elem_of_dom, is_fresh.
Qed.

Lemma answer_preview_failure_adds_error_turn_witness :
  let answer := answer_of (Some "Hello") in
  let id1 := fresh (dom (db_messages demo_world)) in
  let log1 := <[id1 := user_turn demo_user (demo_state "hi") "c" (now demo_world)]>
                (db_messages demo_world) in
  let log2 := <[fresh (dom log1) :=
                  assistant_turn "c" answer (2 + now demo_world)]> log1 in
  exists w',
    handleSendMessage (failing_at 3 "Hello") demo_user (demo_state "hi") demo_world
      = (Ok tt, w')
    /\ db_messages w' =
         <[fresh (dom log2) :=
             error_turn "c" (Error "unavailable") (3 + now demo_world)]> log2
    /\ size (db_messages w') = 3 + size (db_messages demo_world).
Proof.
  apply (answer_preview_failure_adds_error_turn
           (failing_at 3 "Hello") demo_user (demo_state "hi") "c" demo_world
           new_chat {| status := 200; resp_body := Candidates (Some "Hello") |}
           (Some "Hello") (Error "unavailable")).
  - repeat split. by left.
  - reflexivity.
  - intros [|[|[|i]]] Hi; [reflexivity | reflexivity | reflexivity | lia].
  - reflexivity.
  - reflexivity.
  - reflexivity.
  - reflexivity.
  - reflexivity.
Defined.
End Submission.

(** ** What a submission leaves in place *)

Module AppendOnly.
Import Firestore AIChat EngineSpec BackoffSpec BackoffClient DeletionSpec
       StoreFacts Engine ScheduleSpec TurnSpec Submission.

Section Grows.
Variable chat : option string.

Lemma grows_same n w w' :
  db_messages w' = db_messages w -> db_chats w' = db_chats w ->
  grows chat n w w'.
Proof.
  intros Hm Hc. unfold grows. rewrite Hm, Hc.
  split; [done|]. split; [lia|]. split; [congruence|].
  intros id c Hl. exists c. by repeat split.
Qed.

Lemma grows_trans n1 n2 w1 w2 w3 :
  grows chat n1 w1 w2 -> grows chat n2 w2 w3 -> grows chat (n1 + n2) w1 w3.
Proof.
  intros (Hs1 & Hn1 & Hnew1 & Hc1) (Hs2 & Hn2 & Hnew2 & Hc2).
  split; [by etrans|]. split; [lia|]. split.
  - intros id d H3 H1.
    destruct (db_messages w2 !! id) as [d2|] eqn:H2.
    + pose proof (lookup_weaken _ _ _ _ H2 Hs2) as H3'.
      assert (d2 = d) as -> by congruence. by eapply Hnew1.
    + by eapply Hnew2.
  - intros id c Hl.
    destruct (Hc1 id c Hl) as (c2 & Hl2 & Ho & Hcr & Hp & Hcat & Hsame).
    destruct (Hc2 id c2 Hl2) as (c3 & Hl3 & Ho' & Hcr' & Hp' & Hcat' & Hsame').
    exists c3. split; [done|]. repeat split; try congruence.
    intros Hne. rewrite Hsame', Hsame; done.
Qed.

Lemma grows_weaken n n' w w' :
  n <= n' -> grows chat n w w' -> grows chat n' w w'.
Proof.
  intros Hle (Hs & Hn & Hnew & Hc). split; [done|]. split; [lia|]. done.
Qed.

Lemma grows_bind {A B} n1 n2 (m : M A) (k : A -> M B) :
  keeps (grows chat n1) m -> (forall a, keeps (grows chat n2) (k a)) ->
  keeps (grows chat (n1 + n2)) (bind m k).
Proof.
  intros Hm Hk w. unfold bind. destruct (Hm w) as [Hf Hp].
  destruct (m w) as [[a|e|] w1]; simpl in *; try done.
  - destruct (Hk a w1) as [Hf' Hp']. split; [done|].
    by eapply grows_trans.
  - split; [done|]. eapply grows_weaken; [|exact Hp]. lia.
Qed.

Lemma grows_try_catch {A} n1 n2 (m : M A) (h : js_error -> M A) :
  keeps (grows chat n1) m -> (forall e, keeps (grows chat n2) (h e)) ->
  keeps (grows chat (n1 + n2)) (try_catch m h).
Proof.
  intros Hm Hh w. unfold try_catch. destruct (Hm w) as [Hf Hp].
  destruct (m w) as [[a|e|] w1]; simpl in *; try done.
  - split; [done|]. eapply grows_weaken; [|exact Hp]. lia.
  - destruct (Hh e w1) as [Hf' Hp']. split; [done|].
    by eapply grows_trans.
Qed.

Lemma grows_finally {A} n (m : M A) (f : app_state -> app_state) :
  keeps (grows chat n) m -> keeps (grows chat n) (finally m (with_app f)).
Proof.
  intros Hm w. unfold finally. destruct (Hm w) as [Hf Hp].
  by destruct (m w) as [r w1].
Qed.

Lemma grows_ret {A} (a : A) : keeps (grows chat 0) (ret a).
Proof. intros w. split; [done|]. by apply grows_same. Qed.

Lemma grows_throw {A} e : keeps (grows chat 0) (@throw A e).
Proof. intros w. split; [done|]. by apply grows_same. Qed.

Lemma grows_app_effect f : keeps (grows chat 0) (effect (with_app f)).
Proof. intros w. split; [done|]. by apply grows_same. Qed.

Lemma grows_emit e : keeps (grows chat 0) (emit e).
Proof. intros w. split; [done|]. by apply grows_same. Qed.

(** A computation that leaves the store alone. *)
Lemma grows_of_same_store {A} (m : M A) :
  (forall w, (m w).1 <> OutOfFuel /\ same_store w (m w).2) ->
  keeps (grows chat 0) m.
Proof.
  intros H w. destruct (H w) as (Hf & Hm & Hc & _). split; [done|].
  by apply grows_same.
Qed.

Lemma grows_fetchWithRetries env url p retries :
  keeps (grows chat 0) (fetchWithRetries env url p retries).
Proof.
  apply grows_of_same_store. intros w. unfold fetchWithRetries.
  destruct (BackoffSchedule.fetch_loop_shape env url p retries retries 0 w eq_refl)
    as (Hs & _ & _ & Hf).
  done.
Qed.

Lemma grows_served r ok m n w0 w :
  grows chat n w0 w -> grows chat n w0 (served r ok m w).
Proof. done. Qed.

Lemma grows_addChat env data : keeps (grows chat 0) (addChat env data).
Proof.
  intros w. rewrite addChat_run.
  destruct (store_failure env (store_calls w)); simpl; (split; [done|]).
  - by apply grows_same.
  - split; [done|]. split; [simpl; lia|]. split; [simpl; congruence|].
    intros id c Hl. exists c. simpl. split; [|done].
    rewrite lookup_insert_ne; [done|]. intros <-.
    by rewrite (not_elem_of_dom_1 _ _ (is_fresh (dom (db_chats w)))) in Hl.
Qed.

End Grows.

Lemma grows_addMessage env chat data :
  (forall stamp, chatId (data stamp) = chat) ->
  keeps (grows (Some chat) 1) (addMessage env data).
Proof.
  intros Hchat w. rewrite addMessage_run.
  assert (Hfresh : db_messages w !! fresh (dom (db_messages w)) = None).
  { apply not_elem_of_dom, is_fresh. }
  destruct (store_failure env (store_calls w)); simpl; (split; [done|]).
  - by apply grows_same.
  - split; [by apply insert_subseteq|]. split.
    { simpl. rewrite map_size_insert_None by done. lia. }
    split.
    + simpl. intros id d Hl Hnone.
      destruct (decide (id = fresh (dom (db_messages w)))) as [->|Hne].
      * rewrite lookup_insert_eq in Hl. injection Hl as <-. by rewrite Hchat.
      * rewrite lookup_insert_ne in Hl by done. congruence.
    + intros id c Hl. exists c. by repeat split.
Qed.

Lemma grows_updateChat env chat p :
  p_pinned p = None -> p_category p = None ->
  keeps (grows (Some chat) 0) (updateChat env chat p).
Proof.
  intros Hp Hcat w. rewrite updateChat_run.
  destruct (store_failure env (store_calls w)); simpl.
  { split; [done|]. by apply grows_same. }
  destruct (db_chats w !! chat) as [c|] eqn:Hc; simpl; (split; [done|]).
  2:{ by apply grows_same. }
  split; [done|]. split; [simpl; lia|]. split; [simpl; congruence|].
  intros id c0 Hl. simpl.
  destruct (decide (id = chat)) as [->|Hne].
  - rewrite lookup_insert_eq. eexists. split; [done|].
    assert (c0 = c) as -> by congruence.
    unfold apply_patch. simpl. rewrite Hp, Hcat. by repeat split.
  - rewrite lookup_insert_ne by done. exists c0. by repeat split.
Qed.

Lemma grows_saveUserMessage env user st chat t :
  keeps (grows (Some chat) 1) (saveUserMessage env user st chat t).
Proof.
  unfold saveUserMessage.
  apply (grows_bind _ 1 0); [by apply grows_addMessage|]. intros ref.
  destruct (decide _); by apply grows_updateChat.
Qed.

Lemma grows_completeTurn env st chat t :
  keeps (grows (Some chat) 1) (completeTurn env st chat t).
Proof.
  unfold completeTurn.
  apply (grows_bind _ 0 1).
  { unfold preparePayload. destruct (truthy_opt (selectedImage st)).
    - apply (grows_bind _ 0 0); [apply grows_app_effect|].
      intros. apply grows_ret.
    - apply grows_ret. }
  intros [url p].
  apply (grows_bind _ 0 1); [apply grows_fetchWithRetries|]. intros r.
  apply (grows_bind _ 0 1).
  { unfold responseText. destruct r as [r|]; [|apply grows_throw].
    destruct (resp_body r) as [e|[a|]|e];
      [apply grows_throw | apply grows_ret | apply grows_ret
      | apply grows_throw]. }
  intros a. destruct (extractImageRequest a) as [aiText url'].
  apply (grows_bind _ 1 0); [by apply grows_addMessage|]. intros ref.
  apply (grows_bind _ 0 0); [by apply grows_updateChat|]. intros _.
  destruct (speechEnabled st); [apply grows_emit | apply grows_ret].
Qed.

Lemma grows_saveErrorMessage env chat e :
  keeps (grows (Some chat) 1) (saveErrorMessage env chat e).
Proof.
  unfold saveErrorMessage. apply (grows_try_catch _ 1 0).
  - apply (grows_bind _ 1 0); [by apply grows_addMessage|]. intros ref.
    by apply grows_updateChat.
  - intros. apply grows_ret.
Qed.

Lemma grows_createNewChat env user chat :
  keeps (grows chat 0) (createNewChat env user).
Proof.
  unfold createNewChat. apply (grows_try_catch _ 0 0).
  - apply (grows_bind _ 0 0); [apply grows_addChat|]. intros ref.
    apply (grows_bind _ 0 0); [apply grows_app_effect|]. intros _.
    apply (grows_bind _ 0 0); [apply grows_app_effect|]. intros _.
    apply grows_ret.
  - intros. apply grows_ret.
Qed.

Lemma grows_handleSendMessage env user st :
  keeps (grows (currentChatId st) 3) (handleSendMessage env user st).
Proof.
  unfold handleSendMessage.
  destruct (_ || _).
  { intros w. split; [done|]. by apply grows_same. }
  apply (grows_bind _ 0 3); [apply grows_app_effect|]. intros _.
  apply (grows_bind _ 0 3); [apply grows_app_effect|]. intros _.
  apply (grows_bind _ 0 3); [apply grows_app_effect|]. intros _.
  destruct (currentChatId st) as [chat|] eqn:Hchat; cbn [truthy_opt default negb].
  2:{ apply (grows_bind _ 0 3); [apply grows_createNewChat|]. intros id.
      intros w. destruct (negb (truthy_opt id)); (split; [done|]);
        by apply grows_same. }
  destruct (JS.truthy chat); cbn [negb].
  2:{ apply (grows_bind _ 0 3); [apply grows_createNewChat|]. intros id.
      intros w. destruct (negb (truthy_opt id)); (split; [done|]);
        by apply grows_same. }
  apply (grows_bind _ 1 2).
  { apply (grows_try_catch _ 1 0).
    - apply (grows_bind _ 1 0); [apply grows_saveUserMessage|].
      intros. apply grows_ret.
    - intros e. apply (grows_bind _ 0 0); [apply grows_app_effect|].
      intros. apply grows_ret. }
  intros saved. destruct (negb saved).
  { intros w. split; [done|]. by apply grows_same. }
  apply grows_finally. apply (grows_try_catch _ 1 1).
  - apply grows_completeTurn.
  - apply grows_saveErrorMessage.
Qed.

(** X10: whatever the state, the store and the backend do,
    [handleSendMessage] removes and changes no turn, adds at most three
    turns, all to the current chat, removes no chat record, leaves every
    record but the one of the current chat as it is, and keeps the owner,
    creation time, pin and category of that one. *)
Theorem submission_only_appends env user st w :
  let w' := (handleSendMessage env user st w).2 in
  db_messages w ⊆ db_messages w'
  /\ size (db_messages w') <= size (db_messages w) + 3
  /\ (forall id d, db_messages w' !! id = Some d -> db_messages w !! id = None ->
        currentChatId st = Some (chatId d))
  /\ (forall id c, db_chats w !! id = Some c ->
        exists c', db_chats w' !! id = Some c'
                   /\ owner c' = owner c
                   /\ chat_createdAt c' = chat_createdAt c
                   /\ pinned c' = pinned c
                   /\ category c' = category c
                   /\ (currentChatId st <> Some id -> c' = c)).
Proof. apply grows_handleSendMessage. Qed.

(** The handler never throws. *)
Lemma createNewChat_ok env user w :
  exists r, (createNewChat env user w).1 = Ok r.
Proof.
  rewrite createNewChat_run.
  destruct (store_failure env (store_calls w)); by eexists.
Qed.

(** X11: [handleSendMessage] never throws, for any state and any
    environment, and when it ends either nothing has changed or [isLoading]
    is false. *)
Theorem submission_always_ends env user st w :
  (handleSendMessage env user st w).1 = Ok tt
  /\ ((handleSendMessage env user st w).2 = w
      \/ isLoading (app (handleSendMessage env user st w).2) = false).
Proof.
  destruct (isLoading st) eqn:Hload.
  { rewrite handleSendMessage_rejected by by right. split; [done|by left]. }
  destruct (JS.truthy (JS.trim (input st))) eqn:Hin;
    [|destruct (truthy_opt (selectedImage st)) eqn:Himg].
  3:{ rewrite handleSendMessage_rejected by by left. split; [done|by left]. }
  all: assert (Hsome : JS.truthy (JS.trim (input st)) = true
                       \/ truthy_opt (selectedImage st) = true)
         by (by (left + right)).
  all: destruct (truthy_opt (currentChatId st)) eqn:Hchat.
  all: try (rewrite handleSendMessage_no_chat by done;
            destruct (createNewChat env user (submitting w)) as [[[id|]|e|] w1];
            split; try done; by right).
  all: destruct (currentChatId st) as [chat|] eqn:Hc; [|done];
       cbn in Hchat;
       destruct (handleSendMessage_ends env user st chat w) as [H1 H2];
       [by repeat split | split; [done | by right]].
Qed.
End AppendOnly.

(** ** The other handlers of the chat component *)

Module Actions.
Import Firestore AIChat ChatActions EngineSpec BackoffSpec BackoffClient
       DeletionSpec StoreFacts Engine ScheduleSpec TurnSpec Submission
       AppendOnly.

(** Once the write of the user turn has succeeded the turn is in the log
    when the handler ends. *)
Lemma user_turn_is_kept env user st chat w :
  accepted st chat ->
  store_failure env (store_calls w) = None ->
  db_messages (handleSendMessage env user st w).2
    !! fresh (dom (db_messages w)) = Some (user_turn user st chat (now w)).
Proof.
  intros Hacc H0. rewrite (handleSendMessage_run _ _ _ _ _ Hacc).
  assert (Hsave : exists w1,
    (saveUserMessage env user st chat (JS.trim (input st)) (submitting w)).2 = w1
    /\ (saveUserMessage env user st chat (JS.trim (input st)) (submitting w)).1
         <> OutOfFuel
    /\ db_messages w1 !! fresh (dom (db_messages w))
       = Some (user_turn user st chat (now w))).
  { eexists. split; [reflexivity|].
    unfold saveUserMessage, bind. rewrite addMessage_run. cbn [store_calls submitting with_app].
    rewrite H0.
    destruct (decide _); rewrite updateChat_run; cbn;
      destruct (store_failure env (S (store_calls w)));
      try destruct (db_chats w !! chat); cbn;
      (split; [done|]); apply lookup_insert_eq. }
  destruct Hsave as (w1 & Hw1 & Hf & Hl).
  destruct (saveUserMessage env user st chat (JS.trim (input st)) (submitting w))
    as [[[]|e|] w1'] eqn:E; cbn [fst snd] in *; subst w1'; [| done | done].
  cbn zeta. cbn [snd db_messages with_app].
  destruct (assistant_half env st chat (JS.trim (input st)) w1)
    as (_ & _ & Hsub & _).
  by eapply lookup_weaken.
Qed.

(** X12: once the write of the user turn of an accepted submission has
    succeeded, that turn is in the log under a new id when the handler ends,
    whatever fails afterwards. *)
Theorem stored_user_turn_is_never_lost env user st chat w :
  accepted st chat ->
  store_failure env (store_calls w) = None ->
  (handleSendMessage env user st w).1 = Ok tt
  /\ db_messages (handleSendMessage env user st w).2
       !! fresh (dom (db_messages w)) = Some (user_turn user st chat (now w))
  /\ db_messages w !! fresh (dom (db_messages w)) = None.
Proof.
  intros Hacc H0. split; [by apply (handleSendMessage_ends env user st chat)|].
  split; [by apply user_turn_is_kept|].
  apply not_elem_of_dom, is_fresh.
Qed.

Lemma stored_user_turn_is_never_lost_witness :
  (handleSendMessage reliable_env demo_user (demo_state "hi") demo_world).1 = Ok tt
  /\ db_messages (handleSendMessage reliable_env demo_user (demo_state "hi")
                    demo_world).2
       !! fresh (dom (db_messages demo_world))
     = Some (user_turn demo_user (demo_state "hi") "c" (now demo_world))
  /\ db_messages demo_world !! fresh (dom (db_messages demo_world)) = None.
Proof.
  apply (stored_user_turn_is_never_lost reliable_env demo_user
           (demo_state "hi") "c" demo_world).
  - repeat split. by left.
  - reflexivity.
Defined.

(** *** [regenerateResponse] *)





Lemma regenerateAndSubmit_idle env user st w :
  isLoading st = true \/ userMessages st = [] ->
  regenerateAndSubmit env user st w = (Ok tt, w).
Proof.
  intros H. unfold regenerateAndSubmit, bind, regenerateResponse.
  destruct (isLoading st); [done|]. destruct H as [H| ->]; done.
Qed.

(** X14: right after [handleSelectChat] the view is empty until the
    snapshot of the chat arrives; a text submitted in that state, when its
    two writes succeed, sets the title of the chat to [chatTitle] of the
    text, whatever title the record had and however many turns the log
    already holds. *)
Theorem submission_right_after_select_retitles env user chat typed w c :
  JS.truthy chat = true ->
  JS.truthy (JS.trim typed) = true ->
  isLoading (app w) = false ->
  db_chats w !! chat = Some c ->
  store_failure env (store_calls w) = None ->
  store_failure env (S (store_calls w)) = None ->
  let w1 := (handleSelectChat chat w).2 in
  let w2 := (setInput typed w1).2 in
  let w3 := (submit env user w2).2 in
  messages (app w2) = []
  /\ title <$> db_chats w3 !! chat = Some (Some (chatTitle (JS.trim typed)))
  /\ pending chat (db_messages w) < pending chat (db_messages w3).
Proof.
  intros Hchat Htyped Hload Hc H0 H1 w1 w2 w3.
  split; [done|].
  set (st := app w2).
  assert (Hacc : accepted st chat).
  { unfold st, w2, w1. cbn. repeat split; try done. by left. }
  assert (Hpatch : p_title (user_patch st) = Some (chatTitle (JS.trim typed))).
  { done. }
  unfold w3, submit. fold st.
  rewrite (handleSendMessage_run _ _ _ _ _ Hacc).
  destruct (saveUserMessage_succeeds env user st chat (submitting w2) c)
    as (w4 & -> & Hm4 & Hc4 & _); try done.
  cbn zeta.
  destruct (assistant_half env st chat (JS.trim (input st)) w4)
    as (_ & Ht & Hm & _).
  set (w5 := (try_catch _ _ w4).2) in *.
  cbn [snd db_chats db_messages with_app]. split.
  - assert (titles w5 !! chat = Some (Some (chatTitle (JS.trim typed)))) as Hl.
    { rewrite Ht. unfold titles. rewrite Hc4, lookup_fmap, lookup_insert_eq.
      cbn [fmap option_fmap option_map].
      by rewrite (title_apply_patch_set _ _ _ _ Hpatch). }
    unfold titles in Hl. by rewrite lookup_fmap in Hl.
  - apply Nat.lt_le_trans with (pending chat (db_messages w4)).
    + rewrite Hm4.
      change (db_messages (submitting w2)) with (db_messages w).
      rewrite !pending_size.
      rewrite map_filter_insert_True by done.
      rewrite map_size_insert_None; [lia|].
      apply map_lookup_filter_None. left.
      apply not_elem_of_dom, is_fresh.
    + rewrite !pending_size. apply map_subseteq_size.
      by apply map_filter_subseteq_mono.
Qed.

Lemma submission_right_after_select_retitles_witness :
  let w1 := (handleSelectChat "c" replay_world).2 in
  let w2 := (setInput "New topic" w1).2 in
  let w3 := (submit reliable_env demo_user w2).2 in
  messages (app w2) = []
  /\ title <$> db_chats w3 !! "c" = Some (Some (chatTitle (JS.trim "New topic")))
  /\ pending "c" (db_messages replay_world) < pending "c" (db_messages w3).
Proof.
  apply (submission_right_after_select_retitles reliable_env demo_user
           "c" "New topic" replay_world new_chat).
  - reflexivity.
  - reflexivity.
  - reflexivity.
  - reflexivity.
  - reflexivity.
  - reflexivity.
Defined.
End Actions.

Module ViewActions.
Import Firestore AIChat ChatActions EngineSpec DeletionSpec StoreFacts Engine
       DirectiveSpec StringFacts ExportSpec.


(** X16: a key event triggers at most one shortcut; without Ctrl or Meta
    only Escape and Shift+? do anything; and Shift+? always toggles the
    shortcut help and cancels the default action of the key, also while a
    text is being typed. *)
Theorem shortcuts_are_exclusive e :
  handleKeyDown e ∈
    [ [];
      [PreventDefault; NewChat];
      [PreventDefault; ToggleHistory];
      [PreventDefault; ToggleDarkMode];
      [PreventDefault; ToggleSpeech];
      [CloseModals];
      [PreventDefault; ToggleShortcuts] ]
  /\ (ctrlKey e = false -> metaKey e = false -> handleKeyDown e <> [] ->
      key e = "Escape" \/ (shiftKey e = true /\ key e = "?"))
  /\ (shiftKey e = true -> key e = "?" ->
      handleKeyDown e = [PreventDefault; ToggleShortcuts]).
Proof.
  unfold handleKeyDown.
  destruct (String.eqb_spec (key e) "k") as [Hk|Hk];
  destruct (String.eqb_spec (key e) "/") as [Hs|Hs];
  destruct (String.eqb_spec (key e) "D") as [HD|HD];
  destruct (String.eqb_spec (key e) "S") as [HS|HS];
  destruct (String.eqb_spec (key e) "Escape") as [HE|HE];
  destruct (String.eqb_spec (key e) "?") as [HQ|HQ];
  try congruence;
  destruct (ctrlKey e), (metaKey e), (shiftKey e); cbn;
  (split; [set_solver|]); (split; [intros; try done; tauto|]);
  intros; congruence.
Qed.
End ViewActions.

(** ** The bold markup of a displayed turn *)

Module BoldMarkup.
Import ChatActions DirectiveSpec StringFacts.

#[local] Arguments String.append !_ _ / : simpl nomatch.

Lemma startsWith_stars_app (s u : string) :
  s <> EmptyString ->
  JS.startsWith "**" (s +:+ "**" +:+ u) = JS.startsWith "**" (s +:+ "*").
Proof.
  destruct s as [|c [|d s]]; [done| |]; intros _; simpl;
    destruct (Ascii.eqb "*" c); try done.
Qed.

Lemma includes_tail c s p :
  JS.includes (String c s) p = false -> JS.includes s p = false.
Proof. simpl. by intros [_ H]%orb_false_iff. Qed.

Lemma includes_head s p :
  JS.includes s p = false -> JS.startsWith p s = false.
Proof. destruct s; simpl; by intros [H _]%orb_false_iff. Qed.

Lemma lazy_until_stars_sound s : forall g a,
  lazy_until_stars s = Some (g, a) ->
  s = g +:+ "**" +:+ a /\ no_line_terminator g = true.
Proof.
  induction s as [|c s IH]; intros g a.
  { simpl. done. }
  cbn [lazy_until_stars].
  destruct (JS.startsWith "**" (String c s)) eqn:Hs.
  { intros [= <- <-]. split; [|done]. by apply (startsWith_split "**"). }
  destruct (JS.is_line_terminator c) eqn:Hlt; [done|].
  destruct (lazy_until_stars s) as [[g' a']|]; [|done].
  intros [= <- <-]. destruct (IH _ _ eq_refl) as [-> Hg].
  split; [done|]. unfold no_line_terminator in *. simpl. by rewrite Hlt.
Qed.

Lemma lazy_until_stars_complete g : forall a,
  no_line_terminator g = true ->
  JS.includes (g +:+ "*") "**" = false ->
  lazy_until_stars (g +:+ "**" +:+ a) = Some (g, a).
Proof.
  induction g as [|c g IH]; intros a Hlt Hinc.
  { simpl. by destruct a. }
  assert (Hs : JS.startsWith "**" (String c g +:+ "**" +:+ a) = false).
  { rewrite startsWith_stars_app by done. by apply includes_head. }
  change (String c g +:+ "**" +:+ a) with (String c (g +:+ "**" +:+ a)) in *.
  cbn [lazy_until_stars]. rewrite Hs.
  unfold no_line_terminator in Hlt. simpl in Hlt.
  apply andb_true_iff in Hlt as [Hc Hg]. apply negb_true_iff in Hc.
  rewrite Hc, IH; [done | done |].
  by apply (includes_tail c).
Qed.

Lemma bold_here_sound s g a :
  bold_here s = Some (g, a) ->
  s = "**" +:+ g +:+ "**" +:+ a /\ no_line_terminator g = true.
Proof.
  unfold bold_here. destruct (JS.startsWith "**" s) eqn:Hs; [|done].
  intros [Hg Hlt]%lazy_until_stars_sound. split; [|done].
  rewrite <- Hg. by apply (startsWith_split "**").
Qed.

Lemma bold_here_complete g a :
  no_line_terminator g = true ->
  JS.includes (g +:+ "*") "**" = false ->
  bold_here ("**" +:+ g +:+ "**" +:+ a) = Some (g, a).
Proof.
  intros Hlt Hinc. unfold bold_here. cbn [JS.startsWith].
  simpl. by apply lazy_until_stars_complete.
Qed.

Lemma bold_here_none s :
  JS.startsWith "**" s = false -> bold_here s = None.
Proof. unfold bold_here. by intros ->. Qed.

Lemma bold_here_length s g a :
  bold_here s = Some (g, a) -> String.length a + 4 <= String.length s.
Proof.
  intros [-> _]%bold_here_sound. simpl. rewrite !length_app. simpl. lia.
Qed.

(** Fuel above the length of the text makes no difference. *)
Lemma replaceBold_fuel n : forall s f1 f2,
  String.length s <= n -> String.length s < f1 -> String.length s < f2 ->
  replaceBold f1 s = replaceBold f2 s.
Proof.
  induction n as [|n IH]; intros s f1 f2 Hn H1 H2;
    (destruct f1 as [|f1]; [lia|]); (destruct f2 as [|f2]; [lia|]);
    cbn [replaceBold].
  - destruct s; [|simpl in Hn; lia]. done.
  - destruct (bold_here s) as [[g a]|] eqn:Hb.
    + pose proof (bold_here_length _ _ _ Hb).
      do 3 f_equal. apply IH; lia.
    + destruct s as [|c s]; [done|]. simpl in *. f_equal. apply IH; lia.
Qed.

Lemma replaceBold_plain s : forall fuel,
  JS.includes s "**" = false -> replaceBold fuel s = s.
Proof.
  induction s as [|c s IH]; intros [|fuel] Hinc; try done.
  cbn [replaceBold]. rewrite bold_here_none by by apply includes_head.
  f_equal. apply IH. by apply (includes_tail c).
Qed.

Lemma replaceBold_before before : forall rest fuel,
  JS.includes (before +:+ "*") "**" = false ->
  replaceBold (String.length before + fuel) (before +:+ "**" +:+ rest)
  = before +:+ replaceBold fuel ("**" +:+ rest).
Proof.
  induction before as [|c before IH]; intros rest fuel Hinc; [done|].
  assert (Hs : JS.startsWith "**" (String c before +:+ "**" +:+ rest) = false).
  { rewrite startsWith_stars_app by done. by apply includes_head. }
  change (String c before +:+ "**" +:+ rest)
    with (String c (before +:+ "**" +:+ rest)) in *.
  cbn [String.length Nat.add replaceBold].
  rewrite bold_here_none by done.
  change (String c before +:+ replaceBold fuel ("**" +:+ rest))
    with (String c (before +:+ replaceBold fuel ("**" +:+ rest))).
  f_equal. apply IH. by apply (includes_tail c).
Qed.

(** X17: the markup of a displayed turn.  A text without two
    consecutive stars is handed to the page unchanged (nothing in it is
    escaped); the first pair of double stars on one line becomes a
    [<strong>] element around the shortest text they enclose, the text before
    it is kept as it is, and the replacement goes on after the pair. *)
Theorem bold_markup_replaces_star_pairs :
  (forall m, JS.includes (msg_text m) "**" = false ->
             messageContent m = msg_text m)
  /\ (forall m before g after,
        msg_text m = before +:+ "**" +:+ g +:+ "**" +:+ after ->
        JS.includes (before +:+ "*") "**" = false ->
        JS.includes (g +:+ "*") "**" = false ->
        no_line_terminator g = true ->
        messageContent m =
          before +:+ "<strong>" +:+ g +:+ "</strong>"
            +:+ replaceBold (S (String.length after)) after).
Proof.
  split.
  - intros m H. unfold messageContent. by apply replaceBold_plain.
  - intros m before g after Ht Hb Hg Hlt. unfold messageContent. rewrite Ht.
    set (text := before +:+ "**" +:+ g +:+ "**" +:+ after).
    assert (Hlen : String.length text
                   = String.length before + (4 + String.length g
                                             + String.length after)).
    { unfold text. repeat (rewrite ?length_app; simpl). lia. }
    replace (S (String.length text))
      with (String.length before
            + S (4 + String.length g + String.length after)) by lia.
    unfold text. rewrite replaceBold_before by done.
    f_equal. set (R := replaceBold (S (String.length after)) after).
    cbn [replaceBold]. rewrite bold_here_complete by done.
    do 3 f_equal. apply (replaceBold_fuel (String.length after)); lia.
Qed.
End BoldMarkup.

(** ** The chat list, dates, pins and categories *)

Module SidebarView.
Import Firestore AIChat ChatHistory Sidebar SidebarSpec EngineSpec DeletionSpec
       Engine.

(** *** The chat subscription *)

Lemma by_updatedAt_desc_trans : Transitive by_updatedAt_desc.
Proof. intros a b c. unfold by_updatedAt_desc. lia. Qed.

Lemma by_updatedAt_desc_total : Total by_updatedAt_desc.
Proof. intros a b. unfold by_updatedAt_desc. lia. Qed.

Lemma elem_of_chats_of u db id c :
  (id, c) ∈ chats_of u db <-> db !! id = Some c /\ owner c = u.
Proof.
  unfold chats_of. rewrite elem_of_map_to_list, map_lookup_filter_Some. done.
Qed.

Lemma snapshot_chats_with_uid user u db :
  uid user = Some u -> JS.truthy u = true ->
  snapshot_chats user db =
    map (fun kv => {| chat_id := kv.1; chat_data := kv.2 |})
        (merge_sort by_updatedAt_desc (chats_of u db)).
Proof. intros Hu Ht. unfold snapshot_chats. by rewrite Hu; cbn; rewrite Ht. Qed.

(** X18: the list given to the sidebar holds exactly the chat records
    whose owner is the signed-in user, each once, most recently updated
    first. *)
Theorem chat_list_shows_own_chats user u db :
  uid user = Some u -> JS.truthy u = true ->
  (forall c, c ∈ snapshot_chats user db <->
             db !! chat_id c = Some (chat_data c) /\ owner (chat_data c) = u)
  /\ NoDup (map chat_id (snapshot_chats user db))
  /\ StronglySorted newer_first (snapshot_chats user db).
Proof.
  intros Hu Ht. rewrite (snapshot_chats_with_uid user u db Hu Ht).
  set (sorted := merge_sort by_updatedAt_desc (chats_of u db)).
  assert (Hperm : sorted ≡ₚ chats_of u db) by apply merge_sort_Permutation.
  split; [|split].
  - intros [id c]. cbn. rewrite list_elem_of_fmap. split.
    + intros ([id' c'] & [= -> ->] & Hin). rewrite Hperm in Hin.
      by apply elem_of_chats_of.
    + intros H. exists (id, c). split; [done|]. rewrite Hperm.
      by apply elem_of_chats_of.
  - rewrite map_map. cbn.
    change (map (fun x : string * chat_doc => x.1) sorted) with (sorted.*1).
    rewrite Hperm. apply NoDup_fst_map_to_list.
  - apply (StronglySorted_fmap _ by_updatedAt_desc); [done|].
    apply StronglySorted_merge_sort;
      [apply by_updatedAt_desc_trans | apply by_updatedAt_desc_total].
Qed.

Lemma chat_list_shows_own_chats_witness :
  (forall c, c ∈ snapshot_chats demo_user (db_chats two_chats) <->
             db_chats two_chats !! chat_id c = Some (chat_data c)
             /\ owner (chat_data c) = "u1")
  /\ NoDup (map chat_id (snapshot_chats demo_user (db_chats two_chats)))
  /\ StronglySorted newer_first (snapshot_chats demo_user (db_chats two_chats)).
Proof.
  apply (chat_list_shows_own_chats demo_user "u1" (db_chats two_chats)).
  - reflexivity.
  - reflexivity.
Defined.

Lemma snapshot_chats_without_uid user db :
  truthy_opt (uid user) = false -> snapshot_chats user db = [].
Proof. unfold snapshot_chats. by intros ->. Qed.

(** X19: [formatDate] of a record that is [diff] ms old: "Just now" below
    one minute (also for a time in the future), the whole minutes from 1 to 59
    below one hour, the whole hours from 1 to 23 below one day, the whole days
    from 1 to 6 below one week, and the date of the browser from one week
    on. *)
Theorem formatDate_units nowMs locale date :
  let diff := (nowMs - date)%Z in
  let shown := formatDate nowMs locale (Some date) in
  ((diff < 60000)%Z -> shown = "Just now")
  /\ ((60000 <= diff < 3600000)%Z ->
      exists n, (1 <= n <= 59)%Z /\ shown = pretty n +:+ "m ago"
                /\ (n * 60000 <= diff < (n + 1) * 60000)%Z)
  /\ ((3600000 <= diff < 86400000)%Z ->
      exists n, (1 <= n <= 23)%Z /\ shown = pretty n +:+ "h ago"
                /\ (n * 3600000 <= diff < (n + 1) * 3600000)%Z)
  /\ ((86400000 <= diff < 604800000)%Z ->
      exists n, (1 <= n <= 6)%Z /\ shown = pretty n +:+ "d ago"
                /\ (n * 86400000 <= diff < (n + 1) * 86400000)%Z)
  /\ ((604800000 <= diff)%Z -> shown = locale date).
Proof.
  intros diff shown. subst shown. unfold formatDate. fold diff.
  destruct (Z.ltb_spec diff 60000); [repeat split; intros; (done || lia)|].
  destruct (Z.ltb_spec diff 3600000).
  { repeat split; intros; try lia. exists (diff / 60000)%Z.
    split; [|split; [done|]].
    - split; [apply Z.div_le_lower_bound; lia|].
      assert (diff / 60000 < 60)%Z; [apply Z.div_lt_upper_bound; lia | lia].
    - pose proof (Z.mul_div_le diff 60000 ltac:(lia)).
      pose proof (Z.mul_succ_div_gt diff 60000 ltac:(lia)). lia. }
  destruct (Z.ltb_spec diff 86400000).
  { repeat split; intros; try lia. exists (diff / 3600000)%Z.
    split; [|split; [done|]].
    - split; [apply Z.div_le_lower_bound; lia|].
      assert (diff / 3600000 < 24)%Z; [apply Z.div_lt_upper_bound; lia | lia].
    - pose proof (Z.mul_div_le diff 3600000 ltac:(lia)).
      pose proof (Z.mul_succ_div_gt diff 3600000 ltac:(lia)). lia. }
  destruct (Z.ltb_spec diff 604800000).
  { repeat split; intros; try lia. exists (diff / 86400000)%Z.
    split; [|split; [done|]].
    - split; [apply Z.div_le_lower_bound; lia|].
      assert (diff / 86400000 < 7)%Z; [apply Z.div_lt_upper_bound; lia | lia].
    - pose proof (Z.mul_div_le diff 86400000 ltac:(lia)).
      pose proof (Z.mul_succ_div_gt diff 86400000 ltac:(lia)). lia. }
  repeat split; intros; (done || lia).
Qed.

(** *** Pinning and categories *)

Lemma handlePinChat_run env st chatId w :
  let viewPinned :=
    from_option (fun c => pinned (chat_data c)) false
      (List.find (fun c => String.eqb (chat_id c) chatId) (chats st)) in
  let p := {| p_title := None; p_lastMessage := None; p_lastSender := None;
              p_pinned := Some (negb viewPinned); p_category := None |} in
  handlePinChat env st chatId w =
    match store_failure env (store_calls w), db_chats w !! chatId with
    | None, Some c =>
        (Ok tt, served (UpdateChat chatId p) true (db_messages w)
                  (tick (with_db_chats
                           (insert chatId
                              (touched (now w) (with_pinned (negb viewPinned) c)))
                           w)))
    | _, _ => (Ok tt, served (UpdateChat chatId p) false (db_messages w) w)
    end.
Proof.
  intros viewPinned p. unfold handlePinChat, try_catch.
  fold viewPinned. fold p. rewrite updateChat_run.
  destruct (store_failure env (store_calls w)); [done|].
  by destruct (db_chats w !! chatId).
Qed.

Lemma handleSetCategory_run env chatId cat w :
  let p := {| p_title := None; p_lastMessage := None; p_lastSender := None;
              p_pinned := None; p_category := Some cat |} in
  handleSetCategory env chatId cat w =
    match store_failure env (store_calls w), db_chats w !! chatId with
    | None, Some c =>
        (Ok tt, served (UpdateChat chatId p) true (db_messages w)
                  (tick (with_db_chats
                           (insert chatId
                              (touched (now w) (with_category cat c)))
                           w)))
    | _, _ => (Ok tt, served (UpdateChat chatId p) false (db_messages w) w)
    end.
Proof.
  intros p. unfold handleSetCategory, try_catch.
  fold p. rewrite updateChat_run.
  destruct (store_failure env (store_calls w)); [done|].
  by destruct (db_chats w !! chatId).
Qed.

(** X20: [handlePinChat] and [handleSetCategory] never throw, touch no
    turn and no other chat record, create no record when the chat does not
    exist, and change nothing of the record but its pin, respectively its
    category, and the time of its last update.  When the store takes the
    write, the pin becomes the opposite of the pin that the sidebar shows
    for the chat (pinned, when the sidebar does not list it) and the
    category the one given. *)
Theorem pin_and_category_change_one_field env st chatId cat w :
  let pin := handlePinChat env st chatId w in
  let set := handleSetCategory env chatId cat w in
  (pin.1 = Ok tt /\ set.1 = Ok tt)
  /\ (db_messages pin.2 = db_messages w /\ db_messages set.2 = db_messages w)
  /\ (forall id, id <> chatId ->
        db_chats pin.2 !! id = db_chats w !! id
        /\ db_chats set.2 !! id = db_chats w !! id)
  /\ (db_chats w !! chatId = None ->
        db_chats pin.2 = db_chats w /\ db_chats set.2 = db_chats w)
  /\ (forall c, db_chats w !! chatId = Some c ->
        (exists c', db_chats pin.2 !! chatId = Some c'
                    /\ with_pinned (pinned c) (touched (updatedAt c) c') = c
                    /\ (store_failure env (store_calls w) = None ->
                        pinned c' =
                          negb (from_option (fun x => pinned (chat_data x)) false
                                  (List.find (fun x => String.eqb (chat_id x) chatId)
                                             (chats st)))))
        /\ (exists c', db_chats set.2 !! chatId = Some c'
                       /\ with_category (category c) (touched (updatedAt c) c') = c
                       /\ (store_failure env (store_calls w) = None ->
                           category c' = cat))).
Proof.
  intros pin set. subst pin set.
  rewrite handlePinChat_run, handleSetCategory_run. cbn zeta.
  destruct (store_failure env (store_calls w)) as [e|];
    [|destruct (db_chats w !! chatId) as [c0|] eqn:Hc]; cbn.
  - do 4 (split; [done|]). intros c Hc.
    split; exists c; (split; [done|]); (split; [|done]); by destruct c.
  - split; [done|]. split; [done|].
    split; [intros id Hne; by rewrite !lookup_insert_ne|].
    split; [done|]. intros c [= <-]. rewrite !lookup_insert_eq.
    split; eexists; (split; [done|]); (split; [|done]); by destruct c0.
  - do 4 (split; [done|]). intros c [=].
Qed.

(** The entry of a chat in the view of the store. *)
Lemma find_in_snapshot user u db id c :
  uid user = Some u -> JS.truthy u = true ->
  db !! id = Some c -> owner c = u ->
  List.find (fun x => String.eqb (chat_id x) id) (snapshot_chats user db)
  = Some {| chat_id := id; chat_data := c |}.
Proof.
  intros Hu Ht Hl Ho.
  destruct (List.find _ _) as [x|] eqn:Hf.
  - apply find_some in Hf as [Hin Heq].
    apply String.eqb_eq in Heq.
    apply list_elem_of_In in Hin.
    rewrite (snapshot_chats_with_uid user u db Hu Ht) in Hin.
    apply list_elem_of_fmap in Hin as ([id' c'] & -> & Hin).
    rewrite merge_sort_Permutation in Hin.
    apply elem_of_chats_of in Hin as [Hl' _]. cbn in *. subst id'.
    by assert (c' = c) as -> by congruence.
  - exfalso.
    assert (Hin : In {| chat_id := id; chat_data := c |} (snapshot_chats user db)).
    { apply list_elem_of_In.
      rewrite (snapshot_chats_with_uid user u db Hu Ht).
      apply list_elem_of_fmap. exists (id, c). split; [done|].
      rewrite merge_sort_Permutation. by apply elem_of_chats_of. }
    pose proof (find_none _ _ Hf _ Hin) as Hno. cbn in Hno.
    by rewrite String.eqb_refl in Hno.
Qed.

(** X21: pinning a chat from the sidebar and, once the sidebar shows
    the new state, pinning it again: the first call stores the opposite of the
    pin, the second one restores the record except for the time of its last
    update. *)
Theorem pin_then_unpin_restores_the_record env user u st id c w :
  uid user = Some u -> JS.truthy u = true ->
  db_chats w !! id = Some c -> owner c = u ->
  chats st = snapshot_chats user (db_chats w) ->
  store_failure env (store_calls w) = None ->
  store_failure env (S (store_calls w)) = None ->
  let w1 := (handlePinChat env st id w).2 in
  let w2 := deliver_chats user w1 in
  let w3 := (handlePinChat env (sidebar w2) id w2).2 in
  db_chats w1 = <[id := touched (now w) (with_pinned (negb (pinned c)) c)]> (db_chats w)
  /\ db_chats w3 = <[id := touched (S (now w)) c]> (db_chats w).
Proof.
  intros Hu Ht Hl Ho Hview H0 H1 w1 w2 w3.
  assert (E1 : db_chats w1
          = <[id := touched (now w) (with_pinned (negb (pinned c)) c)]> (db_chats w)).
  { unfold w1. rewrite handlePinChat_run. cbn zeta. rewrite H0, Hl, Hview.
    rewrite (find_in_snapshot user u (db_chats w) id c) by done. done. }
  split; [exact E1|].
  unfold w3. rewrite handlePinChat_run. cbn zeta.
  assert (Hs2 : store_calls w2 = S (store_calls w)).
  { unfold w2, w1. rewrite handlePinChat_run. cbn zeta. by rewrite H0, Hl. }
  assert (Hn2 : now w2 = S (now w)).
  { unfold w2, w1. rewrite handlePinChat_run. cbn zeta. by rewrite H0, Hl. }
  assert (Hc2 : db_chats w2 = db_chats w1) by done.
  rewrite Hs2, H1, Hc2, E1, lookup_insert_eq.
  cbn [snd db_chats served count_store_call log_journal log_event tick
       with_db_chats].
  rewrite Hc2, E1, Hn2, insert_insert_eq. f_equal.
  change (chats (sidebar w2)) with (snapshot_chats user (db_chats w1)).
  rewrite E1.
  rewrite (find_in_snapshot user u _ id
             (touched (now w) (with_pinned (negb (pinned c)) c)));
    [|done|done|apply lookup_insert_eq|done].
  cbn. rewrite negb_involutive. by destruct c.
Qed.

Lemma pin_then_unpin_restores_the_record_witness :
  let w1 := (handlePinChat reliable_env (synced_sidebar demo_user two_chats)
               "a" two_chats).2 in
  let w2 := deliver_chats demo_user w1 in
  let w3 := (handlePinChat reliable_env (sidebar w2) "a" w2).2 in
  db_chats w1 = <["a" := touched (now two_chats)
                           (with_pinned (negb (pinned new_chat)) new_chat)]>
                  (db_chats two_chats)
  /\ db_chats w3 = <["a" := touched (S (now two_chats)) new_chat]>
                     (db_chats two_chats).
Proof.
  apply (pin_then_unpin_restores_the_record reliable_env demo_user
           "u1" (synced_sidebar demo_user two_chats) "a" new_chat two_chats).
  - reflexivity.
  - reflexivity.
  - reflexivity.
  - reflexivity.
  - reflexivity.
  - reflexivity.
  - reflexivity.
Defined.
End SidebarView.

(** ** The scope and the requests of the deletions *)

Module DeletionScope.
Import Firestore ChatHistory DeletionSpec StoreFacts CascadingDeletion
       SingleDeletion IsolationSpec.

Lemma spares_refl ids w : spares ids w w.
Proof. by repeat split. Qed.

Lemma spares_trans ids w1 w2 w3 :
  spares ids w1 w2 -> spares ids w2 w3 -> spares ids w1 w3.
Proof.
  intros (Hm1 & Hc1 & Hs1 & Hr1) (Hm2 & Hc2 & Hs2 & Hr2).
  split; [|split; [|split]].
  - intros id d Hl Hn. apply Hm2; [|done]. by apply Hm1.
  - intros c Hn. rewrite Hc2, Hc1; done.
  - by etrans.
  - by etrans.
Qed.

Lemma spares_same ids w w' :
  db_messages w' = db_messages w -> db_chats w' = db_chats w ->
  spares ids w w'.
Proof. intros Hm Hc. unfold spares. rewrite Hm, Hc. by repeat split. Qed.

(** Deleting a page of a listed chat. *)
Lemma spares_page ids chat lim w w' :
  chat ∈ ids ->
  db_messages w' = foldr delete (db_messages w)
                     (take lim (messages_of chat (db_messages w))).*1 ->
  db_chats w' = db_chats w ->
  spares ids w w'.
Proof.
  intros Hin Hm Hc. unfold spares. rewrite Hm, Hc.
  split; [|split; [done|split; [apply delete_all_subseteq|done]]].
  intros id d Hl Hn. rewrite lookup_delete_all; [done|].
  intros Hid. destruct (page_ids chat (db_messages w) lim) as [_ Hpage].
  destruct (Hpage id Hid) as [d' Hd'].
  apply map_lookup_filter_Some in Hd' as [Hd' Hchat]. cbn in Hchat.
  assert (d' = d) as -> by congruence. congruence.
Qed.

Lemma spares_deleteMessagesLoop ids fuel env chat : forall w,
  chat ∈ ids -> spares ids w (deleteMessagesLoop fuel env chat w).2.
Proof.
  induction fuel as [|fuel IH]; intros w Hin; [apply spares_refl|].
  rewrite deleteMessagesLoop_unfold.
  destruct (store_failure env (store_calls w)); [by apply spares_same|].
  cbn zeta. destruct (decide _); [by apply spares_same|].
  destruct (store_failure env (S (store_calls w))); [by apply spares_same|].
  set (w2 := served (DeleteMessages _) true _ _).
  assert (H2 : spares ids w w2) by by apply (spares_page ids chat batchSize).
  destruct (_ <? _); [done|].
  eapply spares_trans; [exact H2|]. by apply IH.
Qed.

Lemma spares_deleteMessages ids env chat w :
  chat ∈ ids -> spares ids w (deleteMessages env chat w).2.
Proof. apply spares_deleteMessagesLoop. Qed.

Lemma spares_deleteAllMessages ids env l : forall w,
  l ⊆ ids -> spares ids w (deleteAllMessages env l w).2.
Proof.
  induction l as [|chat l IH]; intros w Hsub; [apply spares_refl|].
  cbn [deleteAllMessages]. unfold bind.
  pose proof (spares_deleteMessages ids env chat w
                ltac:(apply Hsub; by left)) as H1.
  destruct (deleteMessages env chat w) as [[[]|e|] w1]; cbn in *; try done.
  eapply spares_trans; [exact H1|]. apply IH.
  intros x Hx. apply Hsub. by right.
Qed.

Lemma spares_records ids batch w w' :
  batch ⊆ ids ->
  db_messages w' = db_messages w ->
  db_chats w' = foldr delete (db_chats w) batch ->
  spares ids w w'.
Proof.
  intros Hsub Hm Hc. unfold spares. rewrite Hm, Hc.
  split; [done|]. split; [|split; [done|apply delete_all_subseteq]].
  intros c Hn. apply lookup_delete_all. intros Hin. by apply Hn, Hsub.
Qed.

Lemma spares_deleteChatDocs ids fuel env l : forall i w,
  l ⊆ ids -> spares ids w (deleteChatDocs fuel env l i w).2.
Proof.
  induction fuel as [|fuel IH]; intros i w Hsub; cbn [deleteChatDocs].
  { destruct (_ <? _); apply spares_refl. }
  destruct (_ <? _); [|apply spares_refl].
  unfold bind. rewrite commitDeleteChats_run.
  destruct (store_failure env (store_calls w)); [by apply spares_same|].
  set (w1 := served _ true _ _).
  assert (H1 : spares ids w w1).
  { apply (spares_records ids (take maxBatchSize (drop i l))); try done.
    intros x Hx. apply Hsub. by apply (proj2 (batch_of_ids l i)). }
  eapply spares_trans; [exact H1|]. by apply IH.
Qed.

(** X22: whatever the store and the user answer, [handleDeleteChat]
    keeps every turn of every other chat and every other chat record, and
    adds nothing. *)
Theorem deleting_a_chat_spares_the_others env current chat w :
  let w' := (handleDeleteChat env current chat w).2 in
  (forall id d, db_messages w !! id = Some d -> chatId d <> chat ->
                db_messages w' !! id = Some d)
  /\ (forall c, c <> chat -> db_chats w' !! c = db_chats w !! c)
  /\ db_messages w' ⊆ db_messages w
  /\ db_chats w' ⊆ db_chats w.
Proof.
  intros w'. subst w'.
  assert (H : spares [chat] w (handleDeleteChat env current chat w).2).
  { rewrite handleDeleteChat_run. cbn zeta.
    destruct (negb _); [by apply spares_same|].
    set (w0 := log_event _ w).
    assert (H0 : spares [chat] w w0) by by apply spares_same.
    eapply spares_trans; [exact H0|].
    unfold try_catch, deleteChatBody, bind.
    pose proof (spares_deleteMessages [chat] env chat w0
                  ltac:(apply list_elem_of_here)) as H1.
    destruct (deleteMessages env chat w0) as [[[]|e|] w1]; cbn in *; try done.
    eapply spares_trans; [exact H1|]. rewrite deleteChat_run.
    destruct (store_failure env (store_calls w1)); [by apply spares_same|].
    assert (H2 : spares [chat] w1
                   (served (DeleteChat chat) true (db_messages w1)
                      (with_db_chats (delete chat) w1))).
    { apply (spares_records [chat] [chat]); done. }
    by destruct (decide _). }
  destruct H as (Hm & Hc & Hs & Hr).
  split; [|split; [|done]].
  - intros id d Hl Hn. apply Hm; [done|]. by intros Hin%list_elem_of_singleton.
  - intros c Hn. apply Hc. by intros Hin%list_elem_of_singleton.
Qed.

(** X23: whatever the store and the user answer,
    [handleClearAllChats] keeps every turn and every record of the chats that
    its list does not show, adds nothing, and ends with [isClearing]
    false. *)
Theorem clearing_spares_unlisted_chats env st w :
  let ids := map chat_id (chats st) in
  let w' := (handleClearAllChats env st w).2 in
  (forall id d, db_messages w !! id = Some d -> chatId d ∉ ids ->
                db_messages w' !! id = Some d)
  /\ (forall c, c ∉ ids -> db_chats w' !! c = db_chats w !! c)
  /\ db_messages w' ⊆ db_messages w
  /\ db_chats w' ⊆ db_chats w
  /\ (isClearing (sidebar w) = false -> isClearing (sidebar w') = false).
Proof.
  intros ids w'. subst w'.
  rewrite handleClearAllChats_run.
  destruct (isClearing st); [by repeat split|]. cbn zeta.
  destruct (negb _); [by repeat split|].
  destruct (negb _); [by repeat split|].
  set (w3 := with_sidebar _ _). fold ids.
  assert (H : spares ids w3 (try_catch (clearAllBody env ids) (fun _ => ret tt) w3).2).
  { unfold try_catch, clearAllBody, bind.
    pose proof (spares_deleteAllMessages ids env ids w3 ltac:(done)) as H1.
    destruct (deleteAllMessages env ids w3) as [[[]|e|] w4]; cbn in *; try done.
    pose proof (spares_deleteChatDocs ids (length ids) env ids 0 w4 ltac:(done))
      as H2.
    destruct (deleteChatDocs (length ids) env ids 0 w4) as [[[]|e|] w5];
      cbn in *; try done; by eapply spares_trans. }
  destruct H as (Hm & Hc & Hs & Hr). cbn [snd]. by repeat split.
Qed.

(** X24: without the confirmation of the user [handleDeleteChat] sends
    nothing to the store, and [handleClearAllChats] sends nothing unless no
    clearing is in progress and both of its questions are confirmed. *)
Theorem deletion_needs_confirmation env current chat st w :
  let q := "Delete this chat? This cannot be undone." in
  let q1 := confirmMessage (length (chats st)) in
  let q2 := "This is your last chance. Really delete ALL chats?" in
  (confirm_answer env q = false ->
   EngineSpec.same_store w (handleDeleteChat env current chat w).2
   /\ trace (handleDeleteChat env current chat w).2
      = trace w ++ [Confirm q false])
  /\ (isClearing st = true -> handleClearAllChats env st w = (Ok tt, w))
  /\ (isClearing st = false -> confirm_answer env q1 = false ->
      EngineSpec.same_store w (handleClearAllChats env st w).2
      /\ trace (handleClearAllChats env st w).2 = trace w ++ [Confirm q1 false])
  /\ (isClearing st = false -> confirm_answer env q1 = true ->
      confirm_answer env q2 = false ->
      EngineSpec.same_store w (handleClearAllChats env st w).2
      /\ trace (handleClearAllChats env st w).2
         = trace w ++ [Confirm q1 true; Confirm q2 false]).
Proof.
  intros q q1 q2. rewrite handleDeleteChat_run, handleClearAllChats_run.
  cbn zeta. fold q q1 q2. split; [|split; [|split]].
  - intros ->. by repeat split.
  - by intros ->.
  - intros -> ->. by repeat split.
  - intros -> -> ->. cbn. rewrite <- app_assoc. by repeat split.
Qed.

(** *** The number of pages *)

Lemma empty_page fuel env chat w :
  (forall n, store_failure env n = None) ->
  pending chat (db_messages w) = 0 ->
  exists w2,
    deleteMessagesLoop (S fuel) env chat w = (Ok tt, w2)
    /\ trace w2 = trace w ++ [Store (QueryMessages chat batchSize) true]
    /\ db_messages w2 = db_messages w
    /\ db_chats w2 = db_chats w.
Proof.
  intros Hok Hp. rewrite deleteMessagesLoop_unfold, !Hok. cbn zeta.
  unfold pending in Hp. apply length_zero_iff_nil in Hp. rewrite Hp.
  cbn. by eexists.
Qed.

Lemma div_step (n d : nat) : 0 < d -> d <= n -> n / d = S ((n - d) / d).
Proof.
  intros Hd Hn. replace n with ((n - d) + 1 * d) at 1 by lia.
  rewrite Nat.div_add by lia. lia.
Qed.

Lemma loop_pages env chat :
  (forall n, store_failure env n = None) ->
  forall fuel w,
    pending chat (db_messages w) < fuel ->
    exists w' t,
      deleteMessagesLoop fuel env chat w = (Ok tt, w')
      /\ trace w' = trace w ++ t
      /\ length (List.filter is_query t) = pending chat (db_messages w) / 200 + 1
      /\ length (List.filter is_message_batch t)
         = (pending chat (db_messages w) + 199) / 200
      /\ record_batches t = []
      /\ pending chat (db_messages w') = 0
      /\ db_chats w' = db_chats w.
Proof.
  intros Hok. induction fuel as [|fuel IH]; intros w Hfuel; [lia|].
  destruct (decide (pending chat (db_messages w) = 0)) as [Hz|Hnz].
  { destruct (empty_page fuel env chat w Hok Hz) as (w2 & -> & Ht & Hm & Hc).
    exists w2. eexists. split; [done|]. split; [exact Ht|].
    rewrite Hz, Hm. cbn. done. }
  destruct (decide (pending chat (db_messages w) < batchSize)) as [Hlt|Hge].
  { destruct (last_page fuel env chat w Hok ltac:(lia))
      as (ids & w2 & -> & Hl & Ht & Hp & Hc).
    exists w2. eexists. split; [done|]. split; [exact Ht|].
    unfold batchSize in *.
    assert (E1 : pending chat (db_messages w) / 200 = 0)
      by (apply Nat.div_small; lia).
    assert (E2 : (pending chat (db_messages w) + 199) / 200 = 1).
    { rewrite (div_step (_ + 199) 200) by lia.
      rewrite Nat.div_small by lia. done. }
    rewrite E1, E2. by repeat split. }
  destruct (full_page fuel env chat w Hok ltac:(lia))
    as (ids & w2 & -> & Hl & Ht & Hp & Hc).
  unfold batchSize in *.
  destruct (IH w2 ltac:(lia)) as (w' & t & -> & Ht' & Hq & Hb & Hr & Hz & Hc').
  exists w'. eexists. split; [done|]. split.
  { rewrite Ht', Ht, <- app_assoc. reflexivity. }
  assert (E1 : pending chat (db_messages w) / 200
               = S (pending chat (db_messages w2) / 200)).
  { rewrite (div_step (pending chat (db_messages w)) 200) by lia.
    do 2 f_equal. lia. }
  assert (E2 : (pending chat (db_messages w) + 199) / 200
               = S ((pending chat (db_messages w2) + 199) / 200)).
  { rewrite (div_step (pending chat (db_messages w) + 199) 200) by lia.
    do 2 f_equal. lia. }
  rewrite !List.filter_app, !length_app, Hq, Hb, E1, E2.
  unfold record_batches in *. rewrite omap_app, Hr.
  repeat split; try done; try (cbn; lia). congruence.
Qed.

(** X25: deleting a chat of [n] turns, when the user confirms and no
    request fails, takes [n / 200 + 1] page queries and [(n + 199) / 200]
    delete batches (one query for an empty chat, and a last query that comes
    back empty when [n] is a positive multiple of 200), after which no turn
    of the chat is left and its record is gone. *)
Theorem chat_is_drained_page_by_page env current chat w :
  reliable env ->
  let n := pending chat (db_messages w) in
  exists w' t,
    handleDeleteChat env current chat w = (Ok tt, w')
    /\ trace w' = trace w ++ t
    /\ length (List.filter is_query t) = n / 200 + 1
    /\ length (List.filter is_message_batch t) = (n + 199) / 200
    /\ pending chat (db_messages w') = 0
    /\ db_chats w' = delete chat (db_chats w).
Proof.
  intros [Hok Hyes] n. rewrite handleDeleteChat_run. cbn zeta. rewrite Hyes.
  cbv [negb]. cbv beta iota. set (w0 := log_event _ w).
  unfold try_catch, deleteChatBody, bind at 1, deleteMessages.
  destruct (loop_pages env chat Hok (S (size (db_messages w0))) w0)
    as (w1 & t & -> & Ht & Hq & Hb & _ & Hz & Hc).
  { pose proof (pending_le_size chat (db_messages w0)). lia. }
  unfold bind. rewrite deleteChat_run, Hok.
  destruct (decide (Some chat = current)); eexists _, _;
    (split; [reflexivity|]); cbn;
    (split; [rewrite Ht; cbn; rewrite <- !app_assoc; reflexivity|]);
    rewrite !List.filter_app, !length_app, Hq, Hb;
    (repeat split; try done; try (cbn; lia); try (by cbn; rewrite Hc)).
Qed.

Lemma chat_is_drained_page_by_page_witness :
  let n := pending "c" (db_messages world_450) in
  exists w' t,
    handleDeleteChat reliable_env (Some "c") "c" world_450 = (Ok tt, w')
    /\ trace w' = trace world_450 ++ t
    /\ length (List.filter is_query t) = n / 200 + 1
    /\ length (List.filter is_message_batch t) = (n + 199) / 200
    /\ pending "c" (db_messages w') = 0
    /\ db_chats w' = delete "c" (db_chats world_450).
Proof.
  apply (chat_is_drained_page_by_page reliable_env (Some "c") "c"
           world_450).
  split; reflexivity.
Defined.

(** *** The batches of chat records *)

Lemma deleteAllMessages_trace env l :
  (forall n, store_failure env n = None) ->
  forall w, exists w' t,
    deleteAllMessages env l w = (Ok tt, w')
    /\ trace w' = trace w ++ t
    /\ record_batches t = []
    /\ (forall id, id ∈ l -> pending id (db_messages w') = 0).
Proof.
  intros Hok. induction l as [|chat l IH]; intros w.
  { exists w, []. cbn. rewrite app_nil_r. repeat split; try done.
    by intros id ?%elem_of_nil. }
  cbn [deleteAllMessages]. unfold bind, deleteMessages.
  destruct (loop_pages env chat Hok (S (size (db_messages w))) w)
    as (w1 & t1 & -> & Ht1 & _ & _ & Hr1 & Hz1 & _).
  { pose proof (pending_le_size chat (db_messages w)). lia. }
  destruct (IH w1) as (w2 & t2 & Hrun & Ht2 & Hr2 & Hz2).
  pose proof (deleteAllMessages_spec env l w1) as (Hdrain & _ & _).
  rewrite Hrun in *. cbn in Hdrain.
  exists w2, (t1 ++ t2). split; [done|].
  split; [by rewrite Ht2, Ht1, app_assoc|].
  split; [unfold record_batches in *; by rewrite omap_app, Hr1, Hr2|].
  intros id [->|Hin]%elem_of_cons; [|by apply Hz2].
  by eapply drained_after.
Qed.

Lemma deleteChatDocs_batches env l :
  (forall n, store_failure env n = None) ->
  forall fuel i w,
    length l - i <= fuel ->
    exists w' t,
      deleteChatDocs fuel env l i w = (Ok tt, w')
      /\ trace w' = trace w ++ t
      /\ concat (record_batches t) = drop i l
      /\ Forall (fun b => 0 < length b <= maxBatchSize) (record_batches t)
      /\ length (record_batches t) = (length l - i + 499) / 500.
Proof.
  intros Hok. induction fuel as [|fuel IH]; intros i w Hfuel.
  { cbn [deleteChatDocs]. destruct (Nat.ltb_spec i (length l)); [lia|].
    exists w, []. cbn. rewrite app_nil_r, drop_ge by done.
    replace (length l - i) with 0 by lia. by repeat split. }
  cbn [deleteChatDocs]. destruct (Nat.ltb_spec i (length l)) as [Hlt|Hge].
  2:{ exists w, []. cbn. rewrite app_nil_r, drop_ge by done.
      replace (length l - i) with 0 by lia. by repeat split. }
  unfold bind. rewrite commitDeleteChats_run, Hok.
  set (batch := take maxBatchSize (drop i l)).
  set (w1 := served _ true _ _).
  destruct (IH (i + maxBatchSize) w1) as (w' & t & -> & Ht & Hcat & Hall & Hlen).
  { unfold maxBatchSize. lia. }
  exists w', (Store (DeleteChats batch) true :: t). split; [done|].
  split; [rewrite Ht; cbn; by rewrite <- app_assoc|].
  assert (Hb : 0 < length batch <= maxBatchSize).
  { unfold batch. rewrite length_take, length_drop. unfold maxBatchSize. lia. }
  change (record_batches (Store (DeleteChats batch) true :: t))
    with (batch :: record_batches t).
  cbn [concat length]. split; [|split].
  - rewrite Hcat. unfold batch. rewrite <- drop_drop. apply take_drop.
  - by constructor.
  - rewrite Hlen. unfold maxBatchSize.
    destruct (decide (length l - i <= 500)) as [Hsmall|Hbig].
    + replace (length l - (i + 500)) with 0 by lia.
      rewrite (div_step (length l - i + 499) 500) by lia.
      rewrite (Nat.div_small (0 + 499)) by lia.
      rewrite Nat.div_small by lia. done.
    + rewrite (div_step (length l - i + 499) 500) by lia.
      do 2 f_equal. lia.
Qed.

(** X26: when the user confirms twice and no request fails,
    [handleClearAllChats] deletes the records of its list in
    [(n + 499) / 500] batches of 1 to 500 records that, put end to end, are
    the list itself, and then calls [onNewChat]. *)
Theorem records_go_in_batches_of_500 env st w :
  reliable env ->
  isClearing st = false ->
  let ids := map chat_id (chats st) in
  exists w' t,
    handleClearAllChats env st w = (Ok tt, w')
    /\ trace w' = trace w
         ++ [Confirm (confirmMessage (length (chats st))) true;
             Confirm "This is your last chance. Really delete ALL chats?" true]
         ++ t ++ [OnNewChat]
    /\ concat (record_batches t) = ids
    /\ Forall (fun b => 0 < length b <= 500) (record_batches t)
    /\ length (record_batches t) = (length ids + 499) / 500.
Proof.
  intros [Hok Hyes] Hidle ids. rewrite handleClearAllChats_run, Hidle.
  cbn zeta. rewrite !Hyes. cbv [negb]. cbv beta iota. fold ids.
  set (w3 := with_sidebar _ _).
  assert (Hrun : exists w5 t,
    try_catch (clearAllBody env ids) (fun _ => ret tt) w3 = (Ok tt, w5)
    /\ trace w5 = trace w3 ++ t ++ [OnNewChat]
    /\ concat (record_batches t) = ids
    /\ Forall (fun b => 0 < length b <= 500) (record_batches t)
    /\ length (record_batches t) = (length ids + 499) / 500).
  { unfold try_catch, clearAllBody, bind.
    destruct (deleteAllMessages_trace env ids Hok w3)
      as (w4 & t1 & -> & Ht1 & Hr1 & _).
    destruct (deleteChatDocs_batches env ids Hok (length ids) 0 w4)
      as (w5 & t2 & -> & Ht2 & Hcat & Hall & Hlen); [lia|].
    eexists _, (t1 ++ t2). split; [reflexivity|]. split.
    { cbn. rewrite Ht2, Ht1. cbn. by rewrite <- !app_assoc. }
    unfold record_batches in *. rewrite !omap_app, Hr1. cbn [app].
    rewrite Nat.sub_0_r in Hlen. rewrite drop_0 in Hcat.
    by repeat split. }
  destruct Hrun as (w5 & t & -> & Ht & Hcat & Hall & Hlen).
  cbn [fst snd].
  exists (with_sidebar (setIsClearing_state false) w5), t.
  split; [done|]. split; [|done].
  cbn. rewrite Ht. cbn. by rewrite <- !app_assoc.
Qed.

Lemma records_go_in_batches_of_500_witness :
  let ids := map chat_id (chats (listing 1200)) in
  exists w' t,
    handleClearAllChats reliable_env (listing 1200) initial_world = (Ok tt, w')
    /\ trace w' = trace initial_world
         ++ [Confirm (confirmMessage (length (chats (listing 1200)))) true;
             Confirm "This is your last chance. Really delete ALL chats?" true]
         ++ t ++ [OnNewChat]
    /\ concat (record_batches t) = ids
    /\ Forall (fun b => 0 < length b <= 500) (record_batches t)
    /\ length (record_batches t) = (length ids + 499) / 500.
Proof.
  apply (records_go_in_batches_of_500 reliable_env (listing 1200)
           initial_world).
  - split; reflexivity.
  - reflexivity.
Defined.
End DeletionScope.

(** ** The live view of a conversation *)

Module ViewOrder.
Import Firestore AIChat EngineSpec BackoffSpec DeletionSpec StoreFacts Engine
       ScheduleSpec TurnSpec Submission ViewSpec.

Lemma by_createdAt_trans : Transitive by_createdAt.
Proof. intros a b c. unfold by_createdAt. lia. Qed.

Lemma by_createdAt_total : Total by_createdAt.
Proof. intros a b. unfold by_createdAt. lia. Qed.

Lemma elem_of_messages_of chat db id d :
  (id, d) ∈ messages_of chat db <-> db !! id = Some d /\ chatId d = chat.
Proof.
  unfold messages_of. rewrite elem_of_map_to_list, map_lookup_filter_Some. done.
Qed.

Lemma messages_of_insert chat db id d :
  db !! id = None -> chatId d = chat ->
  messages_of chat (<[id := d]> db) ≡ₚ messages_of chat db ++ [(id, d)].
Proof.
  intros Hnone Hchat. unfold messages_of.
  rewrite map_filter_insert_True by done.
  rewrite map_to_list_insert.
  - by rewrite Permutation_app_comm.
  - apply map_lookup_filter_None. by left.
Qed.

Lemma messages_of_insert_other chat db id d :
  db !! id = None -> chatId d <> chat ->
  messages_of chat (<[id := d]> db) = messages_of chat db.
Proof.
  intros Hnone Hchat. unfold messages_of.
  rewrite map_filter_insert_False by done.
  by rewrite delete_id.
Qed.

(** A turn stamped after all the turns of its chat goes to the end of the
    ordered log. *)
Lemma sorted_log_append chat db id d :
  db !! id = None -> chatId d = chat ->
  stamped_before chat (createdAt d) db ->
  merge_sort by_createdAt (messages_of chat (<[id := d]> db))
  = merge_sort by_createdAt (messages_of chat db) ++ [(id, d)].
Proof.
  intros Hnone Hchat [Hlt Hdistinct].
  set (old := merge_sort by_createdAt (messages_of chat db)).
  assert (Hold : forall x, x ∈ old -> db !! x.1 = Some x.2 /\ chatId x.2 = chat).
  { intros [i x]. unfold old. rewrite merge_sort_Permutation.
    apply elem_of_messages_of. }
  apply (StronglySorted_unique_strong by_createdAt).
  - intros [i1 x1] [i2 x2] H1 H2 R1 R2. unfold by_createdAt in R1, R2. cbn in *.
    assert (Heq : createdAt x1 = createdAt x2) by lia.
    rewrite merge_sort_Permutation, messages_of_insert in H1 by done.
    apply elem_of_app in H2 as [H2|H2%list_elem_of_singleton];
      apply elem_of_app in H1 as [H1|H1%list_elem_of_singleton].
    + apply elem_of_messages_of in H1 as [L1 C1].
      destruct (Hold _ H2) as [L2 C2]. cbn in *.
      assert (i1 = i2) as -> by by eapply Hdistinct. congruence.
    + injection H1 as -> ->. destruct (Hold _ H2) as [L2 C2]. cbn in *.
      pose proof (Hlt _ _ L2 C2). lia.
    + injection H2 as -> ->. apply elem_of_messages_of in H1 as [L1 C1].
      pose proof (Hlt _ _ L1 C1). lia.
    + congruence.
  - apply StronglySorted_merge_sort;
      [apply by_createdAt_trans | apply by_createdAt_total].
  - apply StronglySorted_app_2.
    + intros [i1 x1] [i2 x2] H1 [= -> ->]%list_elem_of_singleton.
      destruct (Hold _ H1) as [L1 C1]. cbn in *.
      pose proof (Hlt _ _ L1 C1). unfold by_createdAt. cbn. lia.
    + apply StronglySorted_merge_sort;
        [apply by_createdAt_trans | apply by_createdAt_total].
    + repeat constructor.
  - rewrite merge_sort_Permutation, messages_of_insert by done.
    unfold old. by rewrite merge_sort_Permutation.
Qed.

Lemma stamped_before_insert chat db id d n :
  db !! id = None -> chatId d = chat ->
  stamped_before chat (createdAt d) db -> createdAt d < n ->
  stamped_before chat n (<[id := d]> db).
Proof.
  intros Hnone Hchat [Hlt Hdistinct] Hn. split.
  - intros i x Hl Hc. destruct (decide (i = id)) as [->|Hne].
    + rewrite lookup_insert_eq in Hl. by injection Hl as <-.
    + rewrite lookup_insert_ne in Hl by done. pose proof (Hlt _ _ Hl Hc). lia.
  - intros i1 x1 i2 x2 L1 L2 C1 C2 Heq.
    destruct (decide (i1 = id)) as [->|N1]; destruct (decide (i2 = id)) as [->|N2];
      try done.
    + rewrite lookup_insert_eq in L1. injection L1 as <-.
      rewrite lookup_insert_ne in L2 by done. pose proof (Hlt _ _ L2 C2). lia.
    + rewrite lookup_insert_eq in L2. injection L2 as <-.
      rewrite lookup_insert_ne in L1 by done. pose proof (Hlt _ _ L1 C1). lia.
    + rewrite lookup_insert_ne in L1, L2 by done. by eapply Hdistinct.
Qed.

Lemma stamped_before_mono chat db n n' :
  n <= n' -> stamped_before chat n db -> stamped_before chat n' db.
Proof.
  intros Hle [Hlt Hd]. split; [|done].
  intros id d Hl Hc. pose proof (Hlt _ _ Hl Hc). lia.
Qed.

Lemma ordered_log_append chat db id d :
  db !! id = None -> chatId d = chat ->
  stamped_before chat (createdAt d) db ->
  ordered_log chat (<[id := d]> db) = ordered_log chat db ++ [Stored id d].
Proof.
  intros. unfold ordered_log. rewrite sorted_log_append by done.
  by rewrite map_app.
Qed.

Lemma snapshot_is_ordered_log user chat db :
  0 < pending chat db -> snapshot_messages user chat db = ordered_log chat db.
Proof.
  intros Hp. unfold snapshot_messages, ordered_log.
  rewrite decide_False; [done|].
  rewrite length_map, (Permutation_length (merge_sort_Permutation _ _)).
  unfold pending in Hp. lia.
Qed.

(** X27: when the turns of a chat carry distinct stamps below the
    server time, the view delivered after an answered submission is the
    earlier turns in their order, then the user turn, then the assistant
    turn; and the stamps are again distinct and below the server time. *)
Theorem answered_turns_end_the_view env user st chat w c k r first_text :
  accepted st chat ->
  db_chats w !! chat = Some c ->
  (forall i, i < 4 -> store_failure env (store_calls w + i) = None) ->
  k < 3 ->
  (forall j, j < k -> failing (fetch_reply env (fetch_calls w + j)) = true) ->
  fetch_reply env (fetch_calls w + k) = Resolved r ->
  ok r = true ->
  resp_body r = Candidates first_text ->
  stamped_before chat (now w) (db_messages w) ->
  let w' := (handleSendMessage env user st w).2 in
  exists id1 id2,
    snapshot_messages user chat (db_messages w') =
      ordered_log chat (db_messages w)
        ++ [Stored id1 (user_turn user st chat (now w));
            Stored id2 (assistant_turn chat (answer_of first_text) (2 + now w))]
    /\ stamped_before chat (now w') (db_messages w').
Proof.
  intros Hacc Hc Hstore Hk Hfail Hr Hok Hbody Hstamps w'. subst w'.
  destruct (handleSendMessage_answered env user st chat w c k r first_text)
    as (w' & Hrun & Hm & _ & _ & _ & _ & _ & Hnow); try done.
  cbn zeta in Hm.
  set (id1 := fresh (dom (db_messages w))) in *.
  set (d1 := user_turn user st chat (now w)) in *.
  set (log1 := <[id1 := d1]> (db_messages w)) in *.
  set (id2 := fresh (dom log1)) in *.
  set (d2 := assistant_turn chat (answer_of first_text) (2 + now w)) in *.
  rewrite Hrun. cbn [snd]. exists id1, id2.
  assert (F1 : db_messages w !! id1 = None) by apply not_elem_of_dom, is_fresh.
  assert (F2 : log1 !! id2 = None) by apply not_elem_of_dom, is_fresh.
  assert (S1 : stamped_before chat (createdAt d2) log1).
  { apply stamped_before_insert; try done. cbn. lia. }
  split.
  - rewrite snapshot_is_ordered_log.
    2:{ eapply (pending_pos chat _ id2 d2); [|done].
        rewrite Hm. apply lookup_insert_eq. }
    rewrite Hm. rewrite ordered_log_append by done.
    unfold log1. rewrite ordered_log_append by done.
    by rewrite <- app_assoc.
  - rewrite Hm, Hnow. apply stamped_before_insert; try done. cbn. lia.
Qed.

Lemma answered_turns_end_the_view_witness :
  let w' := (handleSendMessage fox_env demo_user (demo_state "hi") demo_world).2 in
  exists id1 id2,
    snapshot_messages demo_user "c" (db_messages w') =
      ordered_log "c" (db_messages demo_world)
        ++ [Stored id1 (user_turn demo_user (demo_state "hi") "c" (now demo_world));
            Stored id2 (assistant_turn "c" (answer_of (Some fox_text))
                          (2 + now demo_world))]
    /\ stamped_before "c" (now w') (db_messages w').
Proof.
  apply (answered_turns_end_the_view fox_env demo_user
           (demo_state "hi") "c" demo_world new_chat 1 fox_reply (Some fox_text)).
  - repeat split. by left.
  - reflexivity.
  - intros i Hi. reflexivity.
  - lia.
  - intros [|j] Hj; [reflexivity | lia].
  - reflexivity.
  - reflexivity.
  - reflexivity.
  - split; intros *; cbn; by rewrite lookup_empty.
Defined.
End ViewOrder.

(** ** Generated addresses, titles and previews *)

Module Texts.
Import Firestore AIChat ChatHistory Sidebar DirectiveSpec StringFacts UrlSpec
       DeletionSpec ViewSpec ViewOrder Engine.

#[local] Arguments String.append !_ _ / : simpl nomatch.

Lemma all_chars_app P a b :
  all_chars P (a +:+ b) = all_chars P a && all_chars P b.
Proof.
  induction a as [|c a IH]; simpl; [done|]. by rewrite IH, andb_assoc.
Qed.

Lemma encode_char_safe c : all_chars segment_safe (JS.encode_char c) = true.
Proof. destruct c as [[] [] [] [] [] [] [] []]; vm_compute; reflexivity. Qed.

Lemma encode_char_length c :
  1 <= String.length (JS.encode_char c) <= 6.
Proof. destruct c as [[] [] [] [] [] [] [] []]; vm_compute; lia. Qed.

Lemma encodeURIComponent_safe s :
  all_chars segment_safe (JS.encodeURIComponent s) = true.
Proof.
  induction s as [|c s IH]; [done|].
  cbn [JS.encodeURIComponent]. by rewrite all_chars_app, encode_char_safe, IH.
Qed.

Lemma encodeURIComponent_length s :
  String.length s <= String.length (JS.encodeURIComponent s)
                  <= 6 * String.length s.
Proof.
  induction s as [|c s IH]; [simpl; lia|].
  cbn [JS.encodeURIComponent]. rewrite length_app.
  pose proof (encode_char_length c). simpl String.length. lia.
Qed.

Lemma encodeURIComponent_unreserved s :
  all_chars JS.uri_unreserved s = true -> JS.encodeURIComponent s = s.
Proof.
  induction s as [|c s IH]; [done|]. simpl.
  intros [Hc Hs]%andb_true_iff. unfold JS.encode_char. rewrite Hc.
  simpl. by rewrite IH.
Qed.

Lemma hex_digit_safe n : n < 16 -> segment_safe (JS.hex_digit n) = true.
Proof.
  intros H. do 16 (destruct n as [|n]; [vm_compute; reflexivity|]). lia.
Qed.

Lemma percent_safe b : b < 256 -> all_chars segment_safe (JS.percent b) = true.
Proof.
  intros H. unfold JS.percent. cbn [all_chars].
  rewrite !hex_digit_safe.
  - reflexivity.
  - apply Nat.mod_upper_bound. lia.
  - apply Nat.Div0.div_lt_upper_bound. lia.
Qed.

Lemma percent_length b : String.length (JS.percent b) = 3.
Proof. reflexivity. Qed.

Lemma escapes_length bytes :
  String.length (JS.escapes bytes) = 3 * length bytes.
Proof.
  induction bytes as [|b bytes IH]; [done|].
  cbn [JS.escapes]. rewrite length_app, percent_length, IH. simpl. lia.
Qed.

Lemma escapes_safe bytes :
  Forall (fun b => (b < 256)%N) bytes ->
  all_chars segment_safe (JS.escapes bytes) = true.
Proof.
  induction 1 as [|b bytes Hb _ IH]; [done|].
  cbn [JS.escapes]. rewrite all_chars_app, IH, percent_safe; [done|]. lia.
Qed.

Lemma utf8_bytes cp :
  (cp < 1114112)%N -> Forall (fun b => (b < 256)%N) (JS.utf8 cp).
Proof.
  intros H. unfold JS.utf8.
  destruct (N.ltb_spec cp 128); [repeat constructor; lia|].
  destruct (N.ltb_spec cp 2048).
  { repeat constructor.
    - assert (cp / 64 < 32)%N by (apply N.Div0.div_lt_upper_bound; lia). lia.
    - assert (cp mod 64 < 64)%N by (apply N.mod_lt; lia). lia. }
  destruct (N.ltb_spec cp 65536).
  { repeat constructor.
    - assert (cp / 4096 < 16)%N by (apply N.Div0.div_lt_upper_bound; lia). lia.
    - assert ((cp / 64) mod 64 < 64)%N by (apply N.mod_lt; lia). lia.
    - assert (cp mod 64 < 64)%N by (apply N.mod_lt; lia). lia. }
  repeat constructor.
  - assert (cp / 262144 < 5)%N by (apply N.Div0.div_lt_upper_bound; lia). lia.
  - assert ((cp / 4096) mod 64 < 64)%N by (apply N.mod_lt; lia). lia.
  - assert ((cp / 64) mod 64 < 64)%N by (apply N.mod_lt; lia). lia.
  - assert (cp mod 64 < 64)%N by (apply N.mod_lt; lia). lia.
Qed.

Lemma utf8_length cp :
  1 <= length (JS.utf8 cp) <= 4
  /\ ((cp < 65536)%N -> length (JS.utf8 cp) <= 3).
Proof.
  unfold JS.utf8.
  destruct (N.ltb_spec cp 128); [simpl; lia|].
  destruct (N.ltb_spec cp 2048); [simpl; lia|].
  destruct (N.ltb_spec cp 65536); simpl; lia.
Qed.

Lemma ascii_of_N_unreserved_safe cp :
  JS.uri_unreserved (ascii_of_N cp) = true ->
  segment_safe (ascii_of_N cp) = true.
Proof. unfold segment_safe. by intros ->. Qed.

Lemma encode_code_point_safe cp :
  (cp < 1114112)%N ->
  all_chars segment_safe (JS.encode_code_point cp) = true.
Proof.
  intros H. unfold JS.encode_code_point.
  destruct ((cp <? 128)%N && JS.uri_unreserved (ascii_of_N cp)) eqn:E.
  - apply andb_true_iff in E as [_ E]. cbn [all_chars].
    by rewrite ascii_of_N_unreserved_safe.
  - by apply escapes_safe, utf8_bytes.
Qed.

Lemma encode_code_point_length cp :
  1 <= String.length (JS.encode_code_point cp) <= 12
  /\ ((cp < 65536)%N -> String.length (JS.encode_code_point cp) <= 9)
  /\ ((128 <= cp)%N -> 3 <= String.length (JS.encode_code_point cp)).
Proof.
  unfold JS.encode_code_point.
  destruct (N.ltb_spec cp 128) as [Hlt|Hge]; cbn [andb].
  - destruct (JS.uri_unreserved (ascii_of_N cp)).
    + simpl. lia.
    + rewrite escapes_length. pose proof (utf8_length cp). lia.
  - rewrite escapes_length. pose proof (utf8_length cp). lia.
Qed.

Lemma pair_code_point_bound u v :
  JS.is_high_surrogate u = true -> JS.is_low_surrogate v = true ->
  (65536 <= JS.pair_code_point u v < 1114112)%N.
Proof.
  unfold JS.is_high_surrogate, JS.is_low_surrogate, JS.pair_code_point.
  intros [H1 H2]%andb_true_iff [H3 H4]%andb_true_iff.
  apply N.leb_le in H1, H2, H3, H4. lia.
Qed.

Lemma no_lone_surrogate_cons u rest :
  no_lone_surrogate (u :: rest) =
    if JS.is_low_surrogate u then false
    else if JS.is_high_surrogate u
    then match rest with
         | v :: rest' => JS.is_low_surrogate v && no_lone_surrogate rest'
         | [] => false
         end
    else no_lone_surrogate rest.
Proof. reflexivity. Qed.

Lemma encodeURIComponent_utf16_spec units :
  Forall (fun u => (u < 65536)%N) units ->
  match JS.encodeURIComponent_utf16 units with
  | Some segment =>
      no_lone_surrogate units = true
      /\ all_chars segment_safe segment = true
      /\ length units <= String.length segment <= 9 * length units
  | None => no_lone_surrogate units = false
  end.
Proof.
  remember (length units) as n eqn:Hn. revert units Hn.
  induction n as [n IH] using lt_wf_ind. intros units -> Hall.
  destruct units as [|u rest]; [cbn; repeat split; lia|].
  rewrite no_lone_surrogate_cons. cbn [JS.encodeURIComponent_utf16].
  destruct (JS.is_low_surrogate u) eqn:Hlow; [done|].
  apply Forall_cons in Hall as [Hu Hall].
  destruct (JS.is_high_surrogate u) eqn:Hhigh.
  - destruct rest as [|v rest']; cbn beta iota; [done|].
    destruct (JS.is_low_surrogate v) eqn:Hv; cbn beta iota; [|done].
    apply Forall_cons in Hall as [_ Hall].
    specialize (IH (length rest') ltac:(simpl; lia) rest' eq_refl Hall).
    destruct (JS.encodeURIComponent_utf16 rest') as [s|]; [|done].
    destruct IH as (Hw & Hs & Hl). split; [done|].
    destruct (pair_code_point_bound u v Hhigh Hv) as [_ Hb].
    rewrite all_chars_app, encode_code_point_safe, Hs by done.
    split; [done|]. rewrite length_app.
    pose proof (encode_code_point_length (JS.pair_code_point u v))
      as (? & _ & H3).
    destruct (pair_code_point_bound u v Hhigh Hv) as [Hlo _].
    specialize (H3 ltac:(lia)). simpl length. lia.
  - specialize (IH (length rest) ltac:(simpl; lia) rest eq_refl Hall).
    destruct (JS.encodeURIComponent_utf16 rest) as [s|]; [|done].
    destruct IH as (Hw & Hs & Hl). split; [done|].
    rewrite all_chars_app, encode_code_point_safe, Hs by lia.
    split; [done|]. rewrite length_app.
    pose proof (encode_code_point_length u) as (? & H9 & _). specialize (H9 Hu).
    simpl length. lia.
Qed.

Lemma code_unit_of_char c :
  JS.is_low_surrogate (N_of_ascii c) = false
  /\ JS.is_high_surrogate (N_of_ascii c) = false
  /\ JS.encode_code_point (N_of_ascii c) = JS.encode_char c.
Proof. destruct c as [[] [] [] [] [] [] [] []]; vm_compute; done. Qed.

Lemma encodeURIComponent_restricts s :
  JS.encodeURIComponent_utf16 (JS.code_units s) = Some (JS.encodeURIComponent s).
Proof.
  induction s as [|c s IH]; [done|].
  cbn [JS.code_units JS.encodeURIComponent_utf16 JS.encodeURIComponent].
  destruct (code_unit_of_char c) as (-> & -> & ->). by rewrite IH.
Qed.

Lemma code_units_bound s : Forall (fun u => (u < 256)%N) (JS.code_units s).
Proof.
  induction s as [|c s IH]; [constructor|]. cbn. constructor; [|done].
  destruct c as [[] [] [] [] [] [] [] []]; vm_compute; done.
Qed.

Lemma code_units_length s : length (JS.code_units s) = String.length s.
Proof. induction s as [|c s IH]; [done|]. cbn. by rewrite IH. Qed.

(** X28: the address built by [generateImageURL].  (1) On any sequence of
    16-bit code units, [encodeURIComponent] throws [URIError] exactly when
    the sequence holds a lone surrogate, and no address is built then;
    otherwise the address is the fixed prefix, one path segment made of
    unreserved characters and percent escapes only, of 1 to 9 characters for
    each code unit, and the fixed query.  (2) On a description whose code
    units are below 256 (the strings of the model) the function does not
    throw, the segment has at most 6 characters for each code unit, and it
    is the description itself when that holds unreserved characters only.
    (3) Every address returned with an image directive has this shape. *)
Theorem image_url_has_one_safe_segment :
  (forall units,
      Forall (fun u => (u < 65536)%N) units ->
      match generateImageURL_utf16 units with
      | Some url =>
          no_lone_surrogate units = true
          /\ exists segment,
               url = image_url_prefix +:+ segment +:+ image_url_query
               /\ all_chars segment_safe segment = true
               /\ length units <= String.length segment <= 9 * length units
      | None => no_lone_surrogate units = false
      end)
  /\ (forall prompt,
        generateImageURL_utf16 (JS.code_units prompt)
          = Some (generateImageURL prompt)
        /\ exists segment,
             generateImageURL prompt
               = image_url_prefix +:+ segment +:+ image_url_query
             /\ all_chars segment_safe segment = true
             /\ String.length prompt <= String.length segment
                                     <= 6 * String.length prompt
             /\ (all_chars JS.uri_unreserved prompt = true ->
                 segment = prompt))
  /\ (forall text url,
        (extractImageRequest text).2 = Some url ->
        exists segment,
          url = image_url_prefix +:+ segment +:+ image_url_query
          /\ all_chars segment_safe segment = true).
Proof.
  split; [|split].
  - intros units Hunits. unfold generateImageURL_utf16.
    pose proof (encodeURIComponent_utf16_spec units Hunits) as H.
    destruct (JS.encodeURIComponent_utf16 units) as [segment|]; [|done].
    destruct H as (Hw & Hs & Hl). split; [done|]. by exists segment.
  - intros prompt. split.
    + unfold generateImageURL_utf16.
      by rewrite encodeURIComponent_restricts.
    + exists (JS.encodeURIComponent prompt).
      split; [done|]. split; [apply encodeURIComponent_safe|].
      split; [apply encodeURIComponent_length|].
      apply encodeURIComponent_unreserved.
  - intros text url. unfold extractImageRequest.
    destruct (match_image_request text) as [[[before g] after]|]; [|done].
    intros [= <-]. exists (JS.encodeURIComponent (JS.trim g)).
    split; [done|]. apply encodeURIComponent_safe.
Qed.

(** *** Titles and previews *)

Lemma substring_to_length n s :
  String.length (JS.substring_to n s) = Nat.min n (String.length s).
Proof.
  revert s. induction n as [|n IH]; intros [|c s]; simpl; try done.
  by rewrite IH.
Qed.

Lemma substring_to_prefix n s : JS.startsWith (JS.substring_to n s) s = true.
Proof.
  revert s. induction n as [|n IH]; intros [|c s]; simpl; try done.
  by rewrite Ascii.eqb_refl.
Qed.

(** [s.substring(0, n)] is the beginning of [s] that has [n] characters. *)
Lemma substring_to_split n s :
  n <= String.length s ->
  s = JS.substring_to n s +:+ JS.substring_from n s
  /\ String.length (JS.substring_to n s) = n.
Proof.
  revert s. induction n as [|n IH]; intros [|c s]; simpl; try done; try lia.
  intros H. destruct (IH s) as [<- ->]; [lia|]. done.
Qed.

(** X29: the title written for a first message and the preview shown in
    the sidebar.  A text of more than 40 characters gets as title its first
    40 characters followed by three dots; a text of 1 to 40 characters is
    its own title; the empty text gets the title ["Image chat"]; so a title
    has 1 to 43 characters.  A last message of more than 80 characters is
    shown as its first 80 characters followed by three dots, a shorter one
    as it is; so a preview has at most 83 characters. *)
Theorem titles_and_previews_are_bounded t :
  (1 <= String.length (chatTitle t) <= 43
   /\ (40 < String.length t ->
       exists shown rest,
         t = shown +:+ rest /\ String.length shown = 40
         /\ chatTitle t = shown +:+ "...")
   /\ (1 <= String.length t <= 40 -> chatTitle t = t)
   /\ (String.length t = 0 -> chatTitle t = "Image chat"))
  /\ (String.length (previewText t) <= 83
      /\ (80 < String.length t ->
          exists shown rest,
            t = shown +:+ rest /\ String.length shown = 80
            /\ previewText t = shown +:+ "...")
      /\ (String.length t <= 80 -> previewText t = t)).
Proof.
  unfold chatTitle, previewText. split.
  - destruct (Nat.ltb_spec 40 (String.length t)) as [Hlong|Hshort].
    + destruct (substring_to_split 40 t) as [Hs Hl]; [lia|].
      rewrite length_app, Hl. simpl. split; [lia|]. split; [|split; lia].
      intros _. by exists (JS.substring_to 40 t), (JS.substring_from 40 t).
    + destruct t as [|c t]; simpl in *.
      * split; [lia|]. split; [lia|]. split; [lia|done].
      * split; [lia|]. split; [lia|]. split; [done|lia].
  - destruct (Nat.ltb_spec 80 (String.length t)) as [Hlong|Hshort].
    + destruct (substring_to_split 80 t) as [Hs Hl]; [lia|].
      rewrite length_app, Hl. simpl. split; [lia|]. split; [|lia].
      intros _. by exists (JS.substring_to 80 t), (JS.substring_from 80 t).
    + split; [lia|]. split; [lia|done].
Qed.

(** X30: the view of a chat without turns is the welcome turn alone;
    the view of any other chat holds exactly the persisted turns of that
    chat, as many as the store holds, oldest first. *)
Theorem view_shows_exactly_the_chat_log user chat db :
  (pending chat db = 0 -> snapshot_messages user chat db = [welcome user])
  /\ (0 < pending chat db ->
      (forall m, m ∈ snapshot_messages user chat db <->
                 exists id d, m = Stored id d /\ db !! id = Some d
                              /\ chatId d = chat)
      /\ length (snapshot_messages user chat db) = pending chat db
      /\ StronglySorted older_first (snapshot_messages user chat db)).
Proof.
  split; [apply snapshot_of_empty_log|]. intros Hp.
  rewrite snapshot_is_ordered_log by done. unfold ordered_log.
  set (sorted := merge_sort by_createdAt (messages_of chat db)).
  assert (Hperm : sorted ≡ₚ messages_of chat db) by apply merge_sort_Permutation.
  split; [|split].
  - intros m. rewrite list_elem_of_fmap. split.
    + intros ([id d] & -> & Hin). rewrite Hperm in Hin.
      apply elem_of_messages_of in Hin. by exists id, d.
    + intros (id & d & -> & Hl & Hc). exists (id, d). split; [done|].
      rewrite Hperm. by apply elem_of_messages_of.
  - rewrite length_map, Hperm. done.
  - apply (StronglySorted_fmap _ by_createdAt); [done|].
    apply StronglySorted_merge_sort;
      [apply by_createdAt_trans | apply by_createdAt_total].
Qed.
End Texts.

(** ** Runs of the model on concrete inputs *)

Module Runs.
Import AIChat ChatHistory Sidebar EngineSpec DeletionSpec RegistrySpec TurnSpec
       UrlSpec.

(** A submission answered, after one failed attempt, by a text with an image
    directive: the calls made, the title, and the preview. *)
Example submission_with_image_directive :
  let run := handleSendMessage fox_env demo_user (demo_state "  draw a fox ")
               demo_world in
  run.1 = Ok tt
  /\ map (fun e => match e with
                   | Store (AddMessage d) b => ("add: " +:+ text d, b)
                   | Store (UpdateChat _ p) b =>
                       ("update: " +:+ default EmptyString (p_lastMessage p), b)
                   | Fetch url _ => ("fetch: " +:+ url, true)
                   | Sleep ms => ("sleep: " +:+ pretty ms, true)
                   | _ => ("other", true)
                   end) (trace run.2)
     = [("add: draw a fox", true); ("update: draw a fox", true);
        ("fetch: http://localhost:3001/api/chat", true);
        ("sleep: 1000", true);
        ("fetch: http://localhost:3001/api/chat", true);
        ("add: Sure!", true); ("update: Sure! [Image]", true)]
  /\ title <$> db_chats run.2 !! "c" = Some (Some "draw a fox")
  /\ map msg_text (snapshot_messages demo_user "c" (db_messages run.2))
     = ["draw a fox"; "Sure!"].
Proof. vm_compute. repeat split. Qed.

(** Clearing two chats: both logs are drained, then one batch deletes both
    records. *)
Example clear_two_chats :
  let run := handleClearAllChats reliable_env two_chats_sidebar two_chats in
  run.1 = Ok tt
  /\ map (fun e => (j_request e, size (j_messages e))) (journal run.2)
     = [(QueryMessages "a" 200, 5); (DeleteMessages ["1"; "2"; "0"], 5);
        (QueryMessages "b" 200, 2); (DeleteMessages ["11"; "10"], 2);
        (DeleteChats ["a"; "b"], 0)]
  /\ db_chats run.2 = ∅ /\ db_messages run.2 = ∅.
Proof. vm_compute. repeat split. Qed.

(** The sidebar: search "re", category "all". *)
Example sidebar_view :
  map chat_id
    (sortedChats
       {| chats := [entry "1" "Recipes" false "personal";
                    entry "2" "Budget" true "work";
                    entry "3" "Career plan" true "work";
                    entry "4" "Rocq proofs" false "learning";
                    entry "5" "PRESENTS" false "personal"];
          searchQuery := "RE"; selectedCategory := "all";
          isClearing := false |})
  = ["3"; "1"; "5"].
Proof. reflexivity. Qed.

(** Texts around the directive. *)
Example directive_examples :
  extractImageRequest "[IMAGE_REQUEST:  a cat ] [IMAGE_REQUEST: dog]"
    = ("[IMAGE_REQUEST: dog]",
       Some "https://image.pollinations.ai/prompt/a%20cat?width=512&height=512&nologo=true")
  /\ extractImageRequest "[IMAGE_REQUEST:] hello" = ("[IMAGE_REQUEST:] hello", None)
  /\ extractImageRequest "no directive [1]" = ("no directive [1]", None)
  /\ fst (extractImageRequest "[IMAGE_REQUEST: a (blue) bird]")
     = DirectiveSpec.default_caption "a (blue) bird".
Proof. vm_compute. repeat split. Qed.

(** [encodeURIComponent] beyond the code units of the model: a code unit
    of three UTF-8 bytes, a surrogate pair, and a lone surrogate, on which
    the function throws. *)
Example encodeURIComponent_examples :
  JS.encodeURIComponent_utf16 cat_sign = Some "%E7%8C%AB"
  /\ JS.encodeURIComponent_utf16 grinning_face = Some "%F0%9F%98%80"
  /\ JS.encodeURIComponent_utf16 lone_surrogate = None
  /\ generateImageURL_utf16 cat_sign
     = Some "https://image.pollinations.ai/prompt/%E7%8C%AB?width=512&height=512&nologo=true"
  /\ generateImageURL_utf16 lone_surrogate = None
  /\ JS.encodeURIComponent "a red fox & 2 cubs" = "a%20red%20fox%20%26%202%20cubs".
Proof. vm_compute. repeat split. Qed.

(** Titles and previews. *)
Example title_examples :
  chatTitle long_question = "Please explain how exponential backoff w..."
  /\ chatTitle "Hi" = "Hi"
  /\ chatTitle EmptyString = "Image chat"
  /\ previewText "Hi" = "Hi"
  /\ String.length (previewText (long_question +:+ long_question)) = 83.
Proof. vm_compute. repeat split. Qed.

(** A backend that answers 404 with a body that cannot be read: the error
    turn reports the rejection of [response.text()]. *)
Example unreadable_client_error :
  let run := handleSendMessage (ScheduleSpec.unreadable_status 404 (Error "boom"))
               demo_user (demo_state "hi") demo_world in
  run.1 = Ok tt
  /\ map msg_text (snapshot_messages demo_user "c" (db_messages run.2))
     = ["hi";
        "I encountered an error: boom. Please try again or check your connection."]
  /\ length (fetches (trace run.2)) = 3
  /\ lastMessage <$> db_chats run.2 !! "c" = Some "Error occurred".
Proof. vm_compute. repeat split. Qed.

End Runs.
